(** * MCDM production-planning dashboard: the numerical core

    Shallow embedding of the functions of [src/hello.jsx] that compute:
    [computeAHPFromMatrix], [solveLPHeuristic], [computeObjectives], the
    state updates of [updateValue], [updatePairwise], [computeAHP],
    [handleFileUpload] and [runOptimization], the derived [paretoData] and
    the score of [multiBetterCheck].  The rendering and the download of the
    results as a file are outside the model.

    JavaScript numbers are modelled by [number]: the finite doubles, as
    the rationals they are, with [+Infinity], [-Infinity] and [NaN].  Every
    sum, product and quotient, every decimal literal of the source and
    every parsed string is rounded to the nearest double, ties to even,
    with gradual underflow and overflow to an infinity ([round64]); the
    special values follow IEEE 754 as JavaScript exposes it.  The two zeros
    are one ([-0] is [0]): no divisor of the modelled code can be [-0].
    A string is a sequence of code units below 256.  An array is a
    [list number]; reading an array out of range gives [undefined] in
    JavaScript, and every such read in the modelled code flows straight
    into arithmetic, [Math.max], [Math.min], a comparison or [||], where
    [undefined] behaves exactly as [NaN] does, so an out-of-range read is
    modelled as [NaN]. *)

From Stdlib Require Import String Ascii DecimalString.
From Stdlib Require Import ZArith QArith Qround Qabs Qpower Qreduction Lqa Lia Bool List.
From Stdlib Require Import Permutation Sorted.
Import ListNotations.

Local Open Scope Q_scope.

(** ** JavaScript numbers *)

Module JS.

Inductive number : Type :=
| Fin (q : Q)
| PInf
| NInf
| NaN.

Definition Qlt_bool (a b : Q) : bool := negb (Qle_bool b a).

Definition is_fin (x : number) : bool :=
  match x with Fin _ => true | _ => false end.

Definition is_nan (x : number) : bool :=
  match x with NaN => true | _ => false end.

(** The rational value of a finite number (0 on the special values). *)
Definition val (x : number) : Q :=
  match x with Fin q => q | _ => 0 end.

Definition ofZ (z : Z) : number := Fin (inject_Z z).
Definition ofNat (n : nat) : number := ofZ (Z.of_nat n).

(** *** Rounding to the nearest double

    A finite double is [m * 2^e] with [|m| < 2^53] and [e >= -1074], below
    [2^1024] in absolute value. *)

Definition pow2 (e : Z) : Q := Qpower 2 e.

(** The nearest integer, ties to the even one. *)
Definition rne (x : Q) : Z :=
  let f := Qfloor x in
  match Qcompare (x - inject_Z f) (1 # 2) with
  | Lt => f
  | Gt => (f + 1)%Z
  | Eq => if Z.even f then f else (f + 1)%Z
  end.

(** [floor (log2 |q|)], for [q] that is not zero. *)
Definition mag (q : Q) : Z :=
  let k := (Z.log2 (Z.abs (Qnum q)) - Z.log2 (Zpos (Qden q)))%Z in
  if Qle_bool (pow2 k) (Qabs q) then k else (k - 1)%Z.

(** The exponent of the last place of the doubles around [q]: 52 binary
    places below the leading one, and never below [-1074]. *)
Definition cexp (q : Q) : Z := Z.max (mag q - 52) (-1074).

(** [q] rounded to the nearest multiple of [2^(cexp q)]. *)
Definition round_fin (q : Q) : Q :=
  if Qeq_bool q 0 then 0
  else inject_Z (rne (q * pow2 (- cexp q))) * pow2 (cexp q).

(** The double nearest to [q], in lowest terms; an infinity when the
    rounded value reaches [2^1024]. *)
Definition round64 (q : Q) : number :=
  let r := round_fin q in
  if Qle_bool (pow2 1024) r then PInf
  else if Qle_bool r (- pow2 1024) then NInf
  else Fin (Qred r).

(** A decimal literal of the source. *)
Definition dbl (q : Q) : number := round64 q.

Definition neg (x : number) : number :=
  match x with
  | Fin q => Fin (- q)
  | PInf => NInf
  | NInf => PInf
  | NaN => NaN
  end.

Definition add (x y : number) : number :=
  match x, y with
  | NaN, _ | _, NaN => NaN
  | Fin a, Fin b => round64 (a + b)
  | PInf, NInf | NInf, PInf => NaN
  | PInf, _ | _, PInf => PInf
  | NInf, _ | _, NInf => NInf
  end.

Definition sub (x y : number) : number := add x (neg y).

(** Sign of a number as seen by multiplication and division: [Some true]
    for positive, [Some false] for negative, [None] for zero and [NaN]. *)
Definition sgn (x : number) : option bool :=
  match x with
  | Fin q => if Qlt_bool 0 q then Some true
             else if Qlt_bool q 0 then Some false else None
  | PInf => Some true
  | NInf => Some false
  | NaN => None
  end.

Definition inf_of_sign (s : bool) : number := if s then PInf else NInf.

Definition mul (x y : number) : number :=
  match x, y with
  | NaN, _ | _, NaN => NaN
  | Fin a, Fin b => round64 (a * b)
  | _, _ =>
      match sgn x, sgn y with
      | Some s, Some t => inf_of_sign (Bool.eqb s t)
      | _, _ => NaN
      end
  end.

(** Division.  A finite non-zero number over zero is an infinity of the
    sign of the numerator (the zero divisors of the modelled code are all
    positive zeros), [0/0] is [NaN]. *)
Definition div (x y : number) : number :=
  match x, y with
  | NaN, _ | _, NaN => NaN
  | Fin a, Fin b =>
      if Qeq_bool b 0
      then match sgn x with Some s => inf_of_sign s | None => NaN end
      else round64 (a / b)
  | Fin _, _ => Fin 0
  | _, Fin b =>
      match sgn x with
      | Some s => inf_of_sign (Bool.eqb s (negb (Qlt_bool b 0)))
      | None => NaN
      end
  | _, _ => NaN
  end.

(** [x < y]; false as soon as an operand is [NaN]. *)
Definition lt (x y : number) : bool :=
  match x, y with
  | NaN, _ | _, NaN => false
  | Fin a, Fin b => Qlt_bool a b
  | NInf, NInf => false
  | NInf, _ => true
  | _, PInf => negb (match x with PInf => true | _ => false end)
  | _, _ => false
  end.

(** [x > y]. *)
Definition gt (x y : number) : bool := lt y x.

(** Truthiness of a number: [0] and [NaN] are falsy. *)
Definition truthy (x : number) : bool :=
  match x with
  | Fin q => negb (Qeq_bool q 0)
  | NaN => false
  | _ => true
  end.

(** Numeric equality of two numbers (the representation of a rational is
    not unique); [NaN] is related to itself here, unlike JavaScript's [===]. *)
Definition eqv (x y : number) : Prop :=
  match x, y with
  | Fin a, Fin b => a == b
  | PInf, PInf | NInf, NInf | NaN, NaN => True
  | _, _ => False
  end.

(** [x || y] on numbers. *)
Definition or (x y : number) : number := if truthy x then x else y.

Definition Math_abs (x : number) : number :=
  match x with
  | Fin q => Fin (Qabs q)
  | NaN => NaN
  | _ => PInf
  end.

(** [Math.max(x, y)]: [NaN] if an argument is, else the larger one. *)
Definition Math_max (x y : number) : number :=
  match x, y with
  | NaN, _ | _, NaN => NaN
  | _, _ => if lt x y then y else x
  end.

(** [Math.min(x, y)]. *)
Definition Math_min (x y : number) : number :=
  match x, y with
  | NaN, _ | _, NaN => NaN
  | _, _ => if lt y x then y else x
  end.

(** [Math.max(...xs)]: [-Infinity] on no argument. *)
Definition Math_max_list (xs : list number) : number :=
  fold_left Math_max xs NInf.

(** [Math.round]: the nearest integer, halves rounded towards +Infinity,
    that is [floor (x + 1/2)]. *)
Definition Math_round (x : number) : number :=
  match x with
  | Fin q => ofZ (Qfloor (q + (1 # 2)))
  | _ => x
  end.

(** *** [Math.pow(x, 0.8)]

    The exponent of the source is the double nearest to [4/5], and the
    engines compute the power to within one unit in the last place, not
    always to the nearest double.  The model takes [x^(4/5)]: the fifth
    root of [x^4], by the digit-by-digit integer root [iroot5], truncated
    after [pow_bits] fractional binary digits (at least 64 significant
    ones) and rounded to the nearest double.  It can differ from the result
    of an engine in the last place; what the statements below use of it
    holds of both: [0] and [1] are fixed, a number of [[0, 1]] is sent into
    [[0, 1]], and a number above one half to a number above one half. *)

Fixpoint iroot5_from (k : nat) (m r : Z) : Z :=
  match k with
  | O => r
  | S k' =>
      let r' := (r + 2 ^ Z.of_nat k')%Z in
      iroot5_from k' m (if (r' ^ 5 <=? m)%Z then r' else r)
  end.

(** The largest [r] with [r^5 <= m] (0 for [m <= 0]). *)
Definition iroot5 (m : Z) : Z := iroot5_from (S (Z.to_nat (Z.log2 m))) m 0.

(** The number of fractional digits kept: 64, and as many more as [q] has
    leading zeros after the point. *)
Definition pow_bits (q : Q) : positive :=
  Pos.succ (63 + Z.to_pos (Z.max 1 (- mag q))).

Definition pow08_fin (q : Q) : Q :=
  let bits := pow_bits q in
  let scale := Z.pos (2 ^ bits) in
  (iroot5 ((Qnum q ^ 4 * scale ^ 5) / (Z.pos (Qden q) ^ 4)) # 2 ^ bits).

Definition Math_pow08 (x : number) : number :=
  match x with
  | Fin q => if Qlt_bool q 0 then NaN
             else if Qeq_bool q 0 then Fin 0 else round64 (pow08_fin q)
  | NaN => NaN
  | _ => PInf
  end.

(** *** [parseFloat]

    Leading white space is skipped, then the longest prefix that is a
    decimal literal (optional sign, [Infinity] or digits with an optional
    fraction and an optional exponent) is read; [NaN] when there is none.
    The value is the double nearest to the decimal. *)

(** The white space of JavaScript among the code units below 256: tab,
    line feed, vertical tab, form feed, carriage return, space and the
    no-break space. *)
Definition is_space (c : ascii) : bool :=
  let n := nat_of_ascii c in
  (Nat.eqb n 32 || (Nat.leb 9 n && Nat.leb n 13) || Nat.eqb n 160)%bool.

Fixpoint skip_space (s : string) : string :=
  match s with
  | String c t => if is_space c then skip_space t else s
  | EmptyString => s
  end.

Definition digit_of (c : ascii) : option Z :=
  let n := nat_of_ascii c in
  if (Nat.leb 48 n && Nat.leb n 57)%bool then Some (Z.of_nat (n - 48)) else None.

(** Reads a run of digits: the value read so far, the number of digits
    read, and the rest of the string. *)
Fixpoint read_digits (s : string) (acc : Z) (count : nat) : Z * nat * string :=
  match s with
  | String c t =>
      match digit_of c with
      | Some d => read_digits t (10 * acc + d)%Z (S count)
      | None => (acc, count, s)
      end
  | EmptyString => (acc, count, s)
  end.

Definition read_sign (s : string) : bool * string :=
  match s with
  | String "-"%char t => (true, t)
  | String "+"%char t => (false, t)
  | _ => (false, s)
  end.

(** The exponent part [e], [e+] or [e-] followed by at least one digit;
    0 when the string does not start with one. *)
Definition read_exponent (s : string) : Z :=
  match s with
  | String c t =>
      if (Ascii.eqb c "e" || Ascii.eqb c "E")%bool then
        let '(negative, t') := read_sign t in
        let '(e, count, _) := read_digits t' 0%Z O in
        match count with
        | O => 0%Z
        | S _ => if negative then (- e)%Z else e
        end
      else 0%Z
  | EmptyString => 0%Z
  end.

Definition pow10 (e : Z) : Q :=
  match e with
  | Z0 => 1
  | Zpos p => inject_Z (10 ^ Zpos p)
  | Zneg p => 1 # (10 ^ p)
  end.

Definition parseFloat (s : string) : number :=
  let '(negative, s1) := read_sign (skip_space s) in
  if String.prefix "Infinity" s1 then (if negative then NInf else PInf)
  else
    let '(ip, ni, s2) := read_digits s1 0%Z O in
    let '(fp, nf, s3) :=
      match s2 with
      | String "."%char t => read_digits t 0%Z O
      | _ => (0%Z, O, s2)
      end in
    match (ni + nf)%nat with
    | O => NaN
    | S _ =>
        let mant := inject_Z ip + inject_Z fp * pow10 (- Z.of_nat nf) in
        let v := mant * pow10 (read_exponent s3) in
        round64 (if negative then - v else v)
    end.

(** *** [Number.prototype.toFixed(2)]

    The sign, then the integer [n] nearest to [100 |x|] (the larger one on
    a tie) printed with two digits after the point.  JavaScript switches to
    exponent notation from [1e21] on; the model keeps the plain expansion
    there. *)

Definition decimal_of (n : Z) : string :=
  DecimalString.NilZero.string_of_uint (N.to_uint (Z.to_N n)).

Definition two_digits (n : Z) : string :=
  ((if (n <? 10)%Z then "0" else "") ++ decimal_of n)%string.

Definition toFixed2 (x : number) : string :=
  match x with
  | NaN => "NaN"
  | PInf => "Infinity"
  | NInf => "-Infinity"
  | Fin q =>
      let n := Qfloor (Qabs q * 100 + (1 # 2)) in
      ((if Qlt_bool q 0 then "-" else "")
         ++ decimal_of (n / 100) ++ "." ++ two_digits (n mod 100))%string
  end.

End JS.

Import JS.

(** ** Arrays *)

(** [a[i]] read as a number. *)
Definition get (a : list number) (i : nat) : number := nth i a NaN.

(** [a[i] = v]: an assignment past the end extends the array; the holes it
    leaves read as [undefined]. *)
Fixpoint set (a : list number) (i : nat) (v : number) : list number :=
  match i, a with
  | O, [] => [v]
  | O, _ :: t => v :: t
  | S i', [] => NaN :: set [] i' v
  | S i', h :: t => h :: set t i' v
  end.

(** [xs.map((x, i) => f x i)], the index starting at [k]. *)
Fixpoint mapi_from {A B : Type} (f : A -> nat -> B) (k : nat) (xs : list A) : list B :=
  match xs with
  | [] => []
  | x :: t => f x k :: mapi_from f (S k) t
  end.

Definition mapi {A B : Type} (f : A -> nat -> B) (xs : list A) : list B :=
  mapi_from f 0 xs.

(** [xs.reduce((acc, x, i) => f acc x i, init)], the index starting at [k]. *)
Fixpoint reducei_from {A B : Type} (f : B -> A -> nat -> B) (k : nat)
  (xs : list A) (acc : B) : B :=
  match xs with
  | [] => acc
  | x :: t => reducei_from f (S k) t (f acc x k)
  end.

Definition reducei {A B : Type} (f : B -> A -> nat -> B) (xs : list A) (init : B) : B :=
  reducei_from f 0 xs init.

(** [xs.reduce((a, b) => a + b, 0)] *)
Definition sum (xs : list number) : number := fold_left add xs (Fin 0).

(** [for (let i = 0; i < n; i++) body], threading the state. *)
Definition for_loop {S : Type} (n : nat) (body : S -> nat -> S) (init : S) : S :=
  fold_left body (seq 0 n) init.

(** ** Constants *)

Definition matrix : Type := list (list number).

Definition DEFAULT_PAIRWISE : matrix :=
  [ [Fin 1; dbl (2 # 10); dbl (333 # 1000)];
    [Fin 5; Fin 1; Fin 5];
    [Fin 3; dbl (2 # 10); Fin 1] ].

(** ** The AHP engine *)

Record AHPResult : Type := {
  weights : list number;
  lambdaMax : number;
  CI : number;
  CR : number
}.

(** [matrix[i][j]] for a row index [i] below [matrix.length]. *)
Definition entry (m : matrix) (i j : nat) : number := get (nth i m []) j.

Definition RI_table (n : nat) : option number :=
  match n with
  | 1%nat => Some (Fin 0)
  | 2%nat => Some (Fin 0)
  | 3%nat => Some (dbl (58 # 100))
  | 4%nat => Some (dbl (90 # 100))
  | 5%nat => Some (dbl (112 # 100))
  | _ => None
  end.

(** The two nested loops that fill [colSums] (line 57). *)
Definition colSums_of (m : matrix) : list number :=
  let n := length m in
  for_loop n (fun colSums j =>
    for_loop n (fun colSums i =>
      set colSums j (add (get colSums j) (entry m i j))) colSums)
    (repeat (Fin 0) n).

(** [norm] and the row averages [weights] (lines 59-60). *)
Definition row_averages (m : matrix) : list number :=
  let n := length m in
  let colSums := colSums_of m in
  let norm := map (fun row => mapi (fun v j => div v (or (get colSums j) (Fin 1))) row) m in
  map (fun row => div (sum row) (ofNat n)) norm.

(** [computeAHPFromMatrix] (lines 53-75). *)
Definition computeAHPFromMatrix (m : matrix) : AHPResult :=
  let n := length m in
  let weights := row_averages m in
  let lambdaVec :=
    mapi (fun row i =>
            div (reducei (fun s v j => add s (mul v (get weights j))) row (Fin 0))
                (or (get weights i) (Fin 1))) m in
  let lambdaMax := div (sum lambdaVec) (ofNat n) in
  let CI := div (sub lambdaMax (ofNat n)) (sub (ofNat n) (Fin 1)) in
  let RI := match RI_table n with Some r => r | None => dbl (124 # 100) end in
  let CR := if truthy RI then div CI RI else Fin 0 in
  let total := or (sum weights) (Fin 1) in
  let normalized := map (fun w => div w total) weights in
  {| weights := normalized; lambdaMax := lambdaMax; CI := CI; CR := CR |}.

(** ** The constrained allocation heuristic *)

Record Options : Type := {
  maximize : bool;
  strategy : option string   (* [None]: the property is absent *)
}.

Record LPResult : Type := {
  solution : list number;
  objective : number
}.

(** The fixed cumulative ceilings (line 85). *)
Definition cumCapacity : list number :=
  map ofZ [2700000; 5200000; 7900000; 10700000; 13500000; 16200000;
           19000000; 22000000; 24800000; 27800000; 30600000; 32700000]%Z.

(** [options.strategy === s] *)
Definition strategy_is (options : Options) (s : string) : bool :=
  match strategy options with
  | Some s' => String.eqb s' s
  | None => false
  end.

(** [Math.max(...coeffs.map(c => Math.abs(c)), 1)] (line 88). *)
Definition maxAbs_of (coeffs : list number) : number :=
  Math_max_list (map Math_abs coeffs ++ [Fin 1]).

(** The normalized rank of a coefficient (line 96). *)
Definition rank_of (maxAbs c : number) : number :=
  div (add (div c maxAbs) (Fin 1)) (Fin 2).

(** The value proposed for a period before the ceiling and the clamp
    (lines 97-110). *)
Definition target (options : Options) (lb ub rank : number) : number :=
  let x :=
    if strategy_is options "aggressive" then
      add lb (mul (sub ub lb) (Math_pow08 rank))
    else if strategy_is options "conservative" then
      add lb (mul (sub ub lb) (dbl (15 # 100)))
    else
      add lb (mul (sub ub lb) (add (dbl (35 # 100)) (mul (Fin (1 # 2)) rank))) in
  if negb (maximize options) then add lb (mul (sub ub lb) (sub (Fin 1) rank))
  else x.

(** The ceiling step followed by the clamp to the period's bounds
    (lines 112-119). *)
Definition ceil_clamp (lb ub cap cumulative x : number) : number :=
  let expected := add cumulative x in
  let x := if gt expected cap then Math_max lb (sub cap cumulative) else x in
  Math_min ub (Math_max lb x).

(** One iteration of the loop on the state [(solution, cumulative)]
    (lines 90-122; the variable [sign] is never read). *)
Definition period_step (coeffs lower upper : list number) (options : Options)
  (maxAbs : number) (st : list number * number) (i : nat) : list number * number :=
  let '(solution, cumulative) := st in
  let lb := get lower i in
  let ub := get upper i in
  let rank := rank_of maxAbs (get coeffs i) in
  let x := target options lb ub rank in
  let x := ceil_clamp lb ub (get cumCapacity i) cumulative x in
  let solution := set solution i (Math_round x) in
  (solution, add cumulative (get solution i)).

(** [x.reduce((s, xi, i) => s + coeffs[i] * xi, 0)] *)
Definition dot (coeffs x : list number) : number :=
  reducei (fun s xi i => add s (mul (get coeffs i) xi)) x (Fin 0).

(** [solveLPHeuristic] (lines 78-126). *)
Definition solveLPHeuristic (coeffs lower upper : list number) (options : Options)
  : LPResult :=
  let n := length coeffs in
  let maxAbs := maxAbs_of coeffs in
  let '(solution, _) :=
    for_loop n (period_step coeffs lower upper options maxAbs)
      (repeat (Fin 0) n, Fin 0) in
  {| solution := solution; objective := dot coeffs solution |}.

(** ** The objective evaluator *)

Record Objectives : Type := { Z1 : number; Z2 : number; Z3 : number }.

(** [computeObjectives] (lines 129-137). *)
Definition computeObjectives (turnover cost productivity x : list number) : Objectives :=
  {| Z1 := dot turnover x; Z2 := dot cost x; Z3 := dot productivity x |}.

(** ** Editing the pairwise matrix *)

(** [m[i][j] = v]; [None] is the [TypeError] raised when row [i] does not
    exist. *)
Fixpoint set_entry (m : matrix) (i j : nat) (v : number) : option matrix :=
  match m, i with
  | [], _ => None
  | row :: rest, O => Some (set row j v :: rest)
  | row :: rest, S i' => option_map (cons row) (set_entry rest i' j v)
  end.

(** The state update of [updatePairwise(i, j, value)] applied to the
    previous matrix (lines 186-194). *)
Definition updatePairwise (prev : matrix) (i j : nat) (value : string) : option matrix :=
  let copy := map (fun row => row) prev in
  let parsed := or (parseFloat value) (Fin 1) in
  match set_entry copy i j parsed with
  | Some copy =>
      if negb (Nat.eqb i j) then set_entry copy j i (div (Fin 1) parsed)
      else Some copy
  | None => None
  end.

(** A sequence of edits, stopping at the first one that raises. *)
Fixpoint apply_edits (m : matrix) (edits : list (nat * nat * string)) : option matrix :=
  match edits with
  | [] => Some m
  | (i, j, value) :: rest =>
      match updatePairwise m i j value with
      | Some m' => apply_edits m' rest
      | None => None
      end
  end.

(** ** The strategy orchestrator *)

Record Data : Type := {
  turnover : list number;
  cost : list number;
  productivity : list number;
  orders : list number;
  capacity : list number
}.

Definition DEFAULT_DATA : Data := {|
  turnover := map ofZ [1450; 1320; 1167; 1820; 1097; 1085; 1094; 1030; 1007; 1203; 1119; 928]%Z;
  cost := map ofZ [80; 75; 70; 65; 60; 55; 50; 45; 40; 35; 30; 25]%Z;
  productivity := map ofZ [9676; 10924; 12131; 11081; 11625; 11499; 11082; 11127; 10943; 13441; 12180; 10342]%Z;
  orders := map ofZ [2548556; 2550855; 2735389; 2503787; 2750643; 2624632; 2563748; 2563748; 2451276; 2992994; 2761731; 2258991]%Z;
  capacity := map ofZ [2700000; 2500000; 2700000; 2800000; 2800000; 2700000; 2800000; 3000000; 2800000; 3000000; 2800000; 2100000]%Z
|}.

Module Improvements.
Record t : Type := {
  turnover : string;
  cost : string;
  productivity : string
}.
End Improvements.

Record StrategyResult : Type := {
  res_solution : list number;
  turnoverVal : number;
  costVal : number;
  productivityVal : number;
  res_weights : option (list number);
  improvements : option Improvements.t
}.

Definition fallback_weights : list number :=
  [dbl (132 # 1000); dbl (612 # 1000); dbl (256 # 1000)].

(** The three baseline totals of the [multiObjective] branch: the
    objectives of the allocation that is the order series itself. *)
Definition baselineZ1 (data : Data) : number := dot (turnover data) (orders data).
Definition baselineZ2 (data : Data) : number := dot (cost data) (orders data).
Definition baselineZ3 (data : Data) : number := dot (productivity data) (orders data).

(** The [result] computed by [runOptimization(mode)] (lines 259-328) from
    the data set and the AHP state ([None]: not computed yet); [None] is
    [null], for a mode that is none of the four. *)
Definition runOptimization (data : Data) (ahp : option AHPResult) (mode : string)
  : option StrategyResult :=
  let weights := match ahp with Some a => weights a | None => fallback_weights end in
  let thousand := Fin 1000 in
  if String.eqb mode "turnover" then
    let r := solveLPHeuristic (turnover data) (orders data) (capacity data)
               {| maximize := true; strategy := Some "aggressive"%string |} in
    Some {| res_solution := solution r;
            turnoverVal := mul (objective r) thousand;
            costVal := dot (cost data) (solution r);
            productivityVal := dot (productivity data) (solution r);
            res_weights := None; improvements := None |}
  else if String.eqb mode "cost" then
    let negCost := map neg (cost data) in
    let r := solveLPHeuristic negCost (orders data) (capacity data)
               {| maximize := false; strategy := Some "conservative"%string |} in
    Some {| res_solution := solution r;
            turnoverVal := mul (dot (turnover data) (solution r)) thousand;
            costVal := dot (cost data) (solution r);
            productivityVal := dot (productivity data) (solution r);
            res_weights := None; improvements := None |}
  else if String.eqb mode "productivity" then
    let r := solveLPHeuristic (productivity data) (orders data) (capacity data)
               {| maximize := true; strategy := Some "balanced"%string |} in
    Some {| res_solution := solution r;
            turnoverVal := mul (dot (turnover data) (solution r)) thousand;
            costVal := dot (cost data) (solution r);
            productivityVal := objective r;
            res_weights := None; improvements := None |}
  else if String.eqb mode "multiObjective" then
    let combined :=
      mapi (fun t i =>
              add (sub (mul (mul (get weights 0) t) thousand)
                       (mul (mul (get weights 1) (get (cost data) i)) thousand))
                  (mul (get weights 2) (get (productivity data) i)))
           (turnover data) in
    let r := solveLPHeuristic combined (orders data) (capacity data)
               {| maximize := true; strategy := Some "balanced"%string |} in
    let z := computeObjectives (turnover data) (cost data) (productivity data) (solution r) in
    let actualTurnover := mul (Z1 z) thousand in
    let actualCost := Z2 z in
    let actualProductivity := Z3 z in
    let b1 := baselineZ1 data in
    let b2 := baselineZ2 data in
    let b3 := baselineZ3 data in
    let imp := {|
      Improvements.turnover :=
        if truthy b1
        then toFixed2 (mul (div (sub actualTurnover (mul b1 thousand)) (mul b1 thousand)) (Fin 100))
        else "0.00"%string;
      Improvements.cost :=
        if truthy b2
        then toFixed2 (mul (div (sub b2 actualCost) b2) (Fin 100))
        else "0.00"%string;
      Improvements.productivity :=
        if truthy b3
        then toFixed2 (mul (div (sub actualProductivity b3) b3) (Fin 100))
        else "0.00"%string |} in
    Some {| res_solution := solution r;
            turnoverVal := actualTurnover;
            costVal := actualCost;
            productivityVal := actualProductivity;
            res_weights := Some weights;
            improvements := Some imp |}
  else None.

(** ** Strings *)

(** [s.split(sep)] for a separator of one character. *)
Fixpoint split_on (sep : ascii) (s : string) : list string :=
  match s with
  | EmptyString => [EmptyString]
  | String c t =>
      if Ascii.eqb c sep then EmptyString :: split_on sep t
      else match split_on sep t with
           | h :: r => String c h :: r
           | [] => [String c EmptyString]
           end
  end.

(** Removes the white space at the end of a string. *)
Fixpoint trim_end (s : string) : string :=
  match s with
  | EmptyString => EmptyString
  | String c t =>
      match trim_end t with
      | EmptyString => if is_space c then EmptyString else String c EmptyString
      | t' => String c t'
      end
  end.

(** [s.trim()] *)
Definition trim (s : string) : string := trim_end (skip_space s).

(** The letters [A]-[Z] and, above 127, the capital letters of Latin-1
    (192 to 222 but the multiplication sign 215) are 32 below their small
    letters. *)
Definition lower_char (c : ascii) : ascii :=
  let n := nat_of_ascii c in
  if ((Nat.leb 65 n && Nat.leb n 90)
      || (Nat.leb 192 n && Nat.leb n 222 && negb (Nat.eqb n 215)))%bool
  then ascii_of_nat (n + 32) else c.

(** [s.toLowerCase()] *)
Fixpoint toLowerCase (s : string) : string :=
  match s with
  | EmptyString => EmptyString
  | String c t => String (lower_char c) (toLowerCase t)
  end.

(** [s.includes(sub)] *)
Fixpoint includes (sub s : string) : bool :=
  (String.prefix sub s
   || match s with
      | EmptyString => false
      | String _ t => includes sub t
      end)%bool.

(** ** The data set and its edits *)

(** [deepCopyData] (lines 44-50): a copy of the five series. *)
Definition deepCopyData (d : Data) : Data := {|
  turnover := map (fun v => v) (turnover d);
  cost := map (fun v => v) (cost d);
  productivity := map (fun v => v) (productivity d);
  orders := map (fun v => v) (orders d);
  capacity := map (fun v => v) (capacity d)
|}.

(** The own property [d[category]] of a data set: one of the five
    series; [None] when the data set has no own property of the name. *)
Definition series (d : Data) (category : string) : option (list number) :=
  if String.eqb category "turnover" then Some (turnover d)
  else if String.eqb category "cost" then Some (cost d)
  else if String.eqb category "productivity" then Some (productivity d)
  else if String.eqb category "orders" then Some (orders d)
  else if String.eqb category "capacity" then Some (capacity d)
  else None.

(** The data set with the series named [category] replaced. *)
Definition with_series (d : Data) (category : string) (s : list number) : Data :=
  if String.eqb category "turnover" then
    {| turnover := s; cost := cost d; productivity := productivity d;
       orders := orders d; capacity := capacity d |}
  else if String.eqb category "cost" then
    {| turnover := turnover d; cost := s; productivity := productivity d;
       orders := orders d; capacity := capacity d |}
  else if String.eqb category "productivity" then
    {| turnover := turnover d; cost := cost d; productivity := s;
       orders := orders d; capacity := capacity d |}
  else if String.eqb category "orders" then
    {| turnover := turnover d; cost := cost d; productivity := productivity d;
       orders := s; capacity := capacity d |}
  else if String.eqb category "capacity" then
    {| turnover := turnover d; cost := cost d; productivity := productivity d;
       orders := orders d; capacity := s |}
  else d.

(** The names of the properties that the data set inherits from
    [Object.prototype]. *)
Definition inherited (category : string) : bool :=
  existsb (String.eqb category)
    ["constructor"; "__defineGetter__"; "__defineSetter__"; "hasOwnProperty";
     "__lookupGetter__"; "__lookupSetter__"; "isPrototypeOf";
     "propertyIsEnumerable"; "toString"; "valueOf"; "__proto__";
     "toLocaleString"]%string.

(** The state update of [updateValue(category, index, delta)] (lines
    178-184); [None] is the [TypeError] raised on a key that names no
    property.  On an inherited key [copy[category]] is a function or the
    prototype object: reading and writing its property [index] raises
    nothing, and the write lands outside the data set. *)
Definition updateValue (prev : Data) (category : string) (index : nat) (delta : number)
  : option Data :=
  let copy := deepCopyData prev in
  match series copy category with
  | Some s =>
      Some (with_series copy category
              (set s index (Math_max (Fin 0) (add (get s index) delta))))
  | None => if inherited category then Some copy else None
  end.

(** A sequence of value edits, stopping at the first one that raises. *)
Fixpoint apply_updates (d : Data) (updates : list (string * nat * number)) : option Data :=
  match updates with
  | [] => Some d
  | (category, index, delta) :: rest =>
      match updateValue d category index delta with
      | Some d' => apply_updates d' rest
      | None => None
      end
  end.

(** ** CSV import *)

(** [parseFloat(cells[hIdx]) || 0]; a missing cell is [undefined], which
    does not parse. *)
Definition cell_value (cells : list string) (hIdx : nat) : number :=
  or (match nth_error cells hIdx with
      | Some c => parseFloat c
      | None => NaN
      end) (Fin 0).

(** The five conditional assignments made for one header of one row
    (lines 212-217). *)
Definition store_cell (newData : Data) (rIdx : nat) (cells : list string)
  (head : string) (hIdx : nat) : Data :=
  let val := cell_value cells hIdx in
  let d1 :=
    if (includes "turnover" head || includes "sales" head)%bool
    then with_series newData "turnover" (set (turnover newData) rIdx val)
    else newData in
  let d2 :=
    if includes "cost" head
    then with_series d1 "cost" (set (cost d1) rIdx val) else d1 in
  let d3 :=
    if (includes "product" head || includes "productivity" head)%bool
    then with_series d2 "productivity" (set (productivity d2) rIdx val) else d2 in
  let d4 :=
    if includes "order" head
    then with_series d3 "orders" (set (orders d3) rIdx val) else d3 in
  if (includes "capacity" head || includes "cap" head)%bool
  then with_series d4 "capacity" (set (capacity d4) rIdx val) else d4.

(** The body of [rows.forEach] for one line. *)
Definition store_row (headers : list string) (newData : Data) (line : string)
  (rIdx : nat) : Data :=
  let cells := map trim (split_on "," line) in
  reducei (fun d head hIdx => store_cell d rIdx cells head hIdx) headers newData.

(** The non-empty trimmed lines of a text. *)
Definition lines_of (text : string) : list string :=
  filter (fun l => negb (String.eqb l EmptyString))
    (map trim (split_on "010"%char text)).

(** The data set that [reader.onload] of [handleFileUpload] (lines
    201-225) passes to [setData] for the text of a file; [None] is the
    exception caught as a parse error, the data set staying as it is. *)
Definition handleFileUpload (data : Data) (text : string) : option Data :=
  match lines_of text with
  | [] => None
  | header :: rest =>
      let headers := map (fun h => toLowerCase (trim h)) (split_on "," header) in
      let rows := firstn 12 rest in
      Some (reducei (store_row headers) rows (deepCopyData data))
  end.

(** ** The AHP handler *)

(** The matrix that [computeAHP] (lines 164-175) passes to the engine:
    [parseFloat(val) || 1] on every entry.  The entries are numbers, and
    [parseFloat] of the decimal form of a number gives the number back. *)
Definition sanitize (pairwise : matrix) : matrix :=
  map (fun row => map (fun v => or v (Fin 1)) row) pairwise.

Definition computeAHP (pairwise : matrix) : AHPResult :=
  computeAHPFromMatrix (sanitize pairwise).

(** The label of the message: [res.CR < 0.1]. *)
Definition consistent (res : AHPResult) : bool := lt (CR res) (dbl (1 # 10)).

(** ** The session state and the stored results *)

Module Results.
Record t : Type := {
  turnover : option StrategyResult;
  cost : option StrategyResult;
  productivity : option StrategyResult;
  multiObjective : option StrategyResult
}.
End Results.

Module Session.
Record t : Type := {
  data : Data;
  pairwise : matrix;
  ahp : option AHPResult;
  results : Results.t
}.
End Session.

(** [{ ...prev, [mode]: result }]; a key that is none of the four is
    never read, and the model drops it. *)
Definition store_result (prev : Results.t) (mode : string)
  (result : option StrategyResult) : Results.t :=
  if String.eqb mode "turnover" then
    {| Results.turnover := result; Results.cost := Results.cost prev;
       Results.productivity := Results.productivity prev;
       Results.multiObjective := Results.multiObjective prev |}
  else if String.eqb mode "cost" then
    {| Results.turnover := Results.turnover prev; Results.cost := result;
       Results.productivity := Results.productivity prev;
       Results.multiObjective := Results.multiObjective prev |}
  else if String.eqb mode "productivity" then
    {| Results.turnover := Results.turnover prev; Results.cost := Results.cost prev;
       Results.productivity := result;
       Results.multiObjective := Results.multiObjective prev |}
  else if String.eqb mode "multiObjective" then
    {| Results.turnover := Results.turnover prev; Results.cost := Results.cost prev;
       Results.productivity := Results.productivity prev;
       Results.multiObjective := result |}
  else prev.

(** The state after the callback of [runOptimization(mode)] (lines
    258-347): the fallback weights are stored as the AHP result when none
    was computed, and the result takes the slot of its mode. *)
Definition run (s : Session.t) (mode : string) : Session.t :=
  let ahp := Session.ahp s in
  let weights' := match ahp with Some a => weights a | None => fallback_weights end in
  {| Session.data := Session.data s;
     Session.pairwise := Session.pairwise s;
     Session.ahp :=
       match ahp with
       | Some a => Some a
       | None => Some {| weights := weights'; lambdaMax := Fin 0;
                         CI := Fin 0; CR := Fin 0 |}
       end;
     Session.results :=
       store_result (Session.results s) mode
         (runOptimization (Session.data s) ahp mode) |}.

(** ** The Pareto view *)

Module ParetoPoint.
Record t : Type := {
  id : string;
  name : string;
  x : number;
  y : number;
  z : number;
  weights : option (list number);
  improvements : option Improvements.t
}.
End ParetoPoint.

Definition million : number := Fin 1000000.

(** The point of a single-objective result. *)
Definition single_point (id name : string) (r : StrategyResult) : ParetoPoint.t :=
  {| ParetoPoint.id := id; ParetoPoint.name := name;
     ParetoPoint.x := div (turnoverVal r) million;
     ParetoPoint.y := div (costVal r) million;
     ParetoPoint.z := div (productivityVal r) million;
     ParetoPoint.weights := None; ParetoPoint.improvements := None |}.

(** The point of the multi-objective result. *)
Definition multi_point (r : StrategyResult) : ParetoPoint.t :=
  {| ParetoPoint.id := "multi"; ParetoPoint.name := "Multi-Objective (Pareto Optimal)";
     ParetoPoint.x := div (turnoverVal r) million;
     ParetoPoint.y := div (costVal r) million;
     ParetoPoint.z := div (productivityVal r) million;
     ParetoPoint.weights := res_weights r;
     ParetoPoint.improvements := improvements r |}.

(** [arr] of [paretoData] before the filter: one point per stored result,
    in the order turnover, cost, productivity, multi-objective. *)
Definition pareto_points (results : Results.t) : list ParetoPoint.t :=
  (match Results.turnover results with
   | Some r => [single_point "turnover" "Turnover Optimization" r]
   | None => []
   end)
  ++ (match Results.cost results with
      | Some r => [single_point "cost" "Cost Minimization" r]
      | None => []
      end)
  ++ (match Results.productivity results with
      | Some r => [single_point "productivity" "Productivity Maximization" r]
      | None => []
      end)
  ++ (match Results.multiObjective results with
      | Some r => [multi_point r]
      | None => []
      end).

(** The comparator [(a, b) => a.x - b.x] read by the sort: [a] goes before
    [b] when the difference is negative ([NaN] counts as zero). *)
Definition before (a b : ParetoPoint.t) : bool :=
  lt (sub (ParetoPoint.x a) (ParetoPoint.x b)) (Fin 0).

(** [Array.prototype.sort] is stable; it is modelled by the stable
    insertion sort. *)
Fixpoint insert_point (p : ParetoPoint.t) (sorted : list ParetoPoint.t)
  : list ParetoPoint.t :=
  match sorted with
  | [] => [p]
  | q :: rest => if before p q then p :: q :: rest else q :: insert_point p rest
  end.

Definition sort_points (ps : list ParetoPoint.t) : list ParetoPoint.t :=
  fold_left (fun sorted p => insert_point p sorted) ps [].

(** [paretoData] (lines 356-377). *)
Definition paretoData (results : Results.t) : list ParetoPoint.t :=
  sort_points
    (filter (fun d => negb (is_nan (ParetoPoint.x d))) (pareto_points results)).

(** ** The balance score *)

(** [r?.field || fallback] for a stored result that may be [null]; the
    [undefined] of a missing result is falsy, as [NaN] is. *)
Definition total_or (r : option StrategyResult) (field : StrategyResult -> number)
  (fallback : number) : number :=
  or (match r with Some res => field res | None => NaN end) fallback.

(** The score of one single-objective result against the totals of the
    multi-objective result (lines 397-401). *)
Definition imbalance (multi s : list number) : number :=
  if (negb (truthy (get s 0)) && negb (truthy (get s 1)) && negb (truthy (get s 2)))%bool
  then PInf
  else
    let diffs :=
      mapi (fun val i =>
              Math_abs (div (sub val (get multi i)) (or (get multi i) (Fin 1)))) s in
    div (fold_left add diffs (Fin 0)) (ofNat (length diffs)).

(** [multiBetterCheck] (lines 380-406); [None] is [null]. *)
Definition multiBetterCheck (results : Results.t) : option number :=
  match Results.multiObjective results with
  | None => None
  | Some m =>
      let multi := [or (turnoverVal m) (Fin 1); or (costVal m) (Fin 1);
                    or (productivityVal m) (Fin 1)] in
      let single r := [total_or r turnoverVal (Fin 0); total_or r costVal (Fin 0);
                       total_or r productivityVal (Fin 0)] in
      let singles := [single (Results.turnover results); single (Results.cost results);
                      single (Results.productivity results)] in
      let imbalanceScores := map (imbalance multi) singles in
      let avgImbalance :=
        div (fold_left add imbalanceScores (Fin 0)) (ofNat (length imbalanceScores)) in
      Some avgImbalance
  end.

(** * Vocabulary of the statements *)

(** ** Periods of the allocation loop *)

Section Periods.

Variables coeffs lower upper : list number.
Variable options : Options.

(** The value proposed for period [i]. *)
Definition target_at (i : nat) : number :=
  target options (get lower i) (get upper i)
    (rank_of (maxAbs_of coeffs) (get coeffs i)).

(** The allocation of period [i] when the running total is [cumulative]. *)
Definition alloc_value (i : nat) (cumulative : number) : number :=
  Math_round
    (ceil_clamp (get lower i) (get upper i) (get cumCapacity i) cumulative
       (target_at i)).

(** The allocations of the first [k] periods. *)
Fixpoint allocs (k : nat) : list number :=
  match k with
  | O => []
  | S k' => allocs k' ++ [alloc_value k' (sum (allocs k'))]
  end.

(** The rational data of period [i] (on finite inputs). *)
Definition lower_q (i : nat) : Q := val (get lower i).

Definition upper_q (i : nat) : Q := val (get upper i).

Definition cap_q (i : nat) : Q := val (get cumCapacity i).

Definition target_q (i : nat) : Q := val (target_at i).

End Periods.

(** ** Predicates on numbers *)

(** [q] is a multiple of [2^e]. *)
Definition on_grid (e : Z) (q : Q) : Prop := exists m : Z, q == inject_Z m * pow2 e.

(** The value of a double, the bound on its size apart: a multiple of
    some [2^e], [e >= -1074], by a mantissa of at most 53 bits. *)
Definition representable (q : Q) : Prop :=
  exists (m e : Z), q == inject_Z m * pow2 e /\ (Z.abs m < 2 ^ 53)%Z /\ (-1074 <= e)%Z.

Definition all_finite (xs : list number) : bool := forallb is_fin xs.

(** [x <= y] on numbers; false as soon as an operand is [NaN]. *)
Definition le (x y : number) : bool :=
  match x, y with
  | NaN, _ | _, NaN => false
  | _, _ => negb (lt y x)
  end.

(** A finite, strictly positive number. *)
Definition is_positive (x : number) : bool :=
  match x with Fin q => Qlt_bool 0 q | _ => false end.

(** A finite number with an integer value. *)
Definition is_integer (x : number) : bool :=
  match x with
  | Fin q => Qeq_bool q (inject_Z (Qfloor q))
  | _ => false
  end.

(** ** The allocation *)

(** The sum of the first [k] allocations. *)
Definition running_total (sol : list number) (k : nat) : number :=
  sum (firstn k sol).

(** The bounds of a list of periods are ordered. *)
Definition bounds_ordered (lower upper : list number) : bool :=
  forallb (fun i => le (get lower i) (get upper i)) (seq 0 12).

Definition aggressive : Options :=
  {| maximize := true; strategy := Some "aggressive"%string |}.

Definition conservative : Options :=
  {| maximize := true; strategy := Some "conservative"%string |}.

(** The test [expected > cumCapacity[i]] of period [i] in the run with the
    given options. *)
Definition ceiling_hit (coeffs lower upper : list number) (options : Options)
  (i : nat) : bool :=
  gt (add (running_total (solution (solveLPHeuristic coeffs lower upper options)) i)
          (target_at coeffs lower upper options i))
     (get cumCapacity i).

(** ** The pairwise matrix *)

(** The value an edit stores. *)
Definition stored_value (value : string) : number := or (parseFloat value) (Fin 1).

(** The inputs that keep the matrix positive: those that do not parse
    ([NaN]) and those that parse to a finite number that is not negative. *)
Definition input_ok (value : string) : bool :=
  match parseFloat value with
  | Fin q => Qle_bool 0 q
  | NaN => true
  | _ => false
  end.

Definition edit_ok (e : nat * nat * string) : Prop :=
  let '(i, j, value) := e in (i < 3)%nat /\ (j < 3)%nat /\ input_ok value = true.

(** Three rows whose nine entries are above 0 ([+Infinity] included). *)
Definition positive_3x3 (m : matrix) : Prop :=
  length m = 3%nat
  /\ forall a b, (a < 3)%nat -> (b < 3)%nat -> lt (Fin 0) (entry m a b) = true.

(** An [n] by [n] matrix, [n >= 1], of finite strictly positive numbers. *)
Definition pairwise_matrix (m : matrix) : bool :=
  (1 <=? length m)%nat
  && forallb (fun row => (length row =? length m)%nat && forallb is_positive row) m.

(** A finite number between [2^a] and [2^b]. *)
Definition between_pow2 (a b : Z) (x : number) : bool :=
  match x with
  | Fin q => Qle_bool (pow2 a) q && Qle_bool q (pow2 b)
  | _ => false
  end.

(** An [n] by [n] matrix, [1 <= n <= 2^16], of numbers between [2^-200]
    and [2^200]. *)
Definition moderate_matrix (m : matrix) : bool :=
  (1 <=? length m)%nat && (Z.of_nat (length m) <=? 2 ^ 16)%Z
  && forallb (fun row => (length row =? length m)%nat
                         && forallb (between_pow2 (-200) 200) row) m.

(** The sum of column [j] as the inner loop accumulates it. *)
Definition column_sum (m : matrix) (j : nat) : number :=
  fold_left add (map (fun i => entry m i j) (seq 0 (length m))) (Fin 0).

(** ** Rational counterparts *)

(** [Math.round] on a rational. *)
Definition roundZ (q : Q) : Z := Qfloor (q + (1 # 2)).

(** [Math.min(u, Math.max(l, t))] on rationals. *)
Definition Qclamp (l u t : Q) : Q :=
  let m := if Qlt_bool l t then t else l in
  if Qlt_bool m u then m else u.

(** [ceil_clamp] on rationals, for an integer ceiling [c] and an integer
    running total [a]: the test reads the rounded sum, the room left
    [c - a] is exact. *)
Definition Qceil_clamp (l u : Q) (c a : Z) (t : Q) : Q :=
  Qclamp l u
    (if Qlt_bool (inject_Z c) (round_fin (inject_Z a + t))
     then (if Qlt_bool l (inject_Z (c - a)) then inject_Z (c - a) else l)
     else t).

(** The ceiling of month [i] as an integer. *)
Definition cap_z (i : nat) : Z := Qfloor (cap_q i).

Definition Qsum (qs : list Q) : Q := fold_right Qplus 0 qs.

(** ** Example inputs *)

(** The data set whose order series is all zeros: every baseline is zero. *)
Definition zero_orders_data : Data := {|
  turnover := turnover DEFAULT_DATA;
  cost := cost DEFAULT_DATA;
  productivity := productivity DEFAULT_DATA;
  orders := repeat (Fin 0) 12;
  capacity := capacity DEFAULT_DATA
|}.

Definition inverted_example_coeffs : list number := map ofZ [3; -2; 5]%Z.

Definition inverted_example_lower : list number := map ofZ [10; 0; 0]%Z.

Definition inverted_example_upper : list number := map ofZ [4; 9; 9]%Z.

Definition example_edits : list (nat * nat * string) :=
  [(0%nat, 1%nat, "0.5"%string); (2%nat, 1%nat, "abc"%string);
   (1%nat, 1%nat, "0"%string); (1%nat, 2%nat, "7e-1"%string)].

Definition flat_lower : list number := repeat (ofZ 2000000) 12.

Definition unit_coeffs : list number := repeat (Fin 1) 12.

(** A first period whose bounds are both 3,000,000, above the first
    ceiling of 2,700,000. *)
Definition forced_lower : list number := ofZ 3000000 :: repeat (Fin 0) 11.

(** A first period whose bounds are both 1/2. *)
Definition half_bounds : list number := Fin (1 # 2) :: repeat (Fin 0) 11.

Definition roomy_upper : list number := repeat (ofZ 1000000) 12.

(** A cheap first period with room up to the first ceiling, then a period
    three times as valuable with a very large upper bound. *)
Definition greedy_coeffs : list number := map ofZ [1; 3; 1; 1; 1; 1; 1; 1; 1; 1; 1; 1]%Z.

Definition greedy_lower : list number := repeat (Fin 0) 12.

Definition greedy_upper : list number :=
  map ofZ [2700000; 30000000; 0; 0; 0; 0; 0; 0; 0; 0; 0; 0]%Z.

(** ** Predicates on the data set *)

(** A number that is not negative: a finite one or [+Infinity], not
    [NaN]. *)
Definition nonneg (x : number) : bool := le (Fin 0) x.

(** Twelve values, none negative. *)
Definition nonneg_series (s : list number) : bool :=
  (length s =? 12)%nat && forallb nonneg s.

Definition nonneg_data (d : Data) : bool :=
  nonneg_series (turnover d) && nonneg_series (cost d)
  && nonneg_series (productivity d) && nonneg_series (orders d)
  && nonneg_series (capacity d).

(** An edit of one of the five series, at one of the twelve months, by a
    finite amount. *)
Definition update_ok (u : string * nat * number) : Prop :=
  let '(category, index, delta) := u in
  (exists s, series DEFAULT_DATA category = Some s)
  /\ (index < 12)%nat /\ is_fin delta = true.

Definition example_updates : list (string * nat * number) :=
  [("cost"%string, 11%nat, Fin (-10)); ("cost"%string, 11%nat, Fin (-10));
   ("cost"%string, 11%nat, Fin (-10)); ("productivity"%string, 0%nat, Fin 100)].

(** ** Further predicates on matrices *)

(** An edit within the 3 by 3 grid that stores a number between [2^-200]
    and [2^200]. *)
Definition edit_moderate (e : nat * nat * string) : Prop :=
  let '(i, j, value) := e in
  (i < 3)%nat /\ (j < 3)%nat /\ between_pow2 (-200) 200 (stored_value value) = true.

(** A finite number whose reciprocal is in the normal range of the
    doubles as it is itself: [2^-1022 <= |x| <= 2^1022]. *)
Definition normal_range (x : number) : bool :=
  match x with
  | Fin q => Qle_bool (pow2 (-1022)) (Qabs q) && Qle_bool (Qabs q) (pow2 1022)
  | _ => false
  end.

(** ** Further vocabulary of the allocation *)

(** The share of the width of a period that the strategy proposes
    (lines 97-110, the factor of [(ub - lb)]). *)
Definition factor (options : Options) (rank : number) : number :=
  if negb (maximize options) then sub (Fin 1) rank
  else if strategy_is options "aggressive" then Math_pow08 rank
  else if strategy_is options "conservative" then dbl (15 # 100)
  else add (dbl (35 # 100)) (mul (Fin (1 # 2)) rank).

(** A finite number of absolute value at most [B]. *)
Definition within (B : Z) (x : number) : bool :=
  match x with
  | Fin q => Qle_bool (Qabs q) (inject_Z B)
  | _ => false
  end.

(** Bounds of a plan of moderate size: finite, at most [2^48] in absolute
    value (the ceilings of the code are below [2^25]). *)
Definition moderate (xs : list number) : bool := forallb (within (2 ^ 48)) xs.

(** The ceiling of the month before month [i] (0 before the first). *)
Definition ceiling_before (i : nat) : number :=
  match i with
  | O => Fin 0
  | S k => get cumCapacity k
  end.

Definition zero_lower : list number := repeat (Fin 0) 12.

(** ** Vocabulary of the Pareto view *)

(** [a] is not after [b] on the turnover axis. *)
Definition x_le (a b : ParetoPoint.t) : Prop :=
  le (ParetoPoint.x a) (ParetoPoint.x b) = true.

Definition has_x (d : ParetoPoint.t) : bool := negb (is_nan (ParetoPoint.x d)).

(** The turnover of the point is a double or an infinity. *)
Definition double_x (d : ParetoPoint.t) : Prop :=
  match ParetoPoint.x d with
  | Fin p => representable p
  | NaN => False
  | _ => True
  end.

(** ** Vocabulary of the CSV import *)

(** A text of white space only. *)
Fixpoint blank (s : string) : bool :=
  match s with
  | EmptyString => true
  | String c t => is_space c && blank t
  end.

(** The header cells, the data rows and the cells of a row, as
    [handleFileUpload] reads them. *)
Definition headers_of (text : string) : list string :=
  match lines_of text with
  | header :: _ => map (fun h => toLowerCase (trim h)) (split_on "," header)
  | [] => []
  end.

Definition rows_of (text : string) : list string := firstn 12 (tl (lines_of text)).

Definition cells_of (line : string) : list string := map trim (split_on "," line).

(** The header test that guards the assignment to a series. *)
Definition feeds (category head : string) : bool :=
  if String.eqb category "turnover" then includes "turnover" head || includes "sales" head
  else if String.eqb category "cost" then includes "cost" head
  else if String.eqb category "productivity" then includes "product" head
  else if String.eqb category "orders" then includes "order" head
  else if String.eqb category "capacity" then includes "cap" head
  else false.

(** The index of the last header that feeds a series, the index starting
    at [k]. *)
Definition last_feed_from (category : string) (k : nat) (headers : list string)
  (found : option nat) : option nat :=
  reducei_from (fun acc head hIdx => if feeds category head then Some hIdx else acc)
    k headers found.

Definition last_feed (category : string) (headers : list string) : option nat :=
  last_feed_from category 0 headers None.

(** One conditional assignment [if (test) newData[category][rIdx] = v]. *)
Definition assign_if (test : bool) (category : string) (rIdx : nat) (v : number)
  (d : Data) : Data :=
  if test then
    match series d category with
    | Some s => with_series d category (set s rIdx v)
    | None => d
    end
  else d.

(** Row [rIdx] of a series after one data row is stored, when [found] is
    the column that feeds the series. *)
Definition row_value (s : list number) (rIdx : nat) (cells : list string)
  (found : option nat) : list number :=
  match found with
  | Some h => set s rIdx (cell_value cells h)
  | None => s
  end.

(** The series after the rows from [k] on are stored, read from column
    [h]. *)
Definition fill_from (h : nat) (k : nat) (rows : list string) (s : list number)
  : list number :=
  reducei_from (fun s line rIdx => set s rIdx (cell_value (cells_of line) h)) k rows s.

(** Twelve values, none of them [NaN]. *)
Definition twelve_numbers (s : list number) : bool :=
  (length s =? 12)%nat && forallb (fun v => negb (is_nan v)) s.

Definition complete_data (d : Data) : bool :=
  twelve_numbers (turnover d) && twelve_numbers (cost d)
  && twelve_numbers (productivity d) && twelve_numbers (orders d)
  && twelve_numbers (capacity d).

Definition newline : string := String "010"%char EmptyString.

(** A file with a blank line, a cell that is no number, a short row and a
    column that no series reads. *)
Definition example_csv : string :=
  ("Month, Sales (k) ,Unit COST" ++ newline
   ++ "Jan, 1500 ,82.5" ++ newline
   ++ newline
   ++ "Feb,n/a" ++ newline)%string.

(** ** Vocabulary of the runs *)

(** The four modes of the buttons. *)
Definition known_mode (mode : string) : bool :=
  String.eqb mode "turnover" || String.eqb mode "cost"
  || String.eqb mode "productivity" || String.eqb mode "multiObjective".

(** [results[mode]] *)
Definition slot (results : Results.t) (mode : string) : option StrategyResult :=
  if String.eqb mode "turnover" then Results.turnover results
  else if String.eqb mode "cost" then Results.cost results
  else if String.eqb mode "productivity" then Results.productivity results
  else if String.eqb mode "multiObjective" then Results.multiObjective results
  else None.

(** The [id] of the Pareto point of a mode. *)
Definition point_id (mode : string) : string :=
  if String.eqb mode "multiObjective" then "multi"%string else mode.

(** Twelve values of moderate size (at most [2^48] in absolute value). *)
Definition moderate_series (s : list number) : bool :=
  (length s =? 12)%nat && moderate s.

Definition moderate_data (d : Data) : bool :=
  moderate_series (turnover d) && moderate_series (cost d)
  && moderate_series (productivity d) && moderate_series (orders d)
  && moderate_series (capacity d).

(** No AHP result yet, or one with three weights of moderate size. *)
Definition moderate_weights (ahp : option AHPResult) : bool :=
  match ahp with
  | Some a => (length (weights a) =? 3)%nat && moderate (weights a)
  | None => true
  end.

(** The state of the component when it is mounted (lines 143-151). *)
Definition initial_state : Session.t := {|
  Session.data := deepCopyData DEFAULT_DATA;
  Session.pairwise := DEFAULT_PAIRWISE;
  Session.ahp := None;
  Session.results := {| Results.turnover := None; Results.cost := None;
                        Results.productivity := None;
                        Results.multiObjective := None |}
|}.

(** ** Vocabulary of the balance score *)

(** The three totals of a stored result, if there is one, are finite. *)
Definition finite_totals (r : option StrategyResult) : bool :=
  match r with
  | Some res => is_fin (turnoverVal res) && is_fin (costVal res)
                && is_fin (productivityVal res)
  | None => true
  end.

(** A result is stored and one of its totals is not zero. *)
Definition has_totals (r : option StrategyResult) : bool :=
  match r with
  | Some res => truthy (turnoverVal res) || truthy (costVal res)
                || truthy (productivityVal res)
  | None => false
  end.

Definition example_result (t c p : Q) : StrategyResult :=
  {| res_solution := []; turnoverVal := Fin t; costVal := Fin c;
     productivityVal := Fin p; res_weights := None; improvements := None |}.
(** * Properties *)

(** ** The built-in functions on examples *)

Example parseFloat_examples :
  parseFloat "2.5" = Fin (5 # 2) /\
  parseFloat " -0.25e1x" = Fin (- (5 # 2)) /\
  parseFloat "abc" = NaN /\
  parseFloat "" = NaN /\
  parseFloat "." = NaN /\
  parseFloat "-Infinity" = NInf /\
  parseFloat "0.1" = Fin (3602879701896397 # 36028797018963968) /\
  parseFloat "1e-400" = Fin 0 /\
  parseFloat "1e309" = PInf.
Proof. vm_compute. repeat split. Qed.

Example toFixed2_examples :
  toFixed2 (Fin (12345 # 1000)) = "12.35"%string /\
  toFixed2 (Fin (- (1 # 1000))) = "-0.00"%string /\
  toFixed2 (Fin (5 # 100)) = "0.05"%string.
Proof. vm_compute. repeat split. Qed.

Example pow08_examples :
  Math_pow08 (Fin 1) = Fin 1 /\
  Math_pow08 (Fin 0) = Fin 0 /\
  Math_pow08 (Fin (- (1))) = NaN.
Proof. vm_compute. repeat split. Qed.

(** Sums, products and quotients are rounded as the doubles are:
    [0.1 + 0.2] is [0.30000000000000004], [49 * (1 / 49)] is
    [0.9999999999999999], [1e308 + 1e308] is [Infinity], the smallest
    double halved is 0 and [2^53 + 1] is [2^53]. *)
Example rounding_examples :
  add (dbl (1 # 10)) (dbl (2 # 10)) = Fin (1351079888211149 # 4503599627370496)
  /\ mul (Fin 49) (div (Fin 1) (Fin 49)) = Fin (9007199254740991 # 9007199254740992)
  /\ add (dbl (10 ^ 308)) (dbl (10 ^ 308)) = PInf
  /\ div (parseFloat "5e-324") (Fin 2) = Fin 0
  /\ add (ofZ (2 ^ 53)) (Fin 1) = ofZ (2 ^ 53).
Proof. vm_compute. repeat split. Qed.
(** ** Rounding to the nearest double *)

Lemma pow2_pos (e : Z) : 0 < pow2 e.
Proof. apply Qpower_0_lt. reflexivity. Qed.

Lemma pow2_add (a b : Z) : pow2 (a + b) == pow2 a * pow2 b.
Proof. apply Qpower_plus. discriminate. Qed.

Lemma pow2_opp (a : Z) : pow2 (- a) == / pow2 a.
Proof. apply Qpower_opp. Qed.

Lemma pow2_le (a b : Z) : (a <= b)%Z -> pow2 a <= pow2 b.
Proof. intros H. apply Qpower_le_compat_l; [exact H | discriminate]. Qed.

Lemma pow2_lt (a b : Z) : (a < b)%Z -> pow2 a < pow2 b.
Proof. intros H. apply Qpower_lt_compat_l; [exact H | reflexivity]. Qed.

Lemma pow2_lt_inv (a b : Z) : pow2 a < pow2 b -> (a < b)%Z.
Proof.
  intros H. destruct (Z_lt_le_dec a b) as [|Hle]; [assumption|].
  apply pow2_le in Hle. lra.
Qed.

Lemma pow2_Z (n : Z) : (0 <= n)%Z -> pow2 n == inject_Z (2 ^ n).
Proof. intros H. unfold pow2. now rewrite Zpower_Qpower. Qed.

Lemma Qfloor_bounds (x : Q) : inject_Z (Qfloor x) <= x < inject_Z (Qfloor x) + 1.
Proof.
  split; [apply Qfloor_le|].
  pose proof (Qlt_floor x) as H. rewrite inject_Z_plus in H. exact H.
Qed.

Lemma Qfloor_unique (x : Q) (z : Z) :
  inject_Z z <= x < inject_Z z + 1 -> Qfloor x = z.
Proof.
  intros [H1 H2]. pose proof (Qfloor_bounds x) as [H3 H4].
  assert (A : (z < Qfloor x + 1)%Z).
  { rewrite Zlt_Qlt, inject_Z_plus. change (inject_Z 1) with 1. lra. }
  assert (B : (Qfloor x < z + 1)%Z).
  { rewrite Zlt_Qlt, inject_Z_plus. change (inject_Z 1) with 1. lra. }
  lia.
Qed.

Lemma rne_cases (x : Q) :
  let f := Qfloor x in
  (x - inject_Z f < 1 # 2 /\ rne x = f)
  \/ (1 # 2 < x - inject_Z f /\ rne x = (f + 1)%Z)
  \/ (x - inject_Z f == 1 # 2 /\ Z.even f = true /\ rne x = f)
  \/ (x - inject_Z f == 1 # 2 /\ Z.even f = false /\ rne x = (f + 1)%Z).
Proof.
  cbv zeta. unfold rne.
  destruct (Qcompare_spec (x - inject_Z (Qfloor x)) (1 # 2)) as [H|H|H].
  - destruct (Z.even (Qfloor x)) eqn:E; [right; right; left | right; right; right]; tauto.
  - left; tauto.
  - right; left; tauto.
Qed.

Lemma rne_error (x : Q) : Qabs (inject_Z (rne x) - x) <= 1 # 2.
Proof.
  pose proof (Qfloor_bounds x) as [H1 H2].
  apply Qabs_Qle_condition.
  destruct (rne_cases x) as [[H ->]|[[H ->]|[(H & _ & ->)|(H & _ & ->)]]];
    rewrite ?inject_Z_plus; change (inject_Z 1) with 1; split; lra.
Qed.

Lemma rne_mono (x y : Q) : x <= y -> (rne x <= rne y)%Z.
Proof.
  intros Hxy.
  assert (Hf : (Qfloor x <= Qfloor y)%Z) by now apply Qfloor_resp_le.
  pose proof (Qfloor_bounds x) as [X1 X2]. pose proof (Qfloor_bounds y) as [Y1 Y2].
  destruct (Z.eq_dec (Qfloor x) (Qfloor y)) as [E|E].
  - destruct (rne_cases x) as [[H ->]|[[H ->]|[(H & Ev & ->)|(H & Ev & ->)]]];
      destruct (rne_cases y) as [[H' ->]|[[H' ->]|[(H' & Ev' & ->)|(H' & Ev' & ->)]]];
      rewrite <- ?E in *; try lia; try congruence; exfalso; lra.
  - assert (Hlt : (Qfloor x + 1 <= Qfloor y)%Z) by lia.
    assert (A : (rne x <= Qfloor x + 1)%Z).
    { destruct (rne_cases x) as [[H ->]|[[H ->]|[(H & Ev & ->)|(H & Ev & ->)]]]; lia. }
    assert (B : (Qfloor y <= rne y)%Z).
    { destruct (rne_cases y) as [[H ->]|[[H ->]|[(H & Ev & ->)|(H & Ev & ->)]]]; lia. }
    lia.
Qed.

Lemma rne_Z (x : Q) (z : Z) : x == inject_Z z -> rne x = z.
Proof.
  intros H.
  assert (F : Qfloor x = z).
  { apply Qfloor_unique. rewrite H. split; lra. }
  destruct (rne_cases x) as [[H' ->]|[[H' ->]|[(H' & Ev & ->)|(H' & Ev & ->)]]];
    rewrite ?F in *; try reflexivity; exfalso; lra.
Qed.

#[global] Instance rne_compat : Proper (Qeq ==> eq) rne.
Proof.
  intros x y H. unfold rne. rewrite (Qfloor_comp _ _ H).
  assert (E : Qcompare (x - inject_Z (Qfloor y)) (1 # 2)
              = Qcompare (y - inject_Z (Qfloor y)) (1 # 2)) by now rewrite H.
  now rewrite E.
Qed.

Lemma rne_opp (x : Q) : rne (- x) = (- rne x)%Z.
Proof.
  pose proof (Qfloor_bounds x) as [X1 X2].
  destruct (Qeq_dec x (inject_Z (Qfloor x))) as [E|E].
  - rewrite (rne_Z x _ E). apply rne_Z. rewrite inject_Z_opp. now rewrite <- E.
  - assert (F : Qfloor (- x) = (- Qfloor x - 1)%Z).
    { apply Qfloor_unique. unfold Z.sub. rewrite inject_Z_plus, !inject_Z_opp.
      change (inject_Z 1) with 1. split; [lra|].
      assert (inject_Z (Qfloor x) < x) by (apply Qle_lteq in X1; tauto || (destruct X1; [assumption|exfalso; apply E; symmetry; assumption])).
      lra. }
    pose proof (rne_cases (- x)) as C. cbv zeta in C. rewrite F in C.
    unfold Z.sub in C. rewrite inject_Z_plus, !inject_Z_opp in C.
    change (inject_Z 1) with 1 in C.
    assert (Ev : Z.even (- Qfloor x + - (1)) = negb (Z.even (Qfloor x))).
    { rewrite Z.even_add, Z.even_opp. cbn. now destruct (Z.even (Qfloor x)). }
    rewrite Ev in C.
    destruct (rne_cases x) as [[H ->]|[[H ->]|[(H & Ev' & ->)|(H & Ev' & ->)]]];
      destruct C as [[H' ->]|[[H' ->]|[(H' & Ev'' & ->)|(H' & Ev'' & ->)]]];
      try lia; try (exfalso; lra);
      rewrite Ev' in Ev''; discriminate.
Qed.

Lemma Qabs_num_den (q : Q) : Qabs q == inject_Z (Z.abs (Qnum q)) / inject_Z (Zpos (Qden q)).
Proof.
  destruct q as [n d]. unfold Qabs. cbn [Qnum Qden].
  rewrite (Qmake_Qdiv (Z.abs n) d). reflexivity.
Qed.

Lemma log2_bounds (n : Z) : (0 < n)%Z ->
  pow2 (Z.log2 n) <= inject_Z n < pow2 (Z.log2 n + 1).
Proof.
  intros Hn. pose proof (Z.log2_spec n Hn) as [H1 H2].
  pose proof (Z.log2_nonneg n) as H0.
  rewrite !pow2_Z by lia. rewrite <- Zle_Qle, <- Zlt_Qlt.
  replace (Z.log2 n + 1)%Z with (Z.succ (Z.log2 n)) by lia. tauto.
Qed.

Lemma mag_spec (q : Q) : ~ q == 0 -> pow2 (mag q) <= Qabs q < pow2 (mag q + 1).
Proof.
  intros Hq. unfold mag.
  set (n := Z.abs (Qnum q)). set (d := Zpos (Qden q)).
  assert (Hn : (0 < n)%Z).
  { unfold n. destruct q as [[|p|p] dd]; cbn; try lia. exfalso. apply Hq. reflexivity. }
  assert (Hd : (0 < d)%Z) by (unfold d; lia).
  pose proof (log2_bounds n Hn) as [N1 N2].
  pose proof (log2_bounds d Hd) as [D1 D2].
  assert (Habs : Qabs q == inject_Z n / inject_Z d) by apply Qabs_num_den.
  assert (Hdpos : 0 < inject_Z d) by (rewrite <- (Zlt_Qlt 0); exact Hd).
  set (k := (Z.log2 n - Z.log2 d)%Z).
  assert (K1 : pow2 (Z.log2 n) == pow2 k * pow2 (Z.log2 d)).
  { rewrite <- pow2_add. unfold k. now replace (Z.log2 n - Z.log2 d + Z.log2 d)%Z with (Z.log2 n) by lia. }
  assert (K2 : pow2 (Z.log2 n + 1) == pow2 (k + 1) * pow2 (Z.log2 d)).
  { rewrite <- pow2_add. unfold k. now replace (Z.log2 n - Z.log2 d + 1 + Z.log2 d)%Z with (Z.log2 n + 1)%Z by lia. }
  assert (K3 : pow2 (Z.log2 d + 1) == 2 * pow2 (Z.log2 d)).
  { rewrite pow2_add. change (pow2 1) with 2. ring. }
  assert (K4 : pow2 k == 2 * pow2 (k - 1)).
  { replace k with (1 + (k - 1))%Z at 1 by lia. rewrite pow2_add. reflexivity. }
  pose proof (pow2_pos k) as Pk. pose proof (pow2_pos (k - 1)) as Pk1.
  pose proof (pow2_pos (k + 1)) as Pk2. pose proof (pow2_pos (Z.log2 d)) as Pd.
  assert (Up : Qabs q < pow2 (k + 1)).
  { rewrite Habs. apply Qlt_shift_div_r; [exact Hdpos|].
    apply Qlt_le_trans with (pow2 (Z.log2 n + 1)); [exact N2|].
    rewrite K2. apply Qmult_le_l; [exact Pk2 | exact D1]. }
  assert (Lo : pow2 (k - 1) <= Qabs q).
  { rewrite Habs. apply Qle_shift_div_l; [exact Hdpos|].
    apply Qle_trans with (pow2 (Z.log2 n)); [|exact N1].
    rewrite K1, K4.
    setoid_replace (2 * pow2 (k - 1) * pow2 (Z.log2 d))
      with (pow2 (k - 1) * (2 * pow2 (Z.log2 d))) by ring.
    apply Qmult_le_l; [exact Pk1|]. rewrite <- K3. apply Qlt_le_weak, D2. }
  destruct (Qle_bool (pow2 k) (Qabs q)) eqn:E.
  - apply Qle_bool_iff in E. split; [exact E | exact Up].
  - split; [exact Lo|].
    replace (k - 1 + 1)%Z with k by lia.
    apply Qnot_le_lt. intros H. apply Qle_bool_iff in H. congruence.
Qed.

Lemma mag_unique (q : Q) (k : Z) : pow2 k <= Qabs q < pow2 (k + 1) -> mag q = k.
Proof.
  intros [H1 H2].
  assert (Hq : ~ q == 0).
  { intros E. rewrite E in H1. pose proof (pow2_pos k). cbn in H1. lra. }
  destruct (mag_spec q Hq) as [M1 M2].
  assert (A : (k < mag q + 1)%Z) by (apply pow2_lt_inv; lra).
  assert (B : (mag q < k + 1)%Z) by (apply pow2_lt_inv; lra).
  lia.
Qed.

Lemma mag_le (p q : Q) : ~ p == 0 -> Qabs p <= Qabs q -> (mag p <= mag q)%Z.
Proof.
  intros Hp Hpq.
  assert (Hq : ~ q == 0).
  { intros E. apply Hp.
    assert (Z0 : Qabs q == 0) by (rewrite E; reflexivity).
    rewrite Z0 in Hpq. apply Qabs_Qle_condition in Hpq. lra. }
  destruct (mag_spec p Hp) as [P1 P2]. destruct (mag_spec q Hq) as [Q1 Q2].
  assert (A : (mag p < mag q + 1)%Z) by (apply pow2_lt_inv; lra).
  lia.
Qed.

Lemma mag_compat (x y : Q) : ~ x == 0 -> x == y -> mag x = mag y.
Proof.
  intros Hx H. symmetry. apply mag_unique.
  assert (A : Qabs y == Qabs x) by (now apply Qabs_wd).
  destruct (mag_spec x Hx). lra.
Qed.

Lemma round_fin_0 (q : Q) : q == 0 -> round_fin q = 0.
Proof. intros H. unfold round_fin. apply Qeq_bool_iff in H. now rewrite H. Qed.

Lemma round_fin_nz (q : Q) : ~ q == 0 ->
  round_fin q = inject_Z (rne (q * pow2 (- cexp q))) * pow2 (cexp q).
Proof.
  intros H. unfold round_fin.
  destruct (Qeq_bool q 0) eqn:E; [|reflexivity].
  apply Qeq_bool_iff in E. contradiction.
Qed.

Lemma round_fin_compat (x y : Q) : x == y -> round_fin x == round_fin y.
Proof.
  intros H. destruct (Qeq_dec x 0) as [E|E].
  - rewrite (round_fin_0 x E), (round_fin_0 y); [reflexivity | now rewrite <- H].
  - assert (Ey : ~ y == 0) by now rewrite <- H.
    rewrite (round_fin_nz x E), (round_fin_nz y Ey).
    unfold cexp. rewrite (mag_compat x y E H). now rewrite H.
Qed.

Lemma round_fin_opp (q : Q) : round_fin (- q) == - round_fin q.
Proof.
  destruct (Qeq_dec q 0) as [E|E].
  - rewrite (round_fin_0 q E), (round_fin_0 (- q)); [reflexivity | lra].
  - assert (E' : ~ - q == 0) by (intros H; apply E; lra).
    rewrite (round_fin_nz q E), (round_fin_nz _ E').
    assert (M : mag (- q) = mag q).
    { apply mag_unique. rewrite Qabs_opp. now apply mag_spec. }
    unfold cexp. rewrite M.
    setoid_replace (- q * pow2 (- Z.max (mag q - 52) (-1074)))
      with (- (q * pow2 (- Z.max (mag q - 52) (-1074)))) by ring.
    rewrite rne_opp, inject_Z_opp. ring.
Qed.

Lemma rne_nonneg (x : Q) : 0 <= x -> (0 <= rne x)%Z.
Proof.
  intros H. rewrite <- (rne_Z 0 0%Z) by reflexivity. now apply rne_mono.
Qed.

Lemma round_fin_nonneg (q : Q) : 0 <= q -> 0 <= round_fin q.
Proof.
  intros H. destruct (Qeq_dec q 0) as [E|E]; [rewrite (round_fin_0 q E); lra|].
  rewrite (round_fin_nz q E). pose proof (pow2_pos (cexp q)) as P.
  pose proof (pow2_pos (- cexp q)) as P'.
  apply Qmult_le_0_compat; [|lra].
  change 0 with (inject_Z 0). rewrite <- Zle_Qle.
  apply rne_nonneg. apply Qmult_le_0_compat; lra.
Qed.

Lemma round_fin_grid (q : Q) : ~ q == 0 -> on_grid (cexp q) q -> round_fin q == q.
Proof.
  intros E [m Hm]. rewrite (round_fin_nz q E).
  set (c := cexp q) in *. clearbody c.
  rewrite (rne_Z _ m).
  - symmetry. exact Hm.
  - rewrite Hm. rewrite <- Qmult_assoc, <- pow2_add.
    replace (c + - c)%Z with 0%Z by lia. change (pow2 0) with 1. ring.
Qed.

Lemma on_grid_le (e e' : Z) (q : Q) : (e' <= e)%Z -> on_grid e q -> on_grid e' q.
Proof.
  intros H [m Hm]. exists (m * 2 ^ (e - e'))%Z.
  rewrite Hm, inject_Z_mult, <- pow2_Z by lia.
  rewrite <- Qmult_assoc, <- pow2_add. now replace (e - e' + e')%Z with e by lia.
Qed.

Lemma Qabs_scaled (m e : Z) : Qabs (inject_Z m * pow2 e) == inject_Z (Z.abs m) * pow2 e.
Proof.
  rewrite Qabs_Qmult. rewrite (Qabs_pos (pow2 e)) by (apply Qlt_le_weak, pow2_pos).
  apply Qmult_comp; [|reflexivity]. symmetry. apply (Zabs_Qabs m 1).
Qed.

Lemma round_fin_exact (q : Q) : representable q -> round_fin q == q.
Proof.
  intros (m & e & Hq & Hm & He).
  destruct (Qeq_dec q 0) as [E|E]; [rewrite (round_fin_0 q E); lra|].
  apply (round_fin_grid q E). apply on_grid_le with e; [|now exists m].
  unfold cexp. destruct (mag_spec q E) as [M1 M2].
  assert (A : Qabs q < pow2 (e + 53)).
  { rewrite Hq, Qabs_scaled, Z.add_comm, pow2_add, (pow2_Z 53) by lia.
    apply Qmult_lt_compat_r; [apply pow2_pos|].
    now rewrite <- Zlt_Qlt. }
  assert (B : (mag q < e + 53)%Z) by (apply pow2_lt_inv; lra).
  lia.
Qed.

Lemma scaled_mantissa_lt (q : Q) : ~ q == 0 ->
  Qabs q * pow2 (- cexp q) < pow2 53.
Proof.
  intros E. destruct (mag_spec q E) as [_ M2].
  apply Qlt_le_trans with (pow2 (mag q + 1) * pow2 (- cexp q)).
  - apply Qmult_lt_compat_r; [apply pow2_pos | exact M2].
  - rewrite <- pow2_add. apply pow2_le. unfold cexp. lia.
Qed.

Lemma scaled_mantissa_ge (q : Q) : ~ q == 0 -> (-1074 < cexp q)%Z ->
  pow2 52 <= Qabs q * pow2 (- cexp q).
Proof.
  intros E Hn. destruct (mag_spec q E) as [M1 _].
  apply Qle_trans with (pow2 (mag q) * pow2 (- cexp q)).
  - rewrite <- pow2_add. apply pow2_le. unfold cexp in *. lia.
  - apply Qmult_le_compat_r; [exact M1 | apply Qlt_le_weak, pow2_pos].
Qed.

Lemma rne_pow2 (n : Z) : (0 <= n)%Z -> rne (pow2 n) = (2 ^ n)%Z.
Proof. intros H. apply rne_Z. now apply pow2_Z. Qed.

Lemma round_fin_pos_upper (q : Q) : 0 < q -> round_fin q <= pow2 (cexp q + 53).
Proof.
  intros Hq. assert (E : ~ q == 0) by lra.
  rewrite (round_fin_nz q E).
  pose proof (scaled_mantissa_lt q E) as H. rewrite (Qabs_pos q) in H by lra.
  rewrite Z.add_comm, pow2_add.
  apply Qmult_le_compat_r; [|apply Qlt_le_weak, pow2_pos].
  rewrite (pow2_Z 53) by lia. rewrite <- Zle_Qle.
  rewrite <- (rne_pow2 53) by lia. apply rne_mono. lra.
Qed.

Lemma round_fin_pos_lower (q : Q) : 0 < q -> (-1074 < cexp q)%Z ->
  pow2 (cexp q + 52) <= round_fin q.
Proof.
  intros Hq Hn. assert (E : ~ q == 0) by lra.
  rewrite (round_fin_nz q E).
  pose proof (scaled_mantissa_ge q E Hn) as H. rewrite (Qabs_pos q) in H by lra.
  rewrite Z.add_comm, pow2_add.
  apply Qmult_le_compat_r; [|apply Qlt_le_weak, pow2_pos].
  rewrite (pow2_Z 52) by lia. rewrite <- Zle_Qle.
  rewrite <- (rne_pow2 52) by lia. now apply rne_mono.
Qed.

Lemma round_fin_mono_pos (p q : Q) : 0 < p -> p <= q -> round_fin p <= round_fin q.
Proof.
  intros Hp Hpq. assert (Ep : ~ p == 0) by lra. assert (Eq : ~ q == 0) by lra.
  assert (Hm : (mag p <= mag q)%Z).
  { apply mag_le; [exact Ep|]. rewrite !Qabs_pos by lra. exact Hpq. }
  assert (Hc : (cexp p <= cexp q)%Z) by (unfold cexp; lia).
  destruct (Z.eq_dec (cexp p) (cexp q)) as [Ec|Ec].
  - rewrite (round_fin_nz p Ep), (round_fin_nz q Eq), Ec.
    apply Qmult_le_compat_r; [|apply Qlt_le_weak, pow2_pos].
    rewrite <- Zle_Qle. apply rne_mono.
    apply Qmult_le_compat_r; [exact Hpq | apply Qlt_le_weak, pow2_pos].
  - apply Qle_trans with (pow2 (cexp p + 53)); [now apply round_fin_pos_upper|].
    apply Qle_trans with (pow2 (cexp q + 52)).
    + apply pow2_le. lia.
    + apply round_fin_pos_lower; [lra|]. unfold cexp in *. lia.
Qed.

Theorem round_fin_mono (p q : Q) : p <= q -> round_fin p <= round_fin q.
Proof.
  intros Hpq.
  destruct (Qlt_le_dec 0 p) as [Hp|Hp]; [now apply round_fin_mono_pos|].
  destruct (Qlt_le_dec q 0) as [Hq|Hq].
  - assert (H : round_fin (- q) <= round_fin (- p))
      by (apply round_fin_mono_pos; lra).
    rewrite !round_fin_opp in H. lra.
  - assert (A : 0 <= round_fin q) by now apply round_fin_nonneg.
    assert (B : 0 <= round_fin (- p)) by (apply round_fin_nonneg; lra).
    rewrite round_fin_opp in B. lra.
Qed.

(** The error of the rounding is at most half a unit of the last place. *)
Lemma round_fin_error (q : Q) : Qabs (round_fin q - q) <= pow2 (cexp q - 1).
Proof.
  destruct (Qeq_dec q 0) as [E|E].
  - rewrite (round_fin_0 q E).
    setoid_replace (0 - q) with 0 by lra. cbn. apply Qlt_le_weak, pow2_pos.
  - rewrite (round_fin_nz q E). set (c := cexp q). set (x := q * pow2 (- c)).
    assert (Hq : q == x * pow2 c).
    { unfold x. rewrite <- Qmult_assoc, <- pow2_add.
      replace (- c + c)%Z with 0%Z by lia. change (pow2 0) with 1. ring. }
    clearbody x. clearbody c. rewrite Hq.
    setoid_replace (inject_Z (rne x) * pow2 c - x * pow2 c)
      with ((inject_Z (rne x) - x) * pow2 c) by ring.
    rewrite Qabs_Qmult, (Qabs_pos (pow2 c)) by (apply Qlt_le_weak, pow2_pos).
    replace (c - 1)%Z with (-1 + c)%Z by lia. rewrite pow2_add.
    apply Qmult_le_compat_r; [|apply Qlt_le_weak, pow2_pos].
    change (pow2 (-1)) with (1 # 2). apply rne_error.
Qed.

(** The result of the rounding is a double, up to the bound on the
    exponent. *)
Lemma round_fin_representable (q : Q) : representable (round_fin q).
Proof.
  destruct (Qeq_dec q 0) as [E|E].
  - rewrite (round_fin_0 q E). exists 0%Z, 0%Z. repeat split; lia.
  - rewrite (round_fin_nz q E). set (c := cexp q). set (m := rne (q * pow2 (- c))).
    assert (Hm : (Z.abs m <= 2 ^ 53)%Z).
    { pose proof (scaled_mantissa_lt q E) as H. fold c in H.
      assert (A : - pow2 53 <= q * pow2 (- c) <= pow2 53).
      { apply Qabs_Qle_condition. rewrite Qabs_Qmult.
        rewrite (Qabs_pos (pow2 (- c))) by (apply Qlt_le_weak, pow2_pos). lra. }
      destruct A as [A1 A2].
      apply rne_mono in A1. apply rne_mono in A2. fold m in A1, A2.
      rewrite rne_opp in A1. rewrite rne_pow2 in A1, A2 by lia. lia. }
    assert (Hc : (-1074 <= c)%Z) by (unfold c, cexp; lia).
    destruct (Z.eq_dec (Z.abs m) (2 ^ 53)) as [Em|Em].
    + exists (m / 2)%Z, (c + 1)%Z. split; [|split; [|lia]].
      * rewrite Z.add_comm, pow2_add. change (pow2 1) with 2.
        assert (D : m = (2 * (m / 2))%Z).
        { apply Z.div_exact; [lia|].
          destruct (Z.abs_eq_or_opp m) as [A|A]; rewrite A in Em.
          - rewrite Em. reflexivity.
          - assert (m = (- 2 ^ 53)%Z) by lia. subst m. rewrite H. reflexivity. }
        rewrite D at 1. rewrite inject_Z_mult. change (inject_Z 2) with 2. ring.
      * destruct (Z.abs_eq_or_opp m) as [A|A]; rewrite A in Em.
        -- rewrite Em. reflexivity.
        -- assert (B : m = (- 2 ^ 53)%Z) by lia. rewrite B. reflexivity.
    + exists m, c. split; [reflexivity|]. split; [lia | exact Hc].
Qed.
(** ** Arrays and loops *)

Lemma get_set_same (a : list number) (i : nat) (v : number) :
  get (set a i v) i = v.
Proof.
  unfold get. revert a. induction i as [|i IH]; intros [|h t]; simpl; auto.
Qed.

Lemma get_set_other (a : list number) (i j : nat) (v : number) :
  i <> j -> get (set a i v) j = get a j.
Proof.
  unfold get. revert a j.
  induction i as [|i IH]; intros [|h t] [|j] Hij; simpl; try congruence.
  - now destruct j.
  - rewrite IH by congruence. now destruct j.
  - apply IH. congruence.
Qed.

Lemma length_set (a : list number) (i : nat) (v : number) :
  (i < length a)%nat -> length (set a i v) = length a.
Proof.
  revert a. induction i as [|i IH]; intros [|h t] Hi; simpl in *; try lia.
  rewrite IH; lia.
Qed.

Lemma set_app_at (a t : list number) (x v : number) (k : nat) :
  length a = k -> set (a ++ x :: t) k v = a ++ v :: t.
Proof.
  intros <-. induction a as [|h a IH]; simpl; [reflexivity | now rewrite IH].
Qed.

Lemma get_app_at (a t : list number) (x : number) (k : nat) :
  length a = k -> get (a ++ x :: t) k = x.
Proof. intros <-. unfold get. now rewrite nth_middle. Qed.

Lemma get_app_lt (a b : list number) (i : nat) :
  (i < length a)%nat -> get (a ++ b) i = get a i.
Proof. intros H. unfold get. now rewrite app_nth1. Qed.

Lemma for_loop_S {S : Type} (n : nat) (body : S -> nat -> S) (init : S) :
  for_loop (Datatypes.S n) body init = body (for_loop n body init) n.
Proof. unfold for_loop. now rewrite seq_S, fold_left_app. Qed.

Lemma for_loop_ext {S : Type} (n : nat) (f g : S -> nat -> S) (init : S) :
  (forall s i, f s i = g s i) -> for_loop n f init = for_loop n g init.
Proof.
  intros H. induction n as [|n IH]; [reflexivity|].
  now rewrite !for_loop_S, IH, H.
Qed.

Lemma sum_snoc (xs : list number) (x : number) :
  sum (xs ++ [x]) = add (sum xs) x.
Proof. unfold sum. now rewrite fold_left_app. Qed.
(** ** The allocation loop, period by period *)

Section Allocation.

Variables coeffs lower upper : list number.
Variable options : Options.

Lemma length_allocs (k : nat) :
  length (allocs coeffs lower upper options k) = k.
Proof. induction k; simpl; [reflexivity|]. rewrite length_app; simpl; lia. Qed.

Lemma loop_state (k : nat) :
  (k <= length coeffs)%nat ->
  for_loop k (period_step coeffs lower upper options (maxAbs_of coeffs))
    (repeat (Fin 0) (length coeffs), Fin 0)
  = (allocs coeffs lower upper options k ++ repeat (Fin 0) (length coeffs - k),
     sum (allocs coeffs lower upper options k)).
Proof.
  induction k as [|k IH]; intros Hk.
  - simpl. now rewrite Nat.sub_0_r.
  - rewrite for_loop_S, IH by lia. unfold period_step.
    replace (length coeffs - k)%nat with (S (length coeffs - S k)) by lia.
    cbn [repeat].
    rewrite (set_app_at _ _ _ _ k), (get_app_at _ _ _ k)
      by apply length_allocs.
    fold (target_at coeffs lower upper options k).
    fold (alloc_value coeffs lower upper options k
            (sum (allocs coeffs lower upper options k))).
    cbn [allocs]. rewrite sum_snoc, <- app_assoc. reflexivity.
Qed.

Lemma solution_allocs :
  solution (solveLPHeuristic coeffs lower upper options)
  = allocs coeffs lower upper options (length coeffs).
Proof.
  unfold solveLPHeuristic. rewrite loop_state by lia.
  rewrite Nat.sub_diag. cbn [repeat solution]. apply app_nil_r.
Qed.

Lemma objective_allocs :
  objective (solveLPHeuristic coeffs lower upper options)
  = dot coeffs (allocs coeffs lower upper options (length coeffs)).
Proof.
  unfold solveLPHeuristic. rewrite loop_state by lia.
  rewrite Nat.sub_diag. cbn [repeat objective]. now rewrite app_nil_r.
Qed.

End Allocation.
(** ** Minimizing ignores the strategy *)

Lemma solveLPHeuristic_target_ext (coeffs lower upper : list number) (o1 o2 : Options) :
  (forall lb ub rank, target o1 lb ub rank = target o2 lb ub rank) ->
  solveLPHeuristic coeffs lower upper o1 = solveLPHeuristic coeffs lower upper o2.
Proof.
  intros H. unfold solveLPHeuristic.
  rewrite (for_loop_ext _ (period_step coeffs lower upper o1 (maxAbs_of coeffs))
             (period_step coeffs lower upper o2 (maxAbs_of coeffs))).
  - reflexivity.
  - intros [sol cum] i. unfold period_step. now rewrite H.
Qed.

(** C4: with [maximize] false the value proposed for a period is
    [lower_i + (upper_i - lower_i) * (1 - r_i)] whatever the strategy, and
    any two strategies (in particular aggressive, conservative and balanced)
    give the same allocation and the same objective value. *)
Theorem minimize_ignores_strategy
  (coeffs lower upper : list number) (s1 s2 : option string) :
  (forall i,
      target_at coeffs lower upper {| maximize := false; strategy := s1 |} i
      = add (get lower i)
          (mul (sub (get upper i) (get lower i))
               (sub (Fin 1) (rank_of (maxAbs_of coeffs) (get coeffs i)))))
  /\ solveLPHeuristic coeffs lower upper {| maximize := false; strategy := s1 |}
     = solveLPHeuristic coeffs lower upper {| maximize := false; strategy := s2 |}.
Proof.
  split.
  - intros i. reflexivity.
  - apply solveLPHeuristic_target_ext. intros lb ub rank. reflexivity.
Qed.
(** ** The consistency index of a single criterion *)

Lemma div_by_zero_not_finite (x : number) (b : Q) :
  b == 0 -> is_fin (div x (Fin b)) = false.
Proof.
  intros Hb. apply Qeq_bool_iff in Hb.
  destruct x as [a| | |]; unfold div; rewrite ?Hb.
  - destruct (sgn (Fin a)) as [[|]|]; reflexivity.
  - cbn [sgn]. destruct (Bool.eqb true (negb (Qlt_bool b 0))); reflexivity.
  - cbn [sgn]. destruct (Bool.eqb false (negb (Qlt_bool b 0))); reflexivity.
  - reflexivity.
Qed.

(** For a matrix of one row the index is never a finite number, whatever
    the row holds: its denominator [n - 1] is zero. *)
Lemma CI_single_row_not_finite (row : list number) :
  is_fin (CI (computeAHPFromMatrix [row])) = false.
Proof.
  unfold computeAHPFromMatrix. cbn [CI length].
  apply div_by_zero_not_finite. reflexivity.
Qed.

(** C6: on the 1x1 matrix [[1]] the consistency index is [NaN] (0/0), not
    0; on [[2]] it is [+Infinity]. *)
Theorem CI_of_1x1_matrix :
  CI (computeAHPFromMatrix [[Fin 1]]) = NaN
  /\ CI (computeAHPFromMatrix [[Fin 2]]) = PInf
  /\ CR (computeAHPFromMatrix [[Fin 1]]) = Fin 0.
Proof. vm_compute. repeat split. Qed.
(** ** Improvement percentages on a zero baseline *)

Lemma eqv_zero_falsy (x : number) : eqv x (Fin 0) -> truthy x = false.
Proof.
  destruct x as [q| | |]; simpl; try tauto.
  intros H. apply Qeq_bool_iff in H. now rewrite H.
Qed.

(** C8: in the multi-objective strategy, a baseline total that is zero
    makes the improvement of its metric the string "0.00", for each of
    turnover, cost and productivity. *)
Theorem zero_baseline_improvement (data : Data) (ahp : option AHPResult) :
  exists r imp,
    runOptimization data ahp "multiObjective" = Some r
    /\ improvements r = Some imp
    /\ (eqv (baselineZ1 data) (Fin 0) -> Improvements.turnover imp = "0.00"%string)
    /\ (eqv (baselineZ2 data) (Fin 0) -> Improvements.cost imp = "0.00"%string)
    /\ (eqv (baselineZ3 data) (Fin 0) -> Improvements.productivity imp = "0.00"%string).
Proof.
  unfold runOptimization.
  change (String.eqb "multiObjective" "turnover") with false.
  change (String.eqb "multiObjective" "cost") with false.
  change (String.eqb "multiObjective" "productivity") with false.
  change (String.eqb "multiObjective" "multiObjective") with true.
  cbv iota zeta.
  eexists. eexists. split; [reflexivity|]. split; [reflexivity|].
  cbn [Improvements.turnover Improvements.cost Improvements.productivity].
  repeat split; intros H; apply eqv_zero_falsy in H; now rewrite H.
Qed.

Lemma zero_baseline_improvement_witness :
  match runOptimization zero_orders_data None "multiObjective" with
  | Some r => improvements r
  | None => None
  end
  = Some {| Improvements.turnover := "0.00";
            Improvements.cost := "0.00";
            Improvements.productivity := "0.00" |}.
Proof.
  destruct (zero_baseline_improvement zero_orders_data None)
    as (r & [t c p] & Hr & Himp & H1 & H2 & H3).
  rewrite Hr, Himp. cbn [Improvements.turnover Improvements.cost
                          Improvements.productivity] in H1, H2, H3.
  rewrite H1, H2, H3; [reflexivity | | |]; vm_compute; reflexivity.
Defined.
(** ** Finite numbers *)

Lemma Qlt_bool_true (a b : Q) : Qlt_bool a b = true <-> a < b.
Proof.
  unfold Qlt_bool. rewrite negb_true_iff. split; intros H.
  - apply Qnot_le_lt. intros Hle. apply Qle_bool_iff in Hle. congruence.
  - destruct (Qle_bool b a) eqn:E; [|reflexivity].
    apply Qle_bool_iff in E. lra.
Qed.

Lemma Qlt_bool_false (a b : Q) : Qlt_bool a b = false <-> b <= a.
Proof.
  unfold Qlt_bool. rewrite negb_false_iff. apply Qle_bool_iff.
Qed.

Lemma Qeq_bool_false (a b : Q) : Qeq_bool a b = false <-> ~ a == b.
Proof.
  split; [apply Qeq_bool_neq|].
  intros H. destruct (Qeq_bool a b) eqn:E; [|reflexivity].
  apply Qeq_bool_iff in E. contradiction.
Qed.

(** Turns the boolean tests on rationals in the context into
    propositions, for [lra]. *)
Ltac qprop :=
  repeat match goal with
    | H : Qlt_bool _ _ = true |- _ => apply Qlt_bool_true in H
    | H : Qlt_bool _ _ = false |- _ => apply Qlt_bool_false in H
    | H : Qle_bool _ _ = true |- _ => apply Qle_bool_iff in H
    | H : Qeq_bool _ _ = true |- _ => apply Qeq_bool_iff in H
    | H : Qeq_bool _ _ = false |- _ => apply Qeq_bool_false in H
    end.

(** Succeeds on a term that holds no boolean test on rationals. *)
Ltac no_test t :=
  lazymatch t with
  | context [Qlt_bool _ _] => fail
  | context [Qeq_bool _ _] => fail
  | _ => idtac
  end.

(** Splits on the boolean tests on rationals that the goal branches on,
    innermost first. *)
Ltac qcases :=
  repeat match goal with
    | |- context [Qlt_bool ?a ?b] =>
        no_test a; no_test b; destruct (Qlt_bool a b) eqn:?
    | |- context [Qeq_bool ?a ?b] =>
        no_test a; no_test b; destruct (Qeq_bool a b) eqn:?
    end.

Lemma is_fin_inv (x : number) : is_fin x = true -> x = Fin (val x).
Proof. destruct x; simpl; congruence. Qed.

Lemma all_finite_inv (xs : list number) :
  all_finite xs = true -> xs = map Fin (map val xs).
Proof.
  induction xs as [|x xs IH]; simpl; [reflexivity|].
  rewrite andb_true_iff. intros [Hx Hxs].
  now rewrite <- IH, <- is_fin_inv.
Qed.

Lemma all_finite_get (xs : list number) (i : nat) :
  all_finite xs = true -> (i < length xs)%nat -> is_fin (get xs i) = true.
Proof.
  unfold all_finite, get. rewrite forallb_forall. intros H Hi.
  apply H, nth_In, Hi.
Qed.

Lemma get_map_Fin (qs : list Q) (i : nat) :
  (i < length qs)%nat -> get (map Fin qs) i = Fin (nth i qs 0).
Proof.
  intros Hi. unfold get.
  rewrite (nth_indep _ NaN (Fin 0)) by now rewrite length_map.
  apply (map_nth Fin).
Qed.
(** ** Rounded arithmetic on numbers *)

Lemma le_Fin (x y : Q) : le (Fin x) (Fin y) = true <-> x <= y.
Proof.
  cbn [le lt]. rewrite negb_true_iff. apply Qlt_bool_false.
Qed.

Lemma pow2_1024_pos : 0 < pow2 1024.
Proof. apply pow2_pos. Qed.

Lemma round64_cases (q : Q) :
  (pow2 1024 <= round_fin q /\ round64 q = PInf)
  \/ (round_fin q <= - pow2 1024 /\ round64 q = NInf)
  \/ (- pow2 1024 < round_fin q < pow2 1024
      /\ round64 q = Fin (Qred (round_fin q))).
Proof.
  unfold round64. cbv zeta.
  destruct (Qle_bool (pow2 1024) (round_fin q)) eqn:E1.
  - left. split; [now apply Qle_bool_iff | reflexivity].
  - destruct (Qle_bool (round_fin q) (- pow2 1024)) eqn:E2.
    + right. left. split; [now apply Qle_bool_iff | reflexivity].
    + right. right. split; [|reflexivity]. split; apply Qnot_le_lt; intros H;
        apply Qle_bool_iff in H; congruence.
Qed.

Lemma round64_not_nan (q : Q) : is_nan (round64 q) = false.
Proof.
  destruct (round64_cases q) as [[_ ->]|[[_ ->]|[_ ->]]]; reflexivity.
Qed.

Lemma round64_compat (p q : Q) : p == q -> round64 p = round64 q.
Proof.
  intros H. pose proof (round_fin_compat p q H) as Hr.
  pose proof pow2_1024_pos as P.
  destruct (round64_cases p) as [[A ->]|[[A ->]|[[A1 A2] ->]]];
    destruct (round64_cases q) as [[B ->]|[[B ->]|[[B1 B2] ->]]];
    try reflexivity; try (exfalso; lra).
  f_equal. now apply Qred_complete.
Qed.

Lemma round64_opp (q : Q) : round64 (- q) = neg (round64 q).
Proof.
  pose proof (round_fin_opp q) as Hr. pose proof pow2_1024_pos as P.
  destruct (round64_cases (- q)) as [[A ->]|[[A ->]|[[A1 A2] ->]]];
    destruct (round64_cases q) as [[B ->]|[[B ->]|[[B1 B2] ->]]];
    cbn [neg]; try reflexivity; try (exfalso; lra).
  f_equal. rewrite <- Qred_opp. now apply Qred_complete.
Qed.

Lemma round64_mono (p q : Q) : p <= q -> le (round64 p) (round64 q) = true.
Proof.
  intros H. apply round_fin_mono in H. pose proof pow2_1024_pos as P.
  destruct (round64_cases p) as [[A ->]|[[A ->]|[[A1 A2] ->]]];
    destruct (round64_cases q) as [[B ->]|[[B ->]|[[B1 B2] ->]]];
    try reflexivity; try (exfalso; lra).
  apply le_Fin. pose proof (Qred_correct (round_fin p)).
  pose proof (Qred_correct (round_fin q)). lra.
Qed.

Lemma representable_compat (p q : Q) : p == q -> representable p -> representable q.
Proof. intros H (m & e & Hp & Hm & He). exists m, e. now rewrite <- H. Qed.

(** A rounded value is finite exactly when the rounding stays below
    [2^1024], and then its value is the rounding. *)
Lemma round64_Fin (q r : Q) :
  round64 q = Fin r ->
  r == round_fin q /\ - pow2 1024 < r < pow2 1024 /\ representable r.
Proof.
  intros H.
  destruct (round64_cases q) as [[A E]|[[A E]|[[A1 A2] E]]];
    rewrite E in H; try discriminate.
  injection H as <-. pose proof (Qred_correct (round_fin q)) as C.
  split; [exact C|]. split; [lra|].
  apply (representable_compat (round_fin q)); [now symmetry|].
  apply round_fin_representable.
Qed.

Lemma round64_exact (q : Q) :
  representable q -> Qabs q < pow2 1024 -> round64 q = Fin (Qred q).
Proof.
  intros Hq Hb. pose proof (round_fin_exact q Hq) as Hr.
  apply Qabs_Qlt_condition in Hb.
  destruct (round64_cases q) as [[A E]|[[A E]|[[A1 A2] E]]];
    try (exfalso; lra).
  rewrite E. f_equal. now apply Qred_complete.
Qed.

Lemma representable_Z (z : Z) : (Z.abs z <= 2 ^ 53)%Z -> representable (inject_Z z).
Proof.
  intros H. destruct (Z.eq_dec (Z.abs z) (2 ^ 53)) as [E|E].
  - exists (z / 2)%Z, 1%Z. change (pow2 1) with 2.
    assert (D : z = (2 * (z / 2))%Z).
    { apply Z.div_exact; [lia|].
      destruct (Z.abs_eq_or_opp z) as [A|A]; rewrite A in E.
      - rewrite E. reflexivity.
      - assert (B : z = (- 2 ^ 53)%Z) by lia. rewrite B. reflexivity. }
    split; [|split; [|lia]].
    + rewrite D at 1. rewrite inject_Z_mult. change (inject_Z 2) with 2. ring.
    + destruct (Z.abs_eq_or_opp z) as [A|A]; rewrite A in E.
      * rewrite E. reflexivity.
      * assert (B : z = (- 2 ^ 53)%Z) by lia. rewrite B. reflexivity.
  - exists z, 0%Z. change (pow2 0) with 1. split; [ring|]. split; lia.
Qed.

Lemma Qred_Z (z : Z) : Qred (inject_Z z) = inject_Z z.
Proof.
  unfold inject_Z, Qred.
  pose proof (Z.ggcd_gcd z 1) as G. pose proof (Z.ggcd_correct_divisors z 1) as D.
  destruct (Z.ggcd z 1) as [g [a b]]. cbn [fst snd] in *.
  rewrite Z.gcd_1_r in G. subst g. destruct D as [D1 D2].
  rewrite Z.mul_1_l in D1, D2. subst a. subst b. reflexivity.
Qed.

(** Integers up to [2^53] are doubles. *)
Lemma round64_Z (z : Z) : (Z.abs z <= 2 ^ 53)%Z -> round64 (inject_Z z) = ofZ z.
Proof.
  intros H. rewrite round64_exact.
  - unfold ofZ. now rewrite Qred_Z.
  - now apply representable_Z.
  - apply Qabs_Qlt_condition. rewrite (pow2_Z 1024) by lia.
    rewrite <- inject_Z_opp, <- !Zlt_Qlt.
    assert (2 ^ 53 < 2 ^ 1024)%Z by (apply Z.pow_lt_mono_r; lia). lia.
Qed.

Lemma round64_Zeq (q : Q) (z : Z) :
  q == inject_Z z -> (Z.abs z <= 2 ^ 53)%Z -> round64 q = ofZ z.
Proof. intros H Hz. rewrite (round64_compat _ _ H). now apply round64_Z. Qed.

Lemma representable_pow2 (k : Z) : (-1074 <= k)%Z -> representable (pow2 k).
Proof.
  intros H. exists 1%Z, k. split; [|split; [reflexivity | exact H]].
  change (inject_Z 1) with 1. ring.
Qed.

Lemma representable_opp (q : Q) : representable q -> representable (- q).
Proof.
  intros (m & e & Hq & Hm & He). exists (- m)%Z, e.
  split; [rewrite Hq, inject_Z_opp; ring|]. split; [lia | exact He].
Qed.

(** Below a double [M], the rounding is finite and below [M]. *)
Lemma round64_bounded (q M : Q) :
  representable M -> M < pow2 1024 -> Qabs q <= M ->
  exists r, round64 q = Fin r /\ Qabs r <= M /\ r == round_fin q.
Proof.
  intros HM Hb Hq. apply Qabs_Qle_condition in Hq. destruct Hq as [Q1 Q2].
  pose proof (round_fin_mono _ _ Q1) as R1. pose proof (round_fin_mono _ _ Q2) as R2.
  rewrite round_fin_opp in R1. rewrite (round_fin_exact M HM) in R1, R2.
  destruct (round64_cases q) as [[A E]|[[A E]|[[A1 A2] E]]]; try (exfalso; lra).
  exists (Qred (round_fin q)). split; [exact E|].
  pose proof (Qred_correct (round_fin q)) as C. split; [|exact C].
  apply Qabs_Qle_condition. split; lra.
Qed.

(** The rounding of a number that is not negative is not negative. *)
Lemma round64_nonneg (q : Q) :
  0 <= q -> round64 q = PInf \/ exists r, round64 q = Fin r /\ 0 <= r.
Proof.
  intros H. apply round_fin_nonneg in H. pose proof pow2_1024_pos as P.
  destruct (round64_cases q) as [[A E]|[[A E]|[[A1 A2] E]]]; try (exfalso; lra).
  - now left.
  - right. eexists. split; [exact E|].
    pose proof (Qred_correct (round_fin q)). lra.
Qed.

(** The relative error of a rounding in the normal range is at most
    [2^-53]. *)
Lemma round_fin_relative (q : Q) :
  pow2 (-1022) <= Qabs q -> Qabs (round_fin q - q) <= pow2 (-53) * Qabs q.
Proof.
  intros H. pose proof (round_fin_error q) as He.
  assert (E : ~ q == 0).
  { intros E. rewrite E in H. pose proof (pow2_pos (-1022)). cbn in H. lra. }
  destruct (mag_spec q E) as [M1 M2].
  assert (Hm : (-1022 <= mag q)%Z).
  { assert (A : (-1022 < mag q + 1)%Z) by (apply pow2_lt_inv; lra). lia. }
  assert (Hc : cexp q = (mag q - 52)%Z) by (unfold cexp; lia).
  rewrite Hc in He.
  apply Qle_trans with (pow2 (mag q - 52 - 1)); [exact He|].
  replace (mag q - 52 - 1)%Z with (-53 + mag q)%Z by lia. rewrite pow2_add.
  apply Qmult_le_l; [apply pow2_pos | exact M1].
Qed.

(** Between two doubles the rounding is finite and stays between them. *)
Lemma round64_between (q lo hi : Q) :
  representable lo -> representable hi -> - pow2 1024 < lo -> hi < pow2 1024 ->
  lo <= q <= hi ->
  exists r, round64 q = Fin r /\ lo <= r <= hi /\ r == round_fin q.
Proof.
  intros Hlo Hhi Blo Bhi [Q1 Q2].
  pose proof (round_fin_mono _ _ Q1) as R1. pose proof (round_fin_mono _ _ Q2) as R2.
  rewrite (round_fin_exact lo Hlo) in R1. rewrite (round_fin_exact hi Hhi) in R2.
  destruct (round64_cases q) as [[A E]|[[A E]|[[A1 A2] E]]]; try (exfalso; lra).
  exists (Qred (round_fin q)). split; [exact E|].
  pose proof (Qred_correct (round_fin q)) as C. split; [lra | exact C].
Qed.

(** Solves [representable c] for a constant [c = m * 2^e]. *)
Ltac repr m e :=
  exists m, e; split; [vm_compute; reflexivity | split; [vm_compute; reflexivity | lia]].

(** Solves a comparison of two constants. *)
Ltac qconst := vm_compute; solve [reflexivity | discriminate].

Lemma round64_unit (q : Q) :
  0 <= q <= 1 -> exists r, round64 q = Fin r /\ 0 <= r <= 1 /\ r == round_fin q.
Proof.
  apply round64_between; [repr 0%Z 0%Z | repr 1%Z 0%Z | qconst | qconst].
Qed.
(** ** The fifth root behind [Math.pow(x, 0.8)] *)

Lemma iroot5_from_spec (k : nat) (m r : Z) :
  (0 <= r)%Z -> (r ^ 5 <= m)%Z -> (m < (r + 2 ^ Z.of_nat k) ^ 5)%Z ->
  (0 <= iroot5_from k m r
   /\ iroot5_from k m r ^ 5 <= m < (iroot5_from k m r + 1) ^ 5)%Z.
Proof.
  revert r. induction k as [|k IH]; intros r Hr Hlo Hhi.
  - cbn [iroot5_from]. change (2 ^ Z.of_nat 0)%Z with 1%Z in Hhi. lia.
  - cbn [iroot5_from].
    assert (Hpow : (2 ^ Z.of_nat (S k) = 2 * 2 ^ Z.of_nat k)%Z).
    { rewrite Nat2Z.inj_succ. apply Z.pow_succ_r. lia. }
    assert (Hpos : (0 < 2 ^ Z.of_nat k)%Z) by (apply Z.pow_pos_nonneg; lia).
    destruct (Z.leb_spec ((r + 2 ^ Z.of_nat k) ^ 5) m) as [Hle|Hgt].
    + apply IH; [lia | exact Hle |].
      replace (r + 2 ^ Z.of_nat k + 2 ^ Z.of_nat k)%Z
        with (r + 2 ^ Z.of_nat (S k))%Z by lia.
      exact Hhi.
    + apply IH; [exact Hr | exact Hlo | exact Hgt].
Qed.

Lemma iroot5_spec (m : Z) :
  (0 <= m)%Z -> (0 <= iroot5 m /\ iroot5 m ^ 5 <= m < (iroot5 m + 1) ^ 5)%Z.
Proof.
  intros Hm. unfold iroot5. apply iroot5_from_spec; [lia | lia |].
  rewrite Nat2Z.inj_succ, Z2Nat.id by apply Z.log2_nonneg.
  rewrite Z.add_0_l.
  set (K := Z.succ (Z.log2 m)).
  assert (HK : (0 <= K)%Z) by (pose proof (Z.log2_nonneg m); lia).
  assert (Hm2 : (m < 2 ^ K)%Z).
  { destruct (Z.eq_dec m 0) as [->|Hne].
    - apply Z.pow_pos_nonneg; lia.
    - apply Z.log2_spec. lia. }
  assert (H5 : (2 ^ K <= (2 ^ K) ^ 5)%Z).
  { rewrite <- Z.pow_mul_r by lia. apply Z.pow_le_mono_r; lia. }
  lia.
Qed.

(** [iroot5 m] is at least every [t] whose fifth power is at most [m]. *)
Lemma iroot5_lower (t m : Z) :
  (0 <= t)%Z -> (t ^ 5 <= m)%Z -> (t <= iroot5 m)%Z.
Proof.
  intros Ht Htm.
  assert (Hm : (0 <= m)%Z).
  { pose proof (Z.pow_nonneg t 5 Ht). lia. }
  destruct (iroot5_spec m Hm) as (Hr & _ & Hhi).
  destruct (Z_le_gt_dec t (iroot5 m)) as [H|H]; [exact H|].
  assert (H5 : ((iroot5 m + 1) ^ 5 <= t ^ 5)%Z) by (apply Z.pow_le_mono_l; lia).
  lia.
Qed.

(** On [[1/2, +oo)] the model of [x^0.8] is at least 1/2. *)
Lemma pow08_fin_lower (q : Q) : 1 # 2 <= q -> 1 # 2 <= pow08_fin q.
Proof.
  intros Hq. unfold pow08_fin, pow_bits. cbv zeta.
  set (e := (63 + Z.to_pos (Z.max 1 (- mag q)))%positive).
  clearbody e.
  remember (Z.pos (2 ^ Pos.succ e)) as S eqn:ES.
  remember (Z.pos (2 ^ e)) as H eqn:EH.
  assert (HS : S = (2 * H)%Z) by (subst S H; now rewrite Pos.pow_succ_r).
  assert (HH : (0 < H)%Z) by (subst H; reflexivity).
  destruct q as [num den]. unfold Qle in Hq. cbn [Qnum Qden] in Hq |- *.
  assert (Hnum : (Z.pos den <= 2 * num)%Z) by lia.
  assert (Hroot : (H <= iroot5 (num ^ 4 * S ^ 5 / Z.pos den ^ 4))%Z).
  { apply iroot5_lower; [lia|].
    assert (Hden : (0 < Z.pos den ^ 4)%Z) by (apply Z.pow_pos_nonneg; lia).
    apply Z.div_le_lower_bound; [exact Hden|].
    assert (H4 : (Z.pos den ^ 4 <= (2 * num) ^ 4)%Z) by (apply Z.pow_le_mono_l; lia).
    assert (H5 : (0 <= H ^ 5)%Z) by (apply Z.pow_nonneg; lia).
    assert (H6 : (0 <= num ^ 4)%Z) by (apply Z.pow_nonneg; lia).
    rewrite HS.
    replace (num ^ 4 * (2 * H) ^ 5)%Z with (2 * ((2 * num) ^ 4 * H ^ 5))%Z by ring.
    assert (H7 : (Z.pos den ^ 4 * H ^ 5 <= (2 * num) ^ 4 * H ^ 5)%Z)
      by (apply Z.mul_le_mono_nonneg_r; assumption).
    assert (H8 : (0 <= (2 * num) ^ 4 * H ^ 5)%Z).
    { apply Z.mul_nonneg_nonneg; [apply Z.pow_nonneg; lia | exact H5]. }
    lia. }
  unfold Qle. cbn [Qnum Qden]. rewrite <- ES.
  set (R := iroot5 _) in *. lia.
Qed.

(** On [[0, 1]] the model of [x^0.8] is at most 1. *)
Lemma pow08_fin_unit (q : Q) : 0 <= q <= 1 -> 0 <= pow08_fin q <= 1.
Proof.
  intros [Hq0 Hq1]. unfold pow08_fin. cbv zeta.
  generalize (pow_bits q). intros bits.
  remember (Z.pos (2 ^ bits)) as S eqn:ES.
  assert (HS : (0 < S)%Z) by (subst S; reflexivity).
  destruct q as [num den]. unfold Qle in Hq0, Hq1. cbn [Qnum Qden] in *.
  assert (Hnum : (0 <= num <= Z.pos den)%Z) by lia.
  set (m := (num ^ 4 * S ^ 5 / Z.pos den ^ 4)%Z).
  assert (Hden : (0 < Z.pos den ^ 4)%Z) by (apply Z.pow_pos_nonneg; lia).
  assert (Hm0 : (0 <= m)%Z).
  { apply Z.div_pos; [|exact Hden].
    apply Z.mul_nonneg_nonneg; apply Z.pow_nonneg; lia. }
  assert (Hm1 : (m <= S ^ 5)%Z).
  { unfold m. apply Z.div_le_upper_bound; [exact Hden|].
    apply Z.mul_le_mono_nonneg_r; [apply Z.pow_nonneg; lia|].
    apply Z.pow_le_mono_l. lia. }
  destruct (iroot5_spec m Hm0) as (R0 & R1 & _).
  assert (HR : (iroot5 m <= S)%Z).
  { destruct (Z_le_gt_dec (iroot5 m) S) as [H|H]; [exact H|].
    assert (H5 : ((S + 1) ^ 5 <= iroot5 m ^ 5)%Z) by (apply Z.pow_le_mono_l; lia).
    assert (H6 : (S ^ 5 < (S + 1) ^ 5)%Z) by (apply Z.pow_lt_mono_l; lia).
    lia. }
  unfold Qle. cbn [Qnum Qden]. rewrite <- ES. fold m. split; lia.
Qed.
(** ** The shared scale and the rank *)

Lemma fold_max_abs (cs : list Q) (a : Q) :
  exists m,
    fold_left Math_max (map Math_abs (map Fin cs)) (Fin a) = Fin m
    /\ a <= m /\ Forall (fun c => Qabs c <= m) cs.
Proof.
  revert a. induction cs as [|c cs IH]; intros a.
  - exists a. repeat split; [lra | constructor].
  - cbn [map fold_left Math_abs Math_max lt].
    destruct (Qlt_bool a (Qabs c)) eqn:E; qprop.
    + destruct (IH (Qabs c)) as (m & Hm & Ham & Hall).
      exists m. repeat split; [exact Hm | lra | now constructor].
    + destruct (IH a) as (m & Hm & Ham & Hall).
      exists m. repeat split; [exact Hm | exact Ham |].
      constructor; [lra | exact Hall].
Qed.

(** On finite coefficients the scale is a finite number, at least 1 and
    at least the absolute value of every coefficient. *)
Lemma maxAbs_finite (cs : list Q) :
  exists M,
    maxAbs_of (map Fin cs) = Fin M
    /\ 1 <= M /\ Forall (fun c => Qabs c <= M) cs.
Proof.
  unfold maxAbs_of, Math_max_list. rewrite fold_left_app. cbn [fold_left].
  assert (Hone : forall m, exists M, Math_max (Fin m) (Fin 1) = Fin M /\ 1 <= M /\ m <= M).
  { intros m. cbn [Math_max lt].
    destruct (Qlt_bool m 1) eqn:E; qprop; eexists; repeat split; lra. }
  destruct cs as [|c cs].
  - exists 1. repeat split; [lra | constructor].
  - cbn [map fold_left Math_abs Math_max lt].
    destruct (fold_max_abs cs (Qabs c)) as (m & Hm & Hcm & Hall).
    rewrite Hm. destruct (Hone m) as (M & HM & H1 & HmM).
    exists M. repeat split; [exact HM | exact H1 |].
    constructor; [lra|].
    eapply Forall_impl; [|exact Hall]. cbn beta. intros; lra.
Qed.

(** The rank of a finite coefficient is a finite number of [[0, 1]], and
    at least one half when the coefficient is not negative. *)
Lemma rank_finite (M c : Q) :
  1 <= M -> Qabs c <= M ->
  exists r, rank_of (Fin M) (Fin c) = Fin r /\ 0 <= r <= 1
            /\ (0 <= c -> 1 # 2 <= r).
Proof.
  intros HM Hc. unfold rank_of. cbn [div].
  assert (E1 : Qeq_bool M 0 = false) by (apply Qeq_bool_false; lra).
  rewrite E1.
  apply Qabs_Qle_condition in Hc. destruct Hc as [Hlo Hhi].
  assert (H1 : -(1) <= c / M) by (apply Qle_shift_div_l; lra).
  assert (H2 : c / M <= 1) by (apply Qle_shift_div_r; lra).
  destruct (round64_between (c / M) (-(1)) 1) as (r1 & -> & [A1 A2] & A3);
    [repr (-1)%Z 0%Z | repr 1%Z 0%Z | qconst | qconst | lra |].
  assert (A4 : 0 <= c -> 0 <= r1).
  { intros Hc0. rewrite A3. apply round_fin_nonneg.
    apply Qle_shift_div_l; lra. }
  cbn [add].
  destruct (round64_between (r1 + 1) 0 2) as (r2 & -> & [B1 B2] & B3);
    [repr 0%Z 0%Z | repr 2%Z 0%Z | qconst | qconst | lra |].
  assert (B4 : 0 <= c -> 1 <= r2).
  { intros Hc0. specialize (A4 Hc0). rewrite B3.
    assert (R : round_fin 1 == 1) by (apply round_fin_exact; repr 1%Z 0%Z).
    assert (Mn : round_fin 1 <= round_fin (r1 + 1)) by (apply round_fin_mono; lra).
    lra. }
  cbn [div]. change (Qeq_bool 2 0) with false. cbv iota.
  destruct (round64_unit (r2 / 2)) as (r & -> & [C1 C2] & C3).
  { split; [apply Qle_shift_div_l | apply Qle_shift_div_r]; lra. }
  exists r. split; [reflexivity|]. split; [lra|].
  intros Hc0. specialize (B4 Hc0). rewrite C3.
  assert (R : round_fin (1 # 2) == 1 # 2) by (apply round_fin_exact; repr 1%Z (-1)%Z).
  assert (Mn : round_fin (1 # 2) <= round_fin (r2 / 2)).
  { apply round_fin_mono. apply Qle_shift_div_l; lra. }
  lra.
Qed.

Lemma pow08_unit (r : Q) :
  0 <= r <= 1 -> exists p, Math_pow08 (Fin r) = Fin p /\ 0 <= p <= 1.
Proof.
  intros Hr. unfold Math_pow08.
  destruct (Qlt_bool r 0) eqn:E; qprop; [lra|].
  destruct (Qeq_bool r 0); [exists 0; split; [reflexivity | lra]|].
  destruct (round64_unit (pow08_fin r)) as (p & -> & Hp & _);
    [now apply pow08_fin_unit|].
  now exists p.
Qed.

Lemma literal_15 : dbl (15 # 100) = Fin (5404319552844595 # 36028797018963968).
Proof. vm_compute. reflexivity. Qed.

Lemma literal_35 : dbl (35 # 100) = Fin (3152519739159347 # 9007199254740992).
Proof. vm_compute. reflexivity. Qed.

(** The share of the width is a finite number of [[0, 1]]. *)
Lemma factor_unit (options : Options) (r : Q) :
  0 <= r <= 1 -> exists f, factor options (Fin r) = Fin f /\ 0 <= f <= 1.
Proof.
  intros Hr. unfold factor.
  destruct (negb (maximize options)).
  { cbn [sub neg add].
    destruct (round64_unit (1 + - r)) as (f & -> & Hf & _); [lra|]. now exists f. }
  destruct (strategy_is options "aggressive"); [now apply pow08_unit|].
  destruct (strategy_is options "conservative").
  { rewrite literal_15. eexists. split; [reflexivity|]. split; qconst. }
  rewrite literal_35. cbn [mul].
  destruct (round64_between ((1 # 2) * r) 0 (1 # 2)) as (m & -> & Hm & _);
    [repr 0%Z 0%Z | repr 1%Z (-1)%Z | qconst | qconst | lra |].
  cbn [add].
  destruct (round64_unit ((3152519739159347 # 9007199254740992) + m))
    as (f & -> & Hf & _).
  { assert (0 <= 3152519739159347 # 9007199254740992) by qconst.
    assert ((3152519739159347 # 9007199254740992) <= 1 # 2) by qconst. lra. }
  now exists f.
Qed.

Lemma target_factor (options : Options) (lb ub rank : number) :
  target options lb ub rank = add lb (mul (sub ub lb) (factor options rank)).
Proof.
  unfold target, factor. destruct (negb (maximize options)); [reflexivity|].
  destruct (strategy_is options "aggressive"); [reflexivity|].
  now destruct (strategy_is options "conservative").
Qed.

Lemma within_inv (B : Z) (x : number) :
  within B x = true -> x = Fin (val x) /\ Qabs (val x) <= inject_Z B.
Proof.
  destruct x as [q| | |]; try discriminate. cbn [within val]. intros H. qprop.
  now split.
Qed.

Lemma moderate_get (xs : list number) (i : nat) :
  moderate xs = true -> (i < length xs)%nat -> within (2 ^ 48) (get xs i) = true.
Proof.
  unfold moderate, get. rewrite forallb_forall. intros H Hi. apply H, nth_In, Hi.
Qed.

Lemma moderate_finite (xs : list number) : moderate xs = true -> all_finite xs = true.
Proof.
  unfold moderate, all_finite. rewrite !forallb_forall. intros H x Hx.
  specialize (H x Hx). now destruct x.
Qed.

(** With bounds of moderate size the proposed value is finite, at most
    [2^50] in absolute value. *)
Lemma target_moderate (l u f : Q) :
  Qabs l <= inject_Z (2 ^ 48) -> Qabs u <= inject_Z (2 ^ 48) -> 0 <= f <= 1 ->
  exists t, add (Fin l) (mul (sub (Fin u) (Fin l)) (Fin f)) = Fin t
            /\ Qabs t <= inject_Z (2 ^ 50).
Proof.
  intros Hl Hu Hf. apply Qabs_Qle_condition in Hl, Hu.
  change (inject_Z (2 ^ 48)) with (281474976710656 # 1) in *.
  cbn [sub neg add].
  destruct (round64_bounded (u + - l) (inject_Z (2 ^ 49))) as (w & -> & Hw & _).
  { repr 1%Z 49%Z. }
  { qconst. }
  { apply Qabs_Qle_condition. change (inject_Z (2 ^ 49)) with (562949953421312 # 1). lra. }
  cbn [mul].
  destruct (round64_bounded (w * f) (inject_Z (2 ^ 49))) as (p & -> & Hp & _).
  { repr 1%Z 49%Z. }
  { qconst. }
  { rewrite Qabs_Qmult. rewrite (Qabs_pos f) by lra.
    pose proof (Qabs_nonneg w) as Hn. nra. }
  cbn [add].
  destruct (round64_bounded (l + p) (inject_Z (2 ^ 50))) as (t & -> & Ht & _).
  { repr 1%Z 50%Z. }
  { qconst. }
  { apply Qabs_Qle_condition in Hp.
    change (inject_Z (2 ^ 49)) with (562949953421312 # 1) in Hp.
    apply Qabs_Qle_condition. change (inject_Z (2 ^ 50)) with (1125899906842624 # 1). lra. }
  now exists t.
Qed.

Lemma add_not_nan (l : Q) (x : number) :
  is_nan x = false -> is_nan (add (Fin l) x) = false.
Proof.
  destruct x; try discriminate; intros _; cbn [add]; [apply round64_not_nan | reflexivity..].
Qed.

(** When the width of the period does not overflow, the proposed value is a
    number. *)
Lemma target_not_nan (l u f : Q) :
  is_fin (sub (Fin u) (Fin l)) = true ->
  is_nan (add (Fin l) (mul (sub (Fin u) (Fin l)) (Fin f))) = false.
Proof.
  intros Hw. destruct (sub (Fin u) (Fin l)) as [w| | |]; try discriminate.
  apply add_not_nan. cbn [mul]. apply round64_not_nan.
Qed.

Lemma get_cumCapacity (i : nat) :
  (exists c, get cumCapacity i = ofZ c) \/ get cumCapacity i = NaN.
Proof.
  unfold cumCapacity, get.
  do 12 (destruct i as [|i]; [left; eexists; reflexivity|]).
  right. now destruct i.
Qed.

Section Proposal.

Variables coeffs lower upper : list number.
Variable options : Options.
Variable i : nat.

Hypothesis coeffs_finite : all_finite coeffs = true.
Hypothesis period : (i < length coeffs)%nat.

(** The rank of a period with finite coefficients. *)
Lemma rank_at_finite :
  exists r, rank_of (maxAbs_of coeffs) (get coeffs i) = Fin r /\ 0 <= r <= 1
            /\ (le (Fin 0) (get coeffs i) = true -> 1 # 2 <= r).
Proof.
  rewrite (all_finite_inv _ coeffs_finite).
  destruct (maxAbs_finite (map val coeffs)) as (M & -> & HM & Hall).
  rewrite get_map_Fin by now rewrite length_map.
  destruct (rank_finite M (nth i (map val coeffs) 0) HM) as (r & -> & Hr & Hh).
  { rewrite Forall_forall in Hall. apply Hall, nth_In. now rewrite length_map. }
  exists r. split; [reflexivity|]. split; [exact Hr|].
  intros H. apply Hh. now apply le_Fin.
Qed.

Lemma factor_at_unit :
  exists f, factor options (rank_of (maxAbs_of coeffs) (get coeffs i)) = Fin f
            /\ 0 <= f <= 1.
Proof.
  destruct rank_at_finite as (r & -> & Hr & _). now apply factor_unit.
Qed.

(** The value proposed for a period with bounds of moderate size is
    finite. *)
Lemma target_at_moderate :
  within (2 ^ 48) (get lower i) = true -> within (2 ^ 48) (get upper i) = true ->
  exists t, target_at coeffs lower upper options i = Fin t
            /\ Qabs t <= inject_Z (2 ^ 50).
Proof.
  intros Hl Hu. unfold target_at. rewrite target_factor.
  destruct factor_at_unit as (f & -> & Hf).
  destruct (within_inv _ _ Hl) as [-> Hl']. destruct (within_inv _ _ Hu) as [-> Hu'].
  now apply target_moderate.
Qed.

(** The value proposed for a period whose width does not overflow is a
    number. *)
Lemma target_at_not_nan :
  is_fin (get lower i) = true -> is_fin (get upper i) = true ->
  is_fin (sub (get upper i) (get lower i)) = true ->
  is_nan (target_at coeffs lower upper options i) = false.
Proof.
  intros Hl Hu Hw. unfold target_at. rewrite target_factor.
  destruct factor_at_unit as (f & -> & Hf).
  rewrite (is_fin_inv _ Hl), (is_fin_inv _ Hu) in *.
  now apply target_not_nan.
Qed.

End Proposal.

Lemma get_allocs (coeffs lower upper : list number) (options : Options) (k i : nat) :
  (i < k)%nat ->
  get (allocs coeffs lower upper options k) i
  = alloc_value coeffs lower upper options i
      (sum (allocs coeffs lower upper options i)).
Proof.
  induction k as [|k IH]; intros Hi; [lia|].
  cbn [allocs]. destruct (Nat.eq_dec i k) as [->|Hne].
  - replace (allocs coeffs lower upper options k
             ++ [alloc_value coeffs lower upper options k
                   (sum (allocs coeffs lower upper options k))])
      with (allocs coeffs lower upper options k
            ++ alloc_value coeffs lower upper options k
                 (sum (allocs coeffs lower upper options k)) :: [])
      by reflexivity.
    apply get_app_at, length_allocs.
  - rewrite get_app_lt by (rewrite length_allocs; lia). apply IH. lia.
Qed.
(** ** Inverted bounds *)

Lemma clamp_inverted (l u : Q) (x : number) :
  u < l -> is_nan x = false ->
  Math_min (Fin u) (Math_max (Fin l) x) = Fin u.
Proof.
  intros Hul Hx. destruct x as [a| | |]; try discriminate.
  - cbn [Math_max lt]. destruct (Qlt_bool l a) eqn:E1; cbn [Math_min lt];
      qcases; qprop; try reflexivity; lra.
  - reflexivity.
  - cbn [Math_max lt Math_min].
    destruct (Qlt_bool l u) eqn:E; qprop; [lra | reflexivity].
Qed.

Lemma Math_max_not_nan (l : Q) (y : number) :
  is_nan y = false -> is_nan (Math_max (Fin l) y) = false.
Proof.
  destruct y as [b| | |]; try discriminate; intros _; cbn [Math_max lt];
    [now destruct (Qlt_bool l b) | reflexivity..].
Qed.

Lemma ceiling_step_not_nan (l : Q) (x cap cumulative : number) :
  (exists c, cap = ofZ c) \/ cap = NaN ->
  is_nan x = false ->
  is_nan (if gt (add cumulative x) cap
          then Math_max (Fin l) (sub cap cumulative)
          else x) = false.
Proof.
  intros [[c ->] | ->] Hx.
  - destruct (gt (add cumulative x) (ofZ c)) eqn:E; [|exact Hx].
    apply Math_max_not_nan.
    destruct cumulative as [a| | |]; unfold ofZ; cbn [sub neg add];
      [apply round64_not_nan | reflexivity | reflexivity |].
    now destruct x.
  - replace (gt (add cumulative x) NaN) with false; [exact Hx|].
    unfold gt. now destruct (add cumulative x).
Qed.

(** C9 (as the code behaves): in a period with finite coefficients whose
    finite bounds are inverted, [upper_i < lower_i], and whose width
    [upper_i - lower_i] does not overflow, the allocation is
    [Math.round(upper_i)], whatever the strategy, the [maximize] flag, the
    other periods' bounds and the running total. *)
Theorem inverted_bounds_upper_wins
  (coeffs lower upper : list number) (options : Options) (i : nat) :
  all_finite coeffs = true ->
  (i < length coeffs)%nat ->
  is_fin (get lower i) = true ->
  is_fin (get upper i) = true ->
  is_fin (sub (get upper i) (get lower i)) = true ->
  lt (get upper i) (get lower i) = true ->
  get (solution (solveLPHeuristic coeffs lower upper options)) i
  = Math_round (get upper i).
Proof.
  intros Hc Hi Hl Hu Hw Hlt.
  rewrite solution_allocs, get_allocs by exact Hi.
  unfold alloc_value, ceil_clamp.
  pose proof (target_at_not_nan coeffs lower upper options i Hc Hi Hl Hu Hw) as Ht.
  destruct (get lower i) as [l| | |]; try discriminate.
  destruct (get upper i) as [u| | |]; try discriminate.
  cbn [lt] in Hlt. qprop. f_equal.
  apply clamp_inverted; [exact Hlt|].
  apply ceiling_step_not_nan; [apply get_cumCapacity | exact Ht].
Qed.

Lemma inverted_bounds_upper_wins_witness :
  get (solution (solveLPHeuristic inverted_example_coeffs inverted_example_lower
                   inverted_example_upper
                   {| maximize := true; strategy := Some "aggressive"%string |})) 0
  = Math_round (get inverted_example_upper 0).
Proof.
  apply inverted_bounds_upper_wins; try reflexivity. simpl. lia.
Defined.

(** C9 (as stated) fails: with an infinite coefficient the rank is [NaN],
    and with finite bounds whose width overflows the proposal is
    [-Infinity * 0]; in both cases the allocation of the inverted period is
    [NaN] and not [Math.round(upper_i)]. *)
Lemma inverted_bounds_can_give_NaN :
  (lt (ofZ 4) (ofZ 10) = true
   /\ solution (solveLPHeuristic [PInf] [ofZ 10] [ofZ 4]
                  {| maximize := true; strategy := Some "aggressive"%string |})
      = [NaN]
   /\ Math_round (ofZ 4) = ofZ 4)
  /\ (lt (ofZ (- 2 ^ 1023)) (ofZ (2 ^ 1023)) = true
      /\ solution (solveLPHeuristic [ofZ (-1)] [ofZ (2 ^ 1023)] [ofZ (- 2 ^ 1023)]
                     {| maximize := true; strategy := Some "aggressive"%string |})
         = [NaN]
      /\ Math_round (ofZ (- 2 ^ 1023)) = ofZ (- 2 ^ 1023)).
Proof. vm_compute. repeat split. Qed.
(** ** Arrays of different lengths *)

Lemma get_overflow (a : list number) (i : nat) :
  (length a <= i)%nat -> get a i = NaN.
Proof. intros H. unfold get. now apply nth_overflow. Qed.

Lemma add_NaN_r (x : number) : add x NaN = NaN.
Proof. now destruct x. Qed.

Lemma mul_NaN_r (x : number) : mul x NaN = NaN.
Proof. now destruct x. Qed.

Lemma Math_max_NaN_r (x : number) : Math_max x NaN = NaN.
Proof. now destruct x. Qed.

Lemma Math_min_NaN_r (x : number) : Math_min x NaN = NaN.
Proof. now destruct x. Qed.

Lemma target_NaN_lower (options : Options) (ub rank : number) :
  target options NaN ub rank = NaN.
Proof.
  unfold target.
  destruct (negb (maximize options)); [reflexivity|].
  destruct (strategy_is options "aggressive"); [reflexivity|].
  destruct (strategy_is options "conservative"); reflexivity.
Qed.

Lemma target_NaN_upper (options : Options) (lb rank : number) :
  target options lb NaN rank = NaN.
Proof.
  unfold target. cbn [sub add mul].
  destruct (negb (maximize options)); [apply add_NaN_r|].
  destruct (strategy_is options "aggressive"); [apply add_NaN_r|].
  destruct (strategy_is options "conservative"); apply add_NaN_r.
Qed.

Lemma ceil_clamp_NaN (lb ub cap cumulative : number) :
  lb = NaN \/ ub = NaN ->
  ceil_clamp lb ub cap cumulative NaN = NaN.
Proof.
  intros H. unfold ceil_clamp. rewrite add_NaN_r.
  replace (gt NaN cap) with false by now destruct cap.
  rewrite Math_max_NaN_r. apply Math_min_NaN_r.
Qed.

(** A period that misses a bound gets [NaN]. *)
Lemma alloc_value_missing_bound
  (coeffs lower upper : list number) (options : Options) (i : nat) (cumulative : number) :
  (length lower <= i)%nat \/ (length upper <= i)%nat ->
  alloc_value coeffs lower upper options i cumulative = NaN.
Proof.
  intros H. unfold alloc_value, target_at.
  destruct H as [H|H]; rewrite (get_overflow _ _ H).
  - rewrite target_NaN_lower, ceil_clamp_NaN; auto.
  - rewrite target_NaN_upper, ceil_clamp_NaN; auto.
Qed.

Lemma dot_from_NaN (cs xs : list number) (k : nat) :
  reducei_from (fun s xi i => add s (mul (get cs i) xi)) k xs NaN = NaN.
Proof. revert k. induction xs as [|x xs IH]; intros k; simpl; auto. Qed.

Lemma dot_from_has_NaN (cs xs : list number) (i k : nat) (acc : number) :
  (i < length xs)%nat -> get xs i = NaN ->
  reducei_from (fun s xi i => add s (mul (get cs i) xi)) k xs acc = NaN.
Proof.
  revert i k acc. induction xs as [|x xs IH]; intros i k acc Hi Hx; simpl in *; [lia|].
  destruct i as [|i].
  - unfold get in Hx. simpl in Hx. subst x.
    rewrite mul_NaN_r, add_NaN_r. apply dot_from_NaN.
  - apply (IH i); [lia | exact Hx].
Qed.

Lemma get_firstn (a : list number) (n i : nat) :
  (i < n)%nat -> get (firstn n a) i = get a i.
Proof.
  unfold get. revert a i. induction n as [|n IH]; intros a i Hi; [lia|].
  destruct a as [|h t]; [reflexivity|]. destruct i as [|i]; [reflexivity|].
  cbn [firstn nth]. apply IH. lia.
Qed.

(** The first [k] allocations read the bounds of the first [k] periods
    only. *)
Lemma allocs_bounds_ext
  (coeffs lower upper lower' upper' : list number) (options : Options) (k : nat) :
  (forall i, (i < k)%nat -> get lower' i = get lower i /\ get upper' i = get upper i) ->
  allocs coeffs lower' upper' options k = allocs coeffs lower upper options k.
Proof.
  induction k as [|k IH]; intros H; [reflexivity|].
  cbn [allocs]. rewrite IH by (intros i Hi; apply H; lia).
  unfold alloc_value, target_at.
  destruct (H k) as [-> ->]; [lia|]. reflexivity.
Qed.

(** C7 (as the code behaves): the heuristic never fails on arrays of
    different lengths.  It always returns one allocation per coefficient;
    every period for which a lower or an upper bound is missing gets [NaN],
    and the objective value is then [NaN]; bounds beyond the last
    coefficient are ignored: two calls whose bound arrays agree on the
    periods of the coefficients return the same result. *)
Theorem mismatched_lengths_give_NaN
  (coeffs lower upper : list number) (options : Options) :
  length (solution (solveLPHeuristic coeffs lower upper options)) = length coeffs
  /\ (forall i, (i < length coeffs)%nat ->
                (length lower <= i)%nat \/ (length upper <= i)%nat ->
                get (solution (solveLPHeuristic coeffs lower upper options)) i = NaN)
  /\ ((length lower < length coeffs)%nat \/ (length upper < length coeffs)%nat ->
      objective (solveLPHeuristic coeffs lower upper options) = NaN)
  /\ (forall lower' upper',
        firstn (length coeffs) lower' = firstn (length coeffs) lower ->
        firstn (length coeffs) upper' = firstn (length coeffs) upper ->
        solveLPHeuristic coeffs lower' upper' options
        = solveLPHeuristic coeffs lower upper options)
  /\ (forall extra_lower extra_upper,
        (length coeffs <= length lower)%nat -> (length coeffs <= length upper)%nat ->
        solveLPHeuristic coeffs (lower ++ extra_lower) (upper ++ extra_upper) options
        = solveLPHeuristic coeffs lower upper options).
Proof.
  assert (Hext : forall lower' upper',
        firstn (length coeffs) lower' = firstn (length coeffs) lower ->
        firstn (length coeffs) upper' = firstn (length coeffs) upper ->
        solveLPHeuristic coeffs lower' upper' options
        = solveLPHeuristic coeffs lower upper options).
  { intros lower' upper' Hl Hu.
    assert (E : allocs coeffs lower' upper' options (length coeffs)
                = allocs coeffs lower upper options (length coeffs)).
    { apply allocs_bounds_ext. intros i Hi.
      rewrite <- (get_firstn lower' _ i Hi), <- (get_firstn upper' _ i Hi), Hl, Hu.
      now rewrite !get_firstn. }
    pose proof (solution_allocs coeffs lower' upper' options) as S1.
    pose proof (objective_allocs coeffs lower' upper' options) as O1.
    pose proof (solution_allocs coeffs lower upper options) as S2.
    pose proof (objective_allocs coeffs lower upper options) as O2.
    destruct (solveLPHeuristic coeffs lower' upper' options) as [s1 o1].
    destruct (solveLPHeuristic coeffs lower upper options) as [s2 o2].
    cbn [solution objective] in *. congruence. }
  rewrite solution_allocs, objective_allocs.
  assert (Hget : forall i, (i < length coeffs)%nat ->
                (length lower <= i)%nat \/ (length upper <= i)%nat ->
                get (allocs coeffs lower upper options (length coeffs)) i = NaN).
  { intros i Hi Hb. rewrite get_allocs by exact Hi.
    now apply alloc_value_missing_bound. }
  split; [apply length_allocs|]. split; [exact Hget|].
  split; [|split; [exact Hext|]].
  - intros H. unfold dot, reducei.
    set (i := Nat.min (length lower) (length upper)).
    apply (dot_from_has_NaN _ _ i).
    + rewrite length_allocs. lia.
    + apply Hget; lia.
  - intros el eu Hl Hu. apply Hext.
    + rewrite firstn_app. replace (length coeffs - length lower)%nat with 0%nat by lia.
      cbn [firstn]. apply app_nil_r.
    + rewrite firstn_app. replace (length coeffs - length upper)%nat with 0%nat by lia.
      cbn [firstn]. apply app_nil_r.
Qed.

Lemma mismatched_lengths_give_NaN_witness :
  objective (solveLPHeuristic (map ofZ [3; 5]%Z) (map ofZ [1]%Z) (map ofZ [4; 8]%Z)
               {| maximize := true; strategy := Some "balanced"%string |}) = NaN
  /\ solveLPHeuristic (map ofZ [3]%Z) (map ofZ [1] ++ map ofZ [7])%Z
        (map ofZ [4] ++ map ofZ [9])%Z
        {| maximize := true; strategy := Some "balanced"%string |}
      = solveLPHeuristic (map ofZ [3]%Z) (map ofZ [1]%Z) (map ofZ [4]%Z)
          {| maximize := true; strategy := Some "balanced"%string |}.
Proof.
  split.
  - apply (mismatched_lengths_give_NaN (map ofZ [3; 5]%Z) (map ofZ [1]%Z) (map ofZ [4; 8]%Z)).
    left. simpl. lia.
  - apply (mismatched_lengths_give_NaN (map ofZ [3]%Z) (map ofZ [1]%Z) (map ofZ [4]%Z));
      simpl; lia.
Defined.

(** C7 (as stated) fails: with a lower-bound array shorter than the
    coefficients the call returns, and its result holds [NaN]; with bound
    arrays longer than the coefficients it returns a finite result and
    the extra bounds are dropped silently; the evaluator too returns, with
    [NaN], on a coefficient array shorter than the allocation. *)
Lemma mismatched_lengths_do_not_fail :
  (let r := solveLPHeuristic (map ofZ [3; 5]%Z) (map ofZ [1]%Z) (map ofZ [4; 8]%Z)
              {| maximize := true; strategy := Some "balanced"%string |} in
   length (solution r) = 2%nat
   /\ is_nan (get (solution r) 1) = true
   /\ is_nan (objective r) = true)
  /\ (let r := solveLPHeuristic (map ofZ [3]%Z) (map ofZ [1; 7]%Z) (map ofZ [4; 9]%Z)
                 {| maximize := true; strategy := Some "balanced"%string |} in
      length (solution r) = 1%nat
      /\ all_finite (solution r) = true
      /\ is_fin (objective r) = true)
  /\ is_nan (Z1 (computeObjectives (map ofZ [2]%Z) (map ofZ [1; 1]%Z)
                   (map ofZ [1; 1]%Z) (map ofZ [5; 6]%Z))) = true.
Proof. vm_compute. repeat split. Qed.
(** ** Edits of the pairwise matrix *)

Lemma set_entry_spec (m : matrix) (i j : nat) (v : number) :
  (i < length m)%nat ->
  exists m',
    set_entry m i j v = Some m'
    /\ length m' = length m
    /\ entry m' i j = v
    /\ (forall a b, (a, b) <> (i, j) -> entry m' a b = entry m a b).
Proof.
  revert i. induction m as [|row rest IH]; intros i Hi; simpl in Hi; [lia|].
  destruct i as [|i].
  - eexists. split; [reflexivity|]. split; [reflexivity|]. split.
    + unfold entry. simpl. apply get_set_same.
    + intros a b Hab. unfold entry. destruct a as [|a]; simpl; [|reflexivity].
      apply get_set_other. congruence.
  - destruct (IH i) as (m' & Hm' & Hlen & Hij & Hother); [lia|].
    exists (row :: m'). simpl. rewrite Hm'. split; [reflexivity|].
    split; [now rewrite Hlen|]. split; [exact Hij|].
    intros a b Hab. destruct a as [|a]; [reflexivity|].
    apply (Hother a b). congruence.
Qed.

Lemma updatePairwise_off_diagonal (m : matrix) (i j : nat) (value : string) :
  (i < length m)%nat -> (j < length m)%nat -> i <> j ->
  exists m',
    updatePairwise m i j value = Some m'
    /\ length m' = length m
    /\ entry m' i j = stored_value value
    /\ entry m' j i = div (Fin 1) (stored_value value)
    /\ (forall a b, (a, b) <> (i, j) -> (a, b) <> (j, i) ->
                    entry m' a b = entry m a b).
Proof.
  intros Hi Hj Hij. unfold updatePairwise. rewrite map_id.
  fold (stored_value value).
  destruct (set_entry_spec m i j (stored_value value) Hi)
    as (m1 & -> & Hlen1 & Hv1 & Hother1).
  replace (Nat.eqb i j) with false by (symmetry; now apply Nat.eqb_neq).
  cbn [negb].
  destruct (set_entry_spec m1 j i (div (Fin 1) (stored_value value)))
    as (m2 & -> & Hlen2 & Hv2 & Hother2); [lia|].
  exists m2. split; [reflexivity|]. split; [lia|]. split.
  - rewrite Hother2 by congruence. exact Hv1.
  - split; [exact Hv2|]. intros a b H1 H2.
    rewrite Hother2 by exact H2. now apply Hother1.
Qed.

Lemma updatePairwise_diagonal (m : matrix) (i : nat) (value : string) :
  (i < length m)%nat ->
  exists m',
    updatePairwise m i i value = Some m'
    /\ length m' = length m
    /\ entry m' i i = stored_value value
    /\ (forall a b, (a, b) <> (i, i) -> entry m' a b = entry m a b).
Proof.
  intros Hi. unfold updatePairwise. rewrite map_id.
  fold (stored_value value).
  destruct (set_entry_spec m i i (stored_value value) Hi)
    as (m1 & -> & Hlen1 & Hv1 & Hother1).
  rewrite Nat.eqb_refl. cbn [negb].
  exists m1. auto.
Qed.

(** C5 (as the code behaves): an edit of an off-diagonal cell [(i,j)]
    stores [v] there and [1/v] in the mirror cell [(j,i)], and changes no
    other entry, so it leaves the diagonal as it was; an edit of a diagonal
    cell [(i,i)] stores [v] itself on the diagonal. *)
Theorem updatePairwise_reciprocal (m : matrix) (i j : nat) (value : string) :
  (i < length m)%nat -> (j < length m)%nat ->
  exists m',
    updatePairwise m i j value = Some m'
    /\ entry m' i j = stored_value value
    /\ (i <> j ->
        entry m' j i = div (Fin 1) (stored_value value)
        /\ (forall a, entry m' a a = entry m a a)
        /\ (forall a b, (a, b) <> (i, j) -> (a, b) <> (j, i) ->
                        entry m' a b = entry m a b)).
Proof.
  intros Hi Hj. destruct (Nat.eq_dec i j) as [<-|Hij].
  - destruct (updatePairwise_diagonal m i value Hi) as (m' & Hm' & _ & Hv & _).
    exists m'. split; [exact Hm'|]. split; [exact Hv|]. intros H. now elim H.
  - destruct (updatePairwise_off_diagonal m i j value Hi Hj Hij)
      as (m' & Hm' & _ & Hv & Hr & Hother).
    exists m'. split; [exact Hm'|]. split; [exact Hv|]. intros _.
    split; [exact Hr|]. split; [|exact Hother].
    intros a. apply Hother; congruence.
Qed.

Lemma updatePairwise_reciprocal_witness :
  exists m',
    updatePairwise DEFAULT_PAIRWISE 0 2 "4" = Some m'
    /\ entry m' 0 2 = Fin 4
    /\ eqv (entry m' 2 0) (Fin (1 # 4))
    /\ entry m' 0 0 = Fin 1 /\ entry m' 1 1 = Fin 1 /\ entry m' 2 2 = Fin 1.
Proof.
  destruct (updatePairwise_reciprocal DEFAULT_PAIRWISE 0 2 "4")
    as (m' & Hm' & Hv & Hrest); [simpl; lia | simpl; lia |].
  destruct Hrest as (Hr & Hdiag & _); [discriminate|].
  exists m'. split; [exact Hm'|]. split; [exact Hv|].
  rewrite Hr, !Hdiag. vm_compute. repeat split.
Defined.

(** C5 (as stated) fails: an edit of a diagonal cell makes the diagonal
    entry differ from 1. *)
Lemma diagonal_edit_breaks_unit_diagonal :
  option_map (fun m' => entry m' 0 0) (updatePairwise DEFAULT_PAIRWISE 0 0 "5")
  = Some (Fin 5).
Proof. vm_compute. reflexivity. Qed.
(** ** Positivity of the pairwise matrix *)

Lemma stored_value_truthy (value : string) : truthy (stored_value value) = true.
Proof.
  unfold stored_value, or.
  destruct (truthy (parseFloat value)) eqn:E; [exact E | reflexivity].
Qed.

Lemma stored_value_default (value : string) :
  truthy (parseFloat value) = false -> stored_value value = Fin 1.
Proof. intros H. unfold stored_value, or. now rewrite H. Qed.

(** A finite value of [parseFloat] is a rounding. *)
Lemma parseFloat_Fin (s : string) (q : Q) :
  parseFloat s = Fin q -> exists v, round64 v = Fin q.
Proof.
  unfold parseFloat.
  destruct (read_sign (skip_space s)) as [negative s1].
  destruct (String.prefix "Infinity" s1); [now destruct negative|].
  destruct (read_digits s1 0%Z 0) as [[ip ni] s2].
  destruct (match s2 with
            | String "."%char t => read_digits t 0%Z 0
            | _ => (0%Z, 0%nat, s2)
            end) as [[fp nf] s3].
  destruct (ni + nf)%nat; [discriminate|].
  intros H. eexists. exact H.
Qed.

(** The value stored by an admitted input is a positive double. *)
Lemma stored_value_positive (value : string) :
  input_ok value = true ->
  exists p, stored_value value = Fin p /\ 0 < p < pow2 1024.
Proof.
  unfold input_ok, stored_value, or.
  destruct (parseFloat value) as [q| | |] eqn:P; try discriminate; intros H.
  - cbn [truthy]. destruct (Qeq_bool q 0) eqn:E; cbn [negb]; qprop.
    + exists 1. split; [reflexivity|]. split; qconst.
    + exists q. split; [reflexivity|].
      destruct (parseFloat_Fin _ _ P) as (v & Hv).
      apply round64_Fin in Hv. destruct Hv as (_ & [_ Hv] & _). split; lra.
  - exists 1. split; [reflexivity|]. split; qconst.
Qed.

(** The reciprocal of a positive double is above 0: it can overflow to
    [+Infinity], and it does not underflow to 0. *)
Lemma reciprocal_positive (p : Q) :
  0 < p < pow2 1024 -> lt (Fin 0) (div (Fin 1) (Fin p)) = true.
Proof.
  intros [Hp Hb]. cbn [div].
  replace (Qeq_bool p 0) with false by (symmetry; apply Qeq_bool_false; lra).
  assert (Hlow : pow2 (-1024) <= 1 / p).
  { apply Qle_shift_div_l; [exact Hp|].
    assert (E : pow2 (-1024) * pow2 1024 == 1) by (rewrite <- pow2_add; reflexivity).
    pose proof (pow2_pos (-1024)) as P. nra. }
  pose proof (round_fin_mono _ _ Hlow) as Hm.
  rewrite (round_fin_exact (pow2 (-1024))) in Hm by (apply representable_pow2; lia).
  pose proof (pow2_pos (-1024)) as P.
  destruct (round64_cases (1 / p)) as [[A E]|[[A E]|[[A1 A2] E]]]; rewrite E.
  - reflexivity.
  - pose proof pow2_1024_pos. exfalso. lra.
  - cbn [lt]. apply Qlt_bool_true. pose proof (Qred_correct (round_fin (1 / p))). lra.
Qed.

Lemma updatePairwise_keeps_positive (m : matrix) (i j : nat) (value : string) :
  positive_3x3 m -> edit_ok (i, j, value) ->
  exists m', updatePairwise m i j value = Some m' /\ positive_3x3 m'.
Proof.
  intros [Hlen Hpos] (Hi & Hj & Hok).
  destruct (stored_value_positive value Hok) as (p & Hp & Hp0).
  pose proof (reciprocal_positive p Hp0) as Hr.
  assert (Hvp : lt (Fin 0) (Fin p) = true) by (apply Qlt_bool_true; tauto).
  destruct (Nat.eq_dec i j) as [<-|Hij].
  - destruct (updatePairwise_diagonal m i value) as (m' & Hm' & Hl & Hv & Hother);
      [lia|].
    exists m'. split; [exact Hm'|]. split; [lia|]. intros a b Ha Hb.
    destruct (Nat.eq_dec a i) as [->|]; [destruct (Nat.eq_dec b i) as [->|]|].
    + now rewrite Hv, Hp.
    + rewrite Hother by congruence. now apply Hpos.
    + rewrite Hother by congruence. now apply Hpos.
  - destruct (updatePairwise_off_diagonal m i j value) as (m' & Hm' & Hl & Hv & Hrec & Hother);
      [lia | lia | exact Hij |].
    exists m'. split; [exact Hm'|]. split; [lia|]. intros a b Ha Hb.
    destruct (Nat.eq_dec a i) as [->|Hai]; destruct (Nat.eq_dec b j) as [->|Hbj].
    + now rewrite Hv, Hp.
    + destruct (Nat.eq_dec i j); [contradiction|].
      rewrite Hother by congruence. now apply Hpos.
    + destruct (Nat.eq_dec a j) as [->|]; [|rewrite Hother by congruence; now apply Hpos].
      rewrite Hother by congruence. now apply Hpos.
    + destruct (Nat.eq_dec a j) as [->|]; [destruct (Nat.eq_dec b i) as [->|]|].
      * now rewrite Hrec, Hp.
      * rewrite Hother by congruence. now apply Hpos.
      * rewrite Hother by congruence. now apply Hpos.
Qed.

Lemma apply_edits_keep_positive (edits : list (nat * nat * string)) (m : matrix) :
  positive_3x3 m -> Forall edit_ok edits ->
  exists m', apply_edits m edits = Some m' /\ positive_3x3 m'.
Proof.
  revert m. induction edits as [|[[i j] value] rest IH]; intros m Hm Hall.
  - exists m. now split.
  - inversion Hall as [|e l He Hrest]; subst.
    destruct (updatePairwise_keeps_positive m i j value Hm He) as (m1 & Hm1 & Hpos1).
    cbn [apply_edits]. rewrite Hm1. now apply IH.
Qed.

Lemma DEFAULT_PAIRWISE_positive : positive_3x3 DEFAULT_PAIRWISE.
Proof.
  split; [reflexivity|]. intros a b Ha Hb.
  destruct a as [|[|[|a]]]; try lia;
    destruct b as [|[|[|b]]]; try lia; reflexivity.
Qed.

(** C10 (as the code behaves): an edit whose input parses to 0 or does not
    parse stores 1 in the cell and 1 in the mirror cell; the divisor of the
    reciprocal (the stored value) is never zero or [NaN]; and after any
    sequence of edits of the default matrix whose inputs do not parse or
    parse to finite numbers that are not negative, every entry is
    strictly positive (the mirror of a very small input is [+Infinity]). *)
Theorem edits_keep_matrix_positive (edits : list (nat * nat * string)) :
  (forall m i j value,
      (i < length m)%nat -> (j < length m)%nat ->
      truthy (parseFloat value) = false ->
      exists m', updatePairwise m i j value = Some m'
                 /\ entry m' i j = Fin 1
                 /\ (i <> j -> entry m' j i = Fin 1))
  /\ (forall value, truthy (stored_value value) = true)
  /\ (Forall edit_ok edits ->
      exists m, apply_edits DEFAULT_PAIRWISE edits = Some m
                /\ forall a b, (a < 3)%nat -> (b < 3)%nat ->
                               lt (Fin 0) (entry m a b) = true).
Proof.
  split; [|split].
  - intros m i j value Hi Hj H.
    pose proof (stored_value_default value H) as Hv.
    destruct (Nat.eq_dec i j) as [<-|Hij].
    + destruct (updatePairwise_diagonal m i value Hi) as (m' & Hm' & _ & He & _).
      exists m'. split; [exact Hm'|]. split; [now rewrite He|].
      intros Hne. now elim Hne.
    + destruct (updatePairwise_off_diagonal m i j value Hi Hj Hij)
        as (m' & Hm' & _ & He & Hr & _).
      exists m'. split; [exact Hm'|]. split; [now rewrite He|].
      intros _. rewrite Hr, Hv. vm_compute. reflexivity.
  - apply stored_value_truthy.
  - intros Hall.
    destruct (apply_edits_keep_positive edits DEFAULT_PAIRWISE
                DEFAULT_PAIRWISE_positive Hall) as (m & Hm & _ & Hpos).
    now exists m.
Qed.

Lemma edits_keep_matrix_positive_witness :
  exists m, apply_edits DEFAULT_PAIRWISE example_edits = Some m
            /\ lt (Fin 0) (entry m 0 1) = true /\ lt (Fin 0) (entry m 1 0) = true.
Proof.
  destruct (edits_keep_matrix_positive example_edits) as (_ & _ & H).
  destruct H as (m & Hm & Hpos).
  - repeat constructor.
  - exists m. split; [exact Hm|]. split; apply Hpos; lia.
Defined.

(** C10 (as stated) fails: a negative input is stored as it is, and the
    entry and its mirror are negative after the edit; and the input
    [Infinity] leaves 0 in the mirror cell. *)
Lemma negative_edit_breaks_positivity :
  input_ok "-2" = false
  /\ (exists m, apply_edits DEFAULT_PAIRWISE [(0%nat, 1%nat, "-2"%string)] = Some m
                /\ lt (entry m 0 1) (Fin 0) = true
                /\ lt (entry m 1 0) (Fin 0) = true)
  /\ (exists m, apply_edits DEFAULT_PAIRWISE [(0%nat, 1%nat, "Infinity"%string)] = Some m
                /\ entry m 1 0 = Fin 0).
Proof.
  split; [reflexivity|]. split; eexists; vm_compute; repeat split.
Qed.
(** ** The loop on data of moderate size *)

Lemma Math_round_Fin (y : Q) : Math_round (Fin y) = ofZ (roundZ y).
Proof. reflexivity. Qed.

Lemma clamp_Fin (l u t : Q) :
  Math_min (Fin u) (Math_max (Fin l) (Fin t)) = Fin (Qclamp l u t).
Proof.
  unfold Qclamp. cbn [Math_max lt].
  destruct (Qlt_bool l t); cbn [Math_min lt]; qcases; reflexivity.
Qed.

Lemma Qlt_bool_Qred (a b : Q) : Qlt_bool a (Qred b) = Qlt_bool a b.
Proof.
  pose proof (Qred_correct b) as C.
  destruct (Qlt_bool a (Qred b)) eqn:E1; destruct (Qlt_bool a b) eqn:E2;
    try reflexivity; qprop; lra.
Qed.

Lemma pow2_53 : inject_Z (2 ^ 53) < pow2 1024.
Proof. qconst. Qed.

(** The sum of an integer running total and a proposal of moderate size is
    finite. *)
Lemma expected_Fin (a : Z) (t : Q) :
  (Z.abs a <= 2 ^ 52)%Z -> Qabs t <= inject_Z (2 ^ 50) ->
  add (ofZ a) (Fin t) = Fin (Qred (round_fin (inject_Z a + t))).
Proof.
  intros Ha Ht. unfold ofZ. cbn [add].
  assert (Hsum : Qabs (inject_Z a + t) <= inject_Z (2 ^ 53)).
  { apply Qabs_Qle_condition in Ht. apply Qabs_Qle_condition.
    assert (A1 : inject_Z (- 2 ^ 52) <= inject_Z a) by (rewrite <- Zle_Qle; lia).
    assert (A2 : inject_Z a <= inject_Z (2 ^ 52)) by (rewrite <- Zle_Qle; lia).
    change (inject_Z (2 ^ 50)) with (1125899906842624 # 1) in Ht.
    change (inject_Z (- 2 ^ 52)) with (- (4503599627370496 # 1)) in A1.
    change (inject_Z (2 ^ 52)) with (4503599627370496 # 1) in A2.
    change (inject_Z (2 ^ 53)) with (9007199254740992 # 1). lra. }
  destruct (round64_bounded _ _ (representable_Z (2 ^ 53) ltac:(lia)) pow2_53 Hsum)
    as (e & E' & _).
  destruct (round64_cases (inject_Z a + t)) as [[A E]|[[A E]|[[A1 A2] E]]];
    [congruence | congruence | exact E].
Qed.

(** With an integer running total and a proposal of moderate size, the
    ceiling step and the clamp compute the rational counterpart. *)
Lemma ceil_clamp_Fin (l u t : Q) (c a : Z) :
  (Z.abs a <= 2 ^ 52)%Z -> (Z.abs c <= 2 ^ 52)%Z -> Qabs t <= inject_Z (2 ^ 50) ->
  ceil_clamp (Fin l) (Fin u) (ofZ c) (ofZ a) (Fin t) = Fin (Qceil_clamp l u c a t).
Proof.
  intros Ha Hc Ht. unfold ceil_clamp, Qceil_clamp.
  rewrite (expected_Fin a t Ha Ht). unfold ofZ. cbn [gt lt]. rewrite Qlt_bool_Qred.
  destruct (Qlt_bool (inject_Z c) (round_fin (inject_Z a + t))); [|apply clamp_Fin].
  cbn [sub neg add]. rewrite (round64_Zeq _ (c - a)).
  - unfold ofZ. cbn [Math_max lt].
    destruct (Qlt_bool l (inject_Z (c - a))); apply clamp_Fin.
  - unfold Z.sub. rewrite inject_Z_plus, inject_Z_opp. reflexivity.
  - lia.
Qed.

Lemma Qclamp_bounds (l u t : Q) : l <= u -> l <= Qclamp l u t <= u.
Proof. intros H. unfold Qclamp. cbv zeta. qcases; qprop; lra. Qed.

Lemma Qclamp_mono (l u t1 t2 : Q) :
  t1 <= t2 -> Qclamp l u t1 <= Qclamp l u t2.
Proof. intros H. unfold Qclamp. cbv zeta. qcases; qprop; lra. Qed.

(** The clamp returns a bound or a value between the bounds. *)
Lemma Qclamp_within (l u t B : Q) :
  Qabs l <= B -> Qabs u <= B -> Qabs (Qclamp l u t) <= B.
Proof.
  intros Hl Hu. apply Qabs_Qle_condition in Hl, Hu. apply Qabs_Qle_condition.
  unfold Qclamp. cbv zeta. qcases; qprop; lra.
Qed.

Lemma Qclamp_le (l u t : Q) : Qclamp l u t <= t \/ Qclamp l u t <= l.
Proof. unfold Qclamp. cbv zeta. qcases; qprop; solve [left; lra | right; lra]. Qed.

Lemma Qceil_clamp_bounds (l u : Q) (c a : Z) (t : Q) :
  l <= u -> l <= Qceil_clamp l u c a t <= u.
Proof. intros H. apply Qclamp_bounds, H. Qed.

(** Under the ceiling, the step is the plain clamp. *)
Lemma Qceil_clamp_free (l u : Q) (c a : Z) (t : Q) :
  round_fin (inject_Z a + t) <= inject_Z c -> Qceil_clamp l u c a t = Qclamp l u t.
Proof.
  intros H. unfold Qceil_clamp.
  replace (Qlt_bool (inject_Z c) (round_fin (inject_Z a + t))) with false; [reflexivity|].
  symmetry. now apply Qlt_bool_false.
Qed.

Lemma roundZ_mono (x y : Q) : x <= y -> (roundZ x <= roundZ y)%Z.
Proof. intros H. apply Qfloor_resp_le. lra. Qed.

Lemma roundZ_integer (q : Q) (z : Z) : q == inject_Z z -> roundZ q = z.
Proof.
  intros H. unfold roundZ.
  pose proof (Qfloor_le (q + (1 # 2))) as Hlo.
  pose proof (Qlt_floor (q + (1 # 2))) as Hhi.
  set (f := Qfloor (q + (1 # 2))) in *.
  rewrite H in Hlo, Hhi.
  assert (H1 : inject_Z f < inject_Z (z + 1)).
  { rewrite inject_Z_plus. change (inject_Z 1) with 1. lra. }
  assert (H2 : inject_Z z < inject_Z (f + 1)) by lra.
  rewrite <- Zlt_Qlt in H1, H2. lia.
Qed.

Lemma roundZ_within (x : Q) (B : Z) :
  Qabs x <= inject_Z B -> (Z.abs (roundZ x) <= B)%Z.
Proof.
  intros H. apply Qabs_Qle_condition in H. destruct H as [H1 H2].
  rewrite <- inject_Z_opp in H1.
  apply roundZ_mono in H1, H2.
  rewrite (roundZ_integer (inject_Z (- B)) (- B)) in H1 by reflexivity.
  rewrite (roundZ_integer (inject_Z B) B) in H2 by reflexivity. lia.
Qed.

(** When the rounded sum of the running total and the proposal stays at or
    under the ceiling, the rounded proposal fits in the room left. *)
Lemma free_room (t : Q) (c a : Z) :
  (Z.abs (2 * c + 1) < 2 ^ 53)%Z ->
  round_fin (inject_Z a + t) <= inject_Z c -> (roundZ t <= c - a)%Z.
Proof.
  intros Hc H. destruct (Z_le_gt_dec (roundZ t) (c - a)) as [Hle|Hgt]; [exact Hle|].
  exfalso. pose proof (Qfloor_le (t + (1 # 2))) as Hf. fold (roundZ t) in Hf.
  assert (H1 : inject_Z (c - a + 1) <= inject_Z (roundZ t)) by (rewrite <- Zle_Qle; lia).
  rewrite inject_Z_plus in H1. unfold Z.sub in H1.
  rewrite inject_Z_plus, inject_Z_opp in H1. change (inject_Z 1) with 1 in H1.
  assert (H2 : inject_Z c + (1 # 2) <= inject_Z a + t) by lra.
  apply round_fin_mono in H2.
  rewrite (round_fin_exact (inject_Z c + (1 # 2))) in H2; [lra|].
  exists (2 * c + 1)%Z, (-1)%Z. split; [|split; [exact Hc | lia]].
  rewrite inject_Z_plus, inject_Z_mult. change (pow2 (-1)) with (1 # 2).
  change (inject_Z 2) with 2. change (inject_Z 1) with 1. ring.
Qed.

(** The clamped value never exceeds the larger of the lower bound and the
    room left under the ceiling. *)
Lemma Qceil_clamp_ceiling (l u : Q) (c a : Z) (t : Q) :
  (Z.abs (2 * c + 1) < 2 ^ 53)%Z ->
  (roundZ (Qceil_clamp l u c a t) <= c - a)%Z \/ Qceil_clamp l u c a t <= l.
Proof.
  intros Hc. unfold Qceil_clamp.
  destruct (Qlt_bool (inject_Z c) (round_fin (inject_Z a + t))) eqn:E; qprop.
  - destruct (Qlt_bool l (inject_Z (c - a))) eqn:E2; qprop.
    + destruct (Qclamp_le l u (inject_Z (c - a))) as [H|H]; [left | now right].
      apply roundZ_mono in H.
      now rewrite (roundZ_integer (inject_Z (c - a)) (c - a)) in H by reflexivity.
    + right. destruct (Qclamp_le l u l) as [H|H]; exact H.
  - destruct (Qclamp_le l u t) as [H|H]; [left | now right].
    apply roundZ_mono in H. pose proof (free_room t c a Hc E). lia.
Qed.

Lemma le_Math_max (s c w : Q) :
  s <= c \/ s <= w -> le (Fin s) (Math_max (Fin c) (Fin w)) = true.
Proof.
  intros H. cbn [Math_max lt].
  destruct (Qlt_bool c w) eqn:E; apply le_Fin; qprop; destruct H; lra.
Qed.

(** The twelve ceilings are integers between 0 and [2^25]. *)
Lemma get_cumCapacity_lt (i : nat) :
  (i < 12)%nat -> get cumCapacity i = ofZ (cap_z i) /\ (0 <= cap_z i <= 2 ^ 25)%Z.
Proof.
  intros Hi.
  do 12 (destruct i as [|i]; [split; [reflexivity | split; discriminate]|]). lia.
Qed.

Lemma firstn_allocs (coeffs lower upper : list number) (options : Options) (n k : nat) :
  (k <= n)%nat ->
  firstn k (allocs coeffs lower upper options n) = allocs coeffs lower upper options k.
Proof.
  induction n as [|n IH]; intros Hk.
  - now replace k with 0%nat by lia.
  - destruct (Nat.eq_dec k (S n)) as [->|Hne].
    + apply firstn_all2. rewrite length_allocs. lia.
    + cbn [allocs]. rewrite firstn_app, length_allocs.
      replace (k - n)%nat with 0%nat by lia.
      cbn [firstn]. rewrite app_nil_r. apply IH. lia.
Qed.

Lemma Qabs_inject_Z (z : Z) : Qabs (inject_Z z) = inject_Z (Z.abs z).
Proof. reflexivity. Qed.

Lemma add_ofZ (a z : Z) :
  (Z.abs (a + z) <= 2 ^ 53)%Z -> add (ofZ a) (ofZ z) = ofZ (a + z).
Proof.
  intros H. unfold ofZ at 1 2. cbn [add]. apply round64_Zeq; [|exact H].
  now rewrite inject_Z_plus.
Qed.

Section FiniteRun.

Variables coeffs lower upper : list number.
Variable options : Options.

Hypothesis coeffs_finite : all_finite coeffs = true.
Hypothesis lower_moderate : moderate lower = true.
Hypothesis upper_moderate : moderate upper = true.
Hypothesis lower_length : length lower = length coeffs.
Hypothesis upper_length : length upper = length coeffs.
Hypothesis periods : (length coeffs <= 12)%nat.

Lemma lower_at (i : nat) :
  (i < length coeffs)%nat ->
  get lower i = Fin (lower_q lower i) /\ Qabs (lower_q lower i) <= inject_Z (2 ^ 48).
Proof using All.
  intros Hi. apply within_inv, moderate_get; [assumption | lia].
Qed.

Lemma upper_at (i : nat) :
  (i < length coeffs)%nat ->
  get upper i = Fin (upper_q upper i) /\ Qabs (upper_q upper i) <= inject_Z (2 ^ 48).
Proof using All.
  intros Hi. apply within_inv, moderate_get; [assumption | lia].
Qed.

Lemma target_at_Fin (i : nat) :
  (i < length coeffs)%nat ->
  target_at coeffs lower upper options i = Fin (target_q coeffs lower upper options i)
  /\ Qabs (target_q coeffs lower upper options i) <= inject_Z (2 ^ 50).
Proof using All.
  intros Hi. unfold target_q.
  destruct (target_at_moderate coeffs lower upper options i coeffs_finite Hi)
    as (t & -> & Ht); [apply moderate_get; (assumption || lia)..|].
  now split.
Qed.

Lemma alloc_value_Fin (i : nat) (a : Z) :
  (i < length coeffs)%nat -> (Z.abs a <= 2 ^ 52)%Z ->
  alloc_value coeffs lower upper options i (ofZ a)
  = ofZ (roundZ (Qceil_clamp (lower_q lower i) (upper_q upper i) (cap_z i) a
                   (target_q coeffs lower upper options i))).
Proof using All.
  intros Hi Ha. unfold alloc_value.
  destruct (lower_at i Hi) as [El _]. destruct (upper_at i Hi) as [Eu _].
  destruct (target_at_Fin i Hi) as [Et Ht].
  destruct (get_cumCapacity_lt i) as [Ec Hc]; [lia|].
  rewrite Ec, Et. rewrite El at 1. rewrite Eu at 1.
  rewrite ceil_clamp_Fin by (assumption || lia). apply Math_round_Fin.
Qed.

(** An allocation is at most [2^48] in absolute value. *)
Lemma alloc_within (i : nat) (a : Z) :
  (i < length coeffs)%nat ->
  (Z.abs (roundZ (Qceil_clamp (lower_q lower i) (upper_q upper i) (cap_z i) a
                    (target_q coeffs lower upper options i))) <= 2 ^ 48)%Z.
Proof using All.
  intros Hi. apply roundZ_within. unfold Qceil_clamp.
  apply Qclamp_within; [apply lower_at | apply upper_at]; exact Hi.
Qed.

(** The running total is an integer after every period. *)
Lemma cumulative_integer (k : nat) :
  (k <= length coeffs)%nat ->
  exists a, sum (allocs coeffs lower upper options k) = ofZ a
            /\ (Z.abs a <= Z.of_nat k * 2 ^ 48)%Z.
Proof using All.
  induction k as [|k IH]; intros Hk.
  - exists 0%Z. split; [reflexivity | lia].
  - destruct IH as (a & Ha & Hb); [lia|].
    cbn [allocs]. rewrite sum_snoc, Ha, alloc_value_Fin by lia.
    pose proof (alloc_within k a ltac:(lia)) as Hz.
    set (z := roundZ _) in *.
    exists (a + z)%Z. split; [apply add_ofZ; lia | lia].
Qed.

(** What one period guarantees. *)
Lemma period_guarantees (i : nat) (a : Z) :
  (i < length coeffs)%nat ->
  lower_q lower i <= upper_q upper i ->
  let z := roundZ (Qceil_clamp (lower_q lower i) (upper_q upper i) (cap_z i) a
                     (target_q coeffs lower upper options i)) in
  (roundZ (lower_q lower i) <= z <= roundZ (upper_q upper i))%Z
  /\ ((a + z <= cap_z i)%Z \/ (z <= roundZ (lower_q lower i))%Z).
Proof using All.
  intros Hi Hlu z.
  pose proof (Qceil_clamp_bounds (lower_q lower i) (upper_q upper i) (cap_z i) a
                (target_q coeffs lower upper options i) Hlu) as [Hlo Hhi].
  split; [split; apply roundZ_mono; assumption|].
  destruct (get_cumCapacity_lt i) as [_ Hc]; [lia|].
  destruct (Qceil_clamp_ceiling (lower_q lower i) (upper_q upper i) (cap_z i) a
              (target_q coeffs lower upper options i)) as [H|H]; [lia | |].
  - left. fold z in H. lia.
  - right. now apply roundZ_mono.
Qed.

End FiniteRun.
(** ** Bounds and ceiling of the allocation *)

Lemma is_integer_round (x : number) :
  is_integer x = true -> exists z, x = Fin (val x) /\ val x == inject_Z z
                                   /\ Math_round x = ofZ z.
Proof.
  destruct x as [q| | |]; try discriminate. cbn [is_integer val].
  intros H. qprop. exists (Qfloor q). split; [reflexivity|]. split; [exact H|].
  rewrite Math_round_Fin. f_equal. now apply roundZ_integer.
Qed.

(** C1 (as the code behaves): on twelve periods with finite coefficients
    and bounds of moderate size (at most [2^48] in absolute value) with
    [lower_i <= upper_i], every allocation lies between [Math.round(lower_i)]
    and [Math.round(upper_i)], hence between [lower_i] and [upper_i] when
    these are integers; and the running total through period [i] never
    exceeds the larger of the ceiling of month [i] and the running total
    before the period plus [Math.round(lower_i)]: the ceiling holds except
    where the period's lower bound forces the total above it. *)
Theorem allocation_bounds_and_ceiling
  (coeffs lower upper : list number) (options : Options) :
  length coeffs = 12%nat -> length lower = 12%nat -> length upper = 12%nat ->
  all_finite coeffs = true -> moderate lower = true -> moderate upper = true ->
  (forall i, (i < 12)%nat -> le (get lower i) (get upper i) = true) ->
  forall i, (i < 12)%nat ->
    let sol := solution (solveLPHeuristic coeffs lower upper options) in
    le (Math_round (get lower i)) (get sol i) = true
    /\ le (get sol i) (Math_round (get upper i)) = true
    /\ (is_integer (get lower i) = true -> le (get lower i) (get sol i) = true)
    /\ (is_integer (get upper i) = true -> le (get sol i) (get upper i) = true)
    /\ le (running_total sol (S i))
          (Math_max (get cumCapacity i)
                    (add (running_total sol i) (Math_round (get lower i)))) = true.
Proof.
  intros Hn Hnl Hnu Hc Hl Hu Hord i Hi sol. subst sol.
  assert (Hi' : (i < length coeffs)%nat) by lia.
  assert (Hll : length lower = length coeffs) by lia.
  assert (Hlu : length upper = length coeffs) by lia.
  assert (Hp : (length coeffs <= 12)%nat) by lia.
  rewrite solution_allocs. unfold running_total.
  rewrite !firstn_allocs by lia. rewrite get_allocs by lia.
  cbn [allocs]. rewrite sum_snoc.
  destruct (cumulative_integer coeffs lower upper options Hc Hl Hu Hll Hlu Hp i)
    as (a & Ha & Hab); [lia|].
  assert (Ha52 : (Z.abs a <= 2 ^ 52)%Z) by lia.
  rewrite Ha, (alloc_value_Fin coeffs lower upper options Hc Hl Hu Hll Hlu Hp) by lia.
  destruct (lower_at coeffs lower upper options Hc Hl Hu Hll Hlu Hp i Hi') as [Hfl Hbl].
  destruct (upper_at coeffs lower upper options Hc Hl Hu Hll Hlu Hp i Hi') as [Hfu Hbu].
  assert (Hq : lower_q lower i <= upper_q upper i).
  { specialize (Hord i Hi). rewrite Hfl, Hfu in Hord. now apply le_Fin. }
  destruct (period_guarantees coeffs lower upper options Hc Hl Hu Hll Hlu Hp i a Hi' Hq)
    as [[Hlo Hhi] Hceil].
  pose proof (alloc_within coeffs lower upper options Hc Hl Hu Hll Hlu Hp i a Hi') as Hz.
  set (z := roundZ (Qceil_clamp _ _ _ _ _)) in *.
  assert (Hrl : Math_round (get lower i) = ofZ (roundZ (lower_q lower i))).
  { now rewrite Hfl at 1. }
  assert (Hru : Math_round (get upper i) = ofZ (roundZ (upper_q upper i))).
  { now rewrite Hfu at 1. }
  pose proof (roundZ_within _ _ Hbl) as Hrb.
  pose proof Hlo as Hlo'. pose proof Hhi as Hhi'.
  rewrite Zle_Qle in Hlo', Hhi'.
  split; [rewrite Hrl; now apply le_Fin|].
  split; [rewrite Hru; now apply le_Fin|].
  split; [|split].
  - intros Hint. destruct (is_integer_round _ Hint) as (w & _ & Hw & Hr).
    rewrite Hrl in Hr. injection Hr as Hr.
    rewrite Hfl in Hw |- *. cbn [val] in Hw. apply le_Fin. rewrite Hw, <- Hr. exact Hlo'.
  - intros Hint. destruct (is_integer_round _ Hint) as (w & _ & Hw & Hr).
    rewrite Hru in Hr. injection Hr as Hr.
    rewrite Hfu in Hw |- *. cbn [val] in Hw. apply le_Fin. rewrite Hw, <- Hr. exact Hhi'.
  - rewrite Hrl. destruct (get_cumCapacity_lt i Hi) as [Hcap _].
    rewrite Hcap, !add_ofZ by lia. unfold ofZ.
    apply le_Math_max. rewrite <- !Zle_Qle. lia.
Qed.

Lemma allocation_bounds_and_ceiling_witness :
  let sol := solution (solveLPHeuristic (turnover DEFAULT_DATA) flat_lower
                         (capacity DEFAULT_DATA)
                         {| maximize := true; strategy := Some "aggressive"%string |}) in
  le (Math_round (get flat_lower 11)) (get sol 11) = true
  /\ le (get sol 11) (Math_round (get (capacity DEFAULT_DATA) 11)) = true
  /\ le (running_total sol 12)
        (Math_max (get cumCapacity 11)
                  (add (running_total sol 11) (Math_round (get flat_lower 11)))) = true.
Proof.
  cbv zeta.
  pose proof (allocation_bounds_and_ceiling (turnover DEFAULT_DATA) flat_lower
                (capacity DEFAULT_DATA)
                {| maximize := true; strategy := Some "aggressive"%string |}) as H.
  destruct (H eq_refl eq_refl eq_refl eq_refl eq_refl eq_refl) with (i := 11%nat)
    as (H1 & H2 & _ & _ & H5).
  - intros i Hi. do 12 (destruct i as [|i]; [reflexivity|]). lia.
  - lia.
  - split; [exact H1 | split; [exact H2 | exact H5]].
Defined.

(** C1 (as stated) fails on both counts: a lower bound above the room left
    under the ceiling takes the running total over the ceiling, and bounds
    that are not integers are left by the final rounding. *)
Lemma ceiling_and_bounds_can_fail :
  (let sol := solution (solveLPHeuristic unit_coeffs forced_lower forced_lower
                          {| maximize := true; strategy := Some "balanced"%string |}) in
   bounds_ordered forced_lower forced_lower = true
   /\ gt (running_total sol 1) (get cumCapacity 0) = true)
  /\ (let sol := solution (solveLPHeuristic unit_coeffs half_bounds half_bounds
                             {| maximize := true; strategy := Some "balanced"%string |}) in
      bounds_ordered half_bounds half_bounds = true
      /\ gt (get sol 0) (get half_bounds 0) = true).
Proof. vm_compute. repeat split. Qed.
(** ** Sums of rounded numbers *)

(** A rounding in the normal range, between two doubles: the result is a
    double between them, within the relative error [2^-53]. *)
Lemma round64_rel (q lo hi : Q) :
  pow2 (-1022) <= lo -> representable lo -> representable hi -> hi < pow2 1024 ->
  lo <= q <= hi ->
  exists r, round64 q = Fin r /\ lo <= r <= hi /\ representable r
            /\ r == round_fin q
            /\ q * (1 - pow2 (-53)) <= r <= q * (1 + pow2 (-53)).
Proof.
  intros Hn Hlo Hhi Hb Hq.
  pose proof (pow2_pos (-1022)) as P. pose proof pow2_1024_pos as P'.
  destruct (round64_between q lo hi Hlo Hhi) as (r & E & Hr & Er); [lra | exact Hb | exact Hq |].
  exists r. split; [exact E|]. split; [exact Hr|].
  split; [now apply round64_Fin in E|]. split; [exact Er|].
  assert (Hq0 : 0 < q) by lra.
  pose proof (round_fin_relative q) as Hrel.
  rewrite (Qabs_pos q) in Hrel by lra. specialize (Hrel ltac:(lra)).
  apply Qabs_Qle_condition in Hrel. lra.
Qed.

Lemma Qsum_snoc (xs : list Q) (x : Q) : Qsum (xs ++ [x]) == Qsum xs + x.
Proof.
  induction xs as [|y ys IH]; cbn [app Qsum fold_right].
  - lra.
  - fold (Qsum (ys ++ [x])). fold (Qsum ys). rewrite IH. lra.
Qed.

Lemma representable_scaled (k b : Z) :
  (Z.abs k < 2 ^ 53)%Z -> (-1074 <= b)%Z -> representable (inject_Z k * pow2 b).
Proof. intros Hk Hb. exists k, b. split; [reflexivity|]. now split. Qed.

Lemma scaled_below (k b : Z) :
  (0 <= k <= 2 ^ 16)%Z -> (b <= 1000)%Z -> inject_Z k * pow2 b < pow2 1024.
Proof.
  intros Hk Hb.
  assert (H1 : inject_Z k <= pow2 16).
  { rewrite (pow2_Z 16) by lia. rewrite <- Zle_Qle. lia. }
  assert (H2 : pow2 b <= pow2 1000) by (apply pow2_le; lia).
  assert (H3 : pow2 16 * pow2 1000 < pow2 1024).
  { rewrite <- pow2_add. apply pow2_lt. lia. }
  pose proof (pow2_pos b) as Pb. pose proof (pow2_pos 16) as P16.
  assert (H0 : 0 <= inject_Z k) by (change 0 with (inject_Z 0); rewrite <- Zle_Qle; lia).
  nra.
Qed.

(** The error of [n] rounded additions, as a multiple of [2^-53]. *)
Lemma count_error (n : nat) :
  (Z.of_nat n <= 65536)%Z ->
  0 <= inject_Z (Z.of_nat n) * pow2 (-53) <= pow2 (-37).
Proof.
  intros Hn.
  assert (H0 : 0 <= inject_Z (Z.of_nat n)).
  { change 0 with (inject_Z 0). rewrite <- Zle_Qle. lia. }
  assert (H1 : inject_Z (Z.of_nat n) <= pow2 16).
  { rewrite (pow2_Z 16) by lia. rewrite <- Zle_Qle. change (2 ^ 16)%Z with 65536%Z. lia. }
  assert (H3 : pow2 16 * pow2 (-53) == pow2 (-37)) by (rewrite <- pow2_add; reflexivity).
  pose proof (pow2_pos (-53)) as Pu. split; nra.
Qed.

(** The sum, computed from left to right, of at most [2^16] numbers between
    [2^a] and [2^b]: it is finite, at least every double of the list, and
    within the relative error [2 n 2^-53] of the exact sum. *)
Lemma rounded_sum (a b : Z) (xs : list Q) :
  (-1022 <= a <= b)%Z -> (b <= 1000)%Z ->
  xs <> [] -> (Z.of_nat (length xs) <= 65536)%Z ->
  Forall (fun x => pow2 a <= x <= pow2 b) xs ->
  let e := inject_Z (Z.of_nat (length xs)) * pow2 (-53) in
  exists T, sum (map Fin xs) = Fin T
            /\ pow2 a <= T <= inject_Z (Z.of_nat (length xs)) * pow2 b
            /\ representable T
            /\ 0 <= Qsum xs
            /\ Qsum xs * (1 - e) <= T <= Qsum xs * (1 + 2 * e)
            /\ Forall (fun x => representable x -> x <= T) xs.
Proof.
  intros Hab Hb. induction xs as [|x ys IH] using rev_ind; [congruence|].
  intros _ Hlen Hall. apply Forall_app in Hall. destruct Hall as [Hys Hx].
  inversion Hx as [|x' l' Hx' _]; subst. clear Hx.
  rewrite length_app in Hlen |- *. cbn [length] in Hlen |- *.
  rewrite map_app. cbn [map]. rewrite sum_snoc.
  pose proof (pow2_pos a) as Pa. pose proof (pow2_pos b) as Pb.
  pose proof (pow2_pos (-53)) as Pu.
  assert (Hlow : pow2 (-1022) <= pow2 a) by (apply pow2_le; lia).
  assert (Hra : representable (pow2 a)) by (apply representable_pow2; lia).
  destruct ys as [|y ys'].
  - cbn [sum fold_left map add length Nat.add]. cbv zeta.
    change (sum []) with (Fin 0). cbn [add].
    destruct (round64_rel (0 + x) (pow2 a) (pow2 b)) as (r & -> & Hr & Rr & Er & Hrel);
      [exact Hlow | exact Hra | apply representable_pow2; lia | apply pow2_lt; lia | lra |].
    exists r. split; [reflexivity|].
    change (inject_Z (Z.of_nat 1)) with 1.
    split; [lra|]. split; [exact Rr|].
    cbn [app Qsum fold_right].
    split; [lra|]. split; [split; nra|].
    constructor; [|constructor].
    intros Hrx. rewrite Er.
    rewrite (round_fin_compat (0 + x) x) by lra. rewrite (round_fin_exact x Hrx). lra.
  - set (zs := y :: ys') in *.
    destruct IH as (T' & ET & HT & RT & HS & Herr & Hle);
      [discriminate | lia | exact Hys |].
    cbv zeta in Herr. rewrite ET. cbn [add].
    set (k := length zs) in *.
    assert (Hk : (1 <= Z.of_nat k <= 65535)%Z) by (unfold k, zs in *; cbn [length] in *; lia).
    replace (Z.of_nat (k + 1)) with (Z.of_nat k + 1)%Z by lia.
    rewrite inject_Z_plus. change (inject_Z 1) with 1.
    set (K := inject_Z (Z.of_nat k)) in *.
    assert (HK : 0 <= K).
    { unfold K. change 0 with (inject_Z 0). rewrite <- Zle_Qle. lia. }
    destruct (count_error k ltac:(lia)) as [He0 He1]. fold K in He0, He1.
    assert (P37 : pow2 (-37) <= 1 # 4) by qconst.
    destruct (round64_rel (T' + x) (pow2 a) ((K + 1) * pow2 b))
      as (r & -> & Hr & Rr & Er & Hrel).
    + exact Hlow.
    + exact Hra.
    + unfold K. rewrite <- (inject_Z_plus _ 1).
      apply representable_scaled; [|lia].
      assert (2 ^ 16 < 2 ^ 53)%Z by (apply Z.pow_lt_mono_r; lia).
      change (2 ^ 16)%Z with 65536%Z in *. lia.
    + unfold K. rewrite <- (inject_Z_plus _ 1).
      apply scaled_below; [|lia]. change (2 ^ 16)%Z with 65536%Z. lia.
    + split; nra.
    + exists r. split; [reflexivity|]. split; [exact Hr|]. split; [exact Rr|].
      rewrite Qsum_snoc.
      set (S' := Qsum zs) in *. set (u := pow2 (-53)) in *.
      assert (Hu1 : u <= 1 # 4) by (unfold u; qconst).
      assert (M1 : 0 <= S' * (K * u)) by nra.
      assert (M2 : 0 <= S' * (K * u) * u) by nra.
      assert (M3 : 0 <= x * (K * u)) by nra.
      assert (M4 : 0 <= S' * u) by nra.
      assert (M5 : 0 <= x * u) by nra.
      assert (M6 : 0 <= T' * u) by nra.
      split; [lra|]. split; [split|].
      { apply Qle_trans with ((T' + x) * (1 - u)); [|lra].
        apply Qle_trans with ((S' * (1 - K * u) + x) * (1 - u)); nra. }
      { apply Qle_trans with ((T' + x) * (1 + u)); [lra|].
        apply Qle_trans with ((S' * (1 + 2 * (K * u)) + x) * (1 + u)); nra. }
      apply Forall_app. split.
      * eapply Forall_impl; [|exact Hle]. cbn beta. intros z Hz Hrz.
        specialize (Hz Hrz).
        assert (Hm : round_fin T' <= round_fin (T' + x)) by (apply round_fin_mono; lra).
        rewrite (round_fin_exact T' RT) in Hm. lra.
      * constructor; [|constructor]. intros Hrx.
        assert (Hm : round_fin x <= round_fin (T' + x)) by (apply round_fin_mono; lra).
        rewrite (round_fin_exact x Hrx) in Hm. lra.
Qed.
(** ** The AHP weights *)

Lemma column_loop (m : matrix) (j k : nat) (cs : list number) :
  let cs' := for_loop k (fun colSums i =>
                 set colSums j (add (get colSums j) (entry m i j))) cs in
  get cs' j = fold_left add (map (fun i => entry m i j) (seq 0 k)) (get cs j)
  /\ forall j', j' <> j -> get cs' j' = get cs j'.
Proof.
  induction k as [|k [IH1 IH2]]; cbv zeta.
  - split; reflexivity.
  - rewrite for_loop_S. split.
    + rewrite get_set_same, IH1, seq_S, map_app, fold_left_app. reflexivity.
    + intros j' Hj'. rewrite get_set_other by congruence. now apply IH2.
Qed.

Lemma colSums_loop (m : matrix) (k : nat) :
  let n := length m in
  let cs := for_loop k (fun colSums j =>
              for_loop n (fun colSums i =>
                set colSums j (add (get colSums j) (entry m i j))) colSums)
              (repeat (Fin 0) n) in
  forall j, get cs j = if (j <? k)%nat
                       then fold_left add (map (fun i => entry m i j) (seq 0 n))
                              (get (repeat (Fin 0) n) j)
                       else get (repeat (Fin 0) n) j.
Proof.
  cbv zeta. induction k as [|k IH]; intros j.
  - reflexivity.
  - rewrite for_loop_S.
    destruct (column_loop m k (length m)
                (for_loop k (fun colSums j0 =>
                   for_loop (length m) (fun colSums0 i =>
                     set colSums0 j0 (add (get colSums0 j0) (entry m i j0))) colSums)
                   (repeat (Fin 0) (length m)))) as [H1 H2].
    destruct (Nat.eq_dec j k) as [->|Hne].
    + rewrite H1, IH.
      replace (k <? k)%nat with false by (symmetry; apply Nat.ltb_ge; lia).
      replace (k <? S k)%nat with true by (symmetry; apply Nat.ltb_lt; lia).
      reflexivity.
    + rewrite H2, IH by exact Hne.
      destruct (j <? k)%nat eqn:E.
      * apply Nat.ltb_lt in E.
        replace (j <? S k)%nat with true by (symmetry; apply Nat.ltb_lt; lia).
        reflexivity.
      * apply Nat.ltb_ge in E.
        replace (j <? S k)%nat with false by (symmetry; apply Nat.ltb_ge; lia).
        reflexivity.
Qed.

Lemma get_repeat_zero (n j : nat) :
  (j < n)%nat -> get (repeat (Fin 0) n) j = Fin 0.
Proof.
  intros H. unfold get. apply nth_repeat_lt. exact H.
Qed.

Lemma get_colSums (m : matrix) (j : nat) :
  (j < length m)%nat -> get (colSums_of m) j = column_sum m j.
Proof.
  intros Hj. unfold colSums_of, column_sum.
  rewrite (colSums_loop m (length m) j).
  replace (j <? length m)%nat with true by (symmetry; now apply Nat.ltb_lt).
  now rewrite get_repeat_zero.
Qed.

Lemma between_inv (a b : Z) (x : number) :
  between_pow2 a b x = true -> exists q, x = Fin q /\ pow2 a <= q <= pow2 b.
Proof.
  destruct x as [q| | |]; try discriminate. cbn [between_pow2].
  rewrite andb_true_iff. intros [H1 H2]. qprop. now exists q.
Qed.

Lemma between_Fin (a b : Z) (q : Q) :
  pow2 a <= q <= pow2 b -> between_pow2 a b (Fin q) = true.
Proof.
  intros [H1 H2]. cbn [between_pow2]. apply andb_true_iff.
  split; now apply Qle_bool_iff.
Qed.

Lemma between_list_inv (a b : Z) (xs : list number) :
  forallb (between_pow2 a b) xs = true ->
  xs = map Fin (map val xs) /\ Forall (fun x => pow2 a <= x <= pow2 b) (map val xs).
Proof.
  induction xs as [|x xs IH]; intros H; [split; [reflexivity | constructor]|].
  cbn [forallb] in H. apply andb_true_iff in H. destruct H as [Hx Hxs].
  destruct (IH Hxs) as [E Hall]. destruct (between_inv _ _ _ Hx) as (q & -> & Hq).
  cbn [map val]. split; [now rewrite <- E | now constructor].
Qed.

(** The sum of at most [2^16] numbers between [2^a] and [2^b]. *)
Lemma sum_between (a b : Z) (xs : list number) :
  (-1022 <= a <= b)%Z -> (b <= 1000)%Z ->
  xs <> [] -> (Z.of_nat (length xs) <= 65536)%Z ->
  forallb (between_pow2 a b) xs = true ->
  between_pow2 a (b + 16) (sum xs) = true.
Proof.
  intros Hab Hb Hne Hlen Hall.
  destruct (between_list_inv _ _ _ Hall) as [E Hq].
  destruct (rounded_sum a b (map val xs)) as (T & ET & [HT1 HT2] & _).
  - exact Hab.
  - exact Hb.
  - intros Hnil. apply map_eq_nil in Hnil. contradiction.
  - now rewrite length_map.
  - exact Hq.
  - rewrite E, ET. apply between_Fin. split; [exact HT1|].
    rewrite length_map in HT2.
    assert (H1 : inject_Z (Z.of_nat (length xs)) <= pow2 16).
    { rewrite (pow2_Z 16) by lia. rewrite <- Zle_Qle. exact Hlen. }
    assert (H0 : 0 <= inject_Z (Z.of_nat (length xs))).
    { change 0 with (inject_Z 0). rewrite <- Zle_Qle. lia. }
    rewrite Z.add_comm, pow2_add. pose proof (pow2_pos b). nra.
Qed.

(** The quotient of two numbers between powers of two. *)
Lemma div_between (a b c d : Z) (x y : number) :
  (-1022 <= a - d)%Z -> (b - c <= 1023)%Z ->
  between_pow2 a b x = true -> between_pow2 c d y = true ->
  between_pow2 (a - d) (b - c) (div x y) = true
  /\ representable (val (div x y)).
Proof.
  intros Hlo Hhi Hx Hy.
  destruct (between_inv _ _ _ Hx) as (p & -> & X1 & X2).
  destruct (between_inv _ _ _ Hy) as (q & -> & Y1 & Y2).
  pose proof (pow2_pos c) as Pc. pose proof (pow2_pos (a - d)) as Pad.
  pose proof (pow2_pos (b - c)) as Pbc. pose proof pow2_1024_pos as Pm.
  assert (Hab : (a <= b)%Z).
  { destruct (Z_le_gt_dec a b) as [H|H]; [exact H|].
    pose proof (pow2_lt b a ltac:(lia)). lra. }
  assert (Hcd : (c <= d)%Z).
  { destruct (Z_le_gt_dec c d) as [H|H]; [exact H|].
    pose proof (pow2_lt d c ltac:(lia)). lra. }
  cbn [div].
  replace (Qeq_bool q 0) with false by (symmetry; apply Qeq_bool_false; lra).
  assert (E1 : pow2 (a - d) * pow2 d == pow2 a).
  { rewrite <- pow2_add. now replace (a - d + d)%Z with a by lia. }
  assert (E2 : pow2 (b - c) * pow2 c == pow2 b).
  { rewrite <- pow2_add. now replace (b - c + c)%Z with b by lia. }
  destruct (round64_between (p / q) (pow2 (a - d)) (pow2 (b - c)))
    as (r & E & Hr & _).
  - apply representable_pow2. lia.
  - apply representable_pow2. lia.
  - lra.
  - apply pow2_lt. lia.
  - split.
    + apply Qle_shift_div_l; [lra|]. nra.
    + apply Qle_shift_div_r; [lra|]. nra.
  - rewrite E. split; [now apply between_Fin|].
    apply round64_Fin in E. tauto.
Qed.

Lemma or_between (a b : Z) (x y : number) : between_pow2 a b x = true -> or x y = x.
Proof.
  intros Hx. destruct (between_inv _ _ _ Hx) as (q & -> & H1 & _).
  unfold or. cbn [truthy]. pose proof (pow2_pos a).
  replace (Qeq_bool q 0) with false by (symmetry; apply Qeq_bool_false; lra).
  reflexivity.
Qed.

Lemma ofNat_between (n : nat) :
  (1 <= n)%nat -> (Z.of_nat n <= 65536)%Z -> between_pow2 0 16 (ofNat n) = true.
Proof.
  intros H1 H2. apply between_Fin. split.
  - change (pow2 0) with (inject_Z 1). rewrite <- Zle_Qle. lia.
  - rewrite (pow2_Z 16) by lia. rewrite <- Zle_Qle. exact H2.
Qed.

Lemma mapi_from_forall (P R : number -> bool) (f : number -> nat -> number)
  (k : nat) (row : list number) :
  (forall x j, (k <= j < k + length row)%nat -> P x = true -> R (f x j) = true) ->
  forallb P row = true ->
  forallb R (mapi_from f k row) = true
  /\ length (mapi_from f k row) = length row.
Proof.
  revert k. induction row as [|x row IH]; intros k Hf Hrow; [now split|].
  cbn [forallb] in Hrow. apply andb_true_iff in Hrow. destruct Hrow as [Hx Hrow].
  destruct (IH (S k)) as [H1 H2]; [|exact Hrow|].
  - intros y j Hj. apply Hf. cbn [length]. lia.
  - cbn [mapi_from forallb length]. rewrite H1, H2, Hf; [now split | | exact Hx].
    cbn [length]. lia.
Qed.

Section Pairwise.

Variable m : matrix.
Hypothesis well_formed : moderate_matrix m = true.

Lemma matrix_size : (1 <= length m)%nat /\ (Z.of_nat (length m) <= 65536)%Z.
Proof.
  unfold moderate_matrix in well_formed. rewrite !andb_true_iff in well_formed.
  destruct well_formed as [[H1 H2] _].
  apply Nat.leb_le in H1. apply Z.leb_le in H2. now split.
Qed.

Lemma matrix_row (row : list number) :
  In row m ->
  length row = length m /\ forallb (between_pow2 (-200) 200) row = true.
Proof.
  intros Hin. unfold moderate_matrix in well_formed.
  apply andb_true_iff in well_formed. destruct well_formed as [_ H].
  rewrite forallb_forall in H. specialize (H row Hin).
  apply andb_true_iff in H. destruct H as [H1 H2].
  split; [now apply Nat.eqb_eq | exact H2].
Qed.

Lemma entry_between (i j : nat) :
  (i < length m)%nat -> (j < length m)%nat ->
  between_pow2 (-200) 200 (entry m i j) = true.
Proof.
  intros Hi Hj. unfold entry, get.
  destruct (matrix_row (nth i m [])) as [Hlen Hpos]; [now apply nth_In|].
  rewrite forallb_forall in Hpos. apply Hpos, nth_In. lia.
Qed.

Lemma column_sum_between (j : nat) :
  (j < length m)%nat -> between_pow2 (-200) 216 (column_sum m j) = true.
Proof.
  intros Hj. destruct matrix_size as [Hn1 Hn2]. unfold column_sum.
  apply (sum_between (-200) 200); try lia.
  - destruct (length m) as [|n]; [lia | discriminate].
  - now rewrite length_map, length_seq.
  - apply forallb_forall. intros x Hx. apply in_map_iff in Hx.
    destruct Hx as (i & <- & Hi). apply in_seq in Hi.
    apply entry_between; lia.
Qed.

(** The row averages are doubles between [2^-432] and [2^416]. *)
Lemma row_averages_between :
  forallb (between_pow2 (-432) 416) (row_averages m) = true
  /\ Forall (fun w => representable (val w)) (row_averages m)
  /\ length (row_averages m) = length m.
Proof.
  destruct matrix_size as [Hn1 Hn2].
  unfold row_averages. rewrite map_map, length_map.
  assert (Hrow : forall row, In row m ->
            between_pow2 (-432) 416
              (div (sum (mapi (fun v j => div v (or (get (colSums_of m) j) (Fin 1))) row))
                   (ofNat (length m))) = true
            /\ representable
                 (val (div (sum (mapi (fun v j => div v (or (get (colSums_of m) j) (Fin 1))) row))
                           (ofNat (length m))))).
  { intros row Hin. destruct (matrix_row row Hin) as [Hlen Hpos].
    destruct (mapi_from_forall (between_pow2 (-200) 200) (between_pow2 (-416) 400)
                (fun v j => div v (or (get (colSums_of m) j) (Fin 1))) 0 row)
      as [Hnorm Hnlen]; [|exact Hpos|].
    - intros x j Hj Hx. rewrite get_colSums by lia.
      rewrite (or_between (-200) 216) by (apply column_sum_between; lia).
      apply (div_between (-200) 200 (-200) 216); [lia | lia | exact Hx |].
      apply column_sum_between. lia.
    - apply (div_between (-416) 416 0 16); [lia | lia | | now apply ofNat_between].
      apply (sum_between (-416) 400); try lia.
      + unfold mapi. intros E. rewrite E in Hnlen. cbn [length] in Hnlen. lia.
      + unfold mapi. rewrite Hnlen. lia.
      + exact Hnorm. }
  split; [|split; [|reflexivity]].
  - apply forallb_forall. intros w Hw. apply in_map_iff in Hw.
    destruct Hw as (row & <- & Hin). now apply Hrow.
  - apply Forall_forall. intros w Hw. apply in_map_iff in Hw.
    destruct Hw as (row & <- & Hin). now apply Hrow.
Qed.

End Pairwise.

Lemma Qsum_div (qs : list Q) (T : Q) (w : Q) :
  ~ T == 0 -> (w + Qsum qs) / T == w / T + Qsum qs / T.
Proof. intros HT. field. exact HT. Qed.

(** The division of doubles of [[2^c T, T]] by [T]: the quotients are
    between [2^c] and 1, and their exact sum is within the relative error
    [2^-53] of the quotient of the sum. *)
Lemma normalized_list (c : Z) (T : Q) (ws : list Q) :
  (-1022 <= c <= 0)%Z -> 0 < T ->
  Forall (fun w => pow2 c * T <= w <= T) ws ->
  exists qs,
    map (fun w => div w (Fin T)) (map Fin ws) = map Fin qs
    /\ length qs = length ws
    /\ Forall (fun q => pow2 c <= q <= pow2 0) qs
    /\ (Qsum ws / T) * (1 - pow2 (-53)) <= Qsum qs <= (Qsum ws / T) * (1 + pow2 (-53)).
Proof.
  intros Hc HT. induction ws as [|w ws IH]; intros Hall.
  - exists []. split; [reflexivity|]. split; [reflexivity|]. split; [constructor|].
    cbn [Qsum fold_right]. unfold Qdiv. split; lra.
  - inversion Hall as [|w' l' Hw Hws]; subst.
    destruct (IH Hws) as (qs & E & Hlen & Hqs & Hsum).
    cbn [map div].
    replace (Qeq_bool T 0) with false by (symmetry; apply Qeq_bool_false; lra).
    pose proof (pow2_pos c) as Pc.
    destruct (round64_rel (w / T) (pow2 c) (pow2 0)) as (q & Eq & Hq & _ & _ & Hrel).
    + apply pow2_le. lia.
    + apply representable_pow2. lia.
    + apply representable_pow2. lia.
    + apply pow2_lt. lia.
    + change (pow2 0) with 1. split.
      * apply Qle_shift_div_l; lra.
      * apply Qle_shift_div_r; lra.
    + exists (q :: qs). rewrite Eq, E. split; [reflexivity|].
      split; [cbn [length]; now rewrite Hlen|]. split; [now constructor|].
      cbn [Qsum fold_right]. fold (Qsum ws). fold (Qsum qs).
      rewrite Qsum_div by lra. split; lra.
Qed.

(** The re-normalization of doubles between [2^-432] and [2^416]: the
    quotients are between 0 and 1 and their computed sum is within [2^-31]
    of 1. *)
Lemma normalized_sum (ws : list Q) :
  ws <> [] -> (Z.of_nat (length ws) <= 65536)%Z ->
  Forall (fun w => pow2 (-432) <= w <= pow2 416) ws ->
  Forall representable ws ->
  let total := or (sum (map Fin ws)) (Fin 1) in
  exists qs s,
    map (fun w => div w total) (map Fin ws) = map Fin qs
    /\ length qs = length ws
    /\ Forall (fun q => 0 <= q <= 1) qs
    /\ sum (map Fin qs) = Fin s
    /\ Qabs (s - 1) <= pow2 (-31).
Proof.
  intros Hne Hlen Hall Hrep. cbv zeta.
  destruct (rounded_sum (-432) 416 ws) as (T & ET & [HT1 HT2] & _ & HS & Herr & Hle);
    [lia | lia | exact Hne | exact Hlen | exact Hall |].
  cbv zeta in Herr. rewrite ET.
  rewrite (or_between (-432) 432).
  2:{ apply between_Fin. split; [exact HT1|].
      assert (H1 : inject_Z (Z.of_nat (length ws)) <= pow2 16).
      { rewrite (pow2_Z 16) by lia. rewrite <- Zle_Qle. exact Hlen. }
      assert (H0 : 0 <= inject_Z (Z.of_nat (length ws))).
      { change 0 with (inject_Z 0). rewrite <- Zle_Qle. lia. }
      change 432%Z with (16 + 416)%Z. rewrite pow2_add. pose proof (pow2_pos 416). nra. }
  pose proof (pow2_pos (-432)) as P1.
  assert (HT0 : 0 < T) by lra.
  assert (HTup : T <= pow2 432).
  { assert (H1 : inject_Z (Z.of_nat (length ws)) <= pow2 16).
    { rewrite (pow2_Z 16) by lia. rewrite <- Zle_Qle. exact Hlen. }
    assert (H0 : 0 <= inject_Z (Z.of_nat (length ws))).
    { change 0 with (inject_Z 0). rewrite <- Zle_Qle. lia. }
    change 432%Z with (16 + 416)%Z. rewrite pow2_add. pose proof (pow2_pos 416). nra. }
  destruct (normalized_list (-864) T ws) as (qs & Eqs & Hqlen & Hqs & Hqsum);
    [lia | exact HT0 | |].
  { rewrite Forall_forall in Hall, Hrep, Hle. apply Forall_forall. intros w Hw.
    specialize (Hall w Hw). specialize (Hle w Hw (Hrep w Hw)).
    split; [|exact Hle].
    assert (E : pow2 (-864) * pow2 432 == pow2 (-432)) by (rewrite <- pow2_add; reflexivity).
    pose proof (pow2_pos (-864)). nra. }
  assert (Hqne : qs <> []).
  { intros E. rewrite E in Hqlen. destruct ws; [congruence | discriminate]. }
  destruct (rounded_sum (-864) 0 qs) as (s & Es & _ & _ & HQ & Herr2 & _);
    [lia | lia | exact Hqne | now rewrite Hqlen | exact Hqs |].
  cbv zeta in Herr2. rewrite Hqlen in Herr2.
  exists qs, s. split; [exact Eqs|]. split; [exact Hqlen|].
  split.
  { eapply Forall_impl; [|exact Hqs]. cbn beta. intros q [Hq1 Hq2].
    pose proof (pow2_pos (-864)). change (pow2 0) with 1 in Hq2. split; lra. }
  split; [exact Es|].
  destruct (count_error (length ws) Hlen) as [He0 He1].
  set (e := inject_Z (Z.of_nat (length ws)) * pow2 (-53)) in *.
  set (S := Qsum ws) in *. set (Q' := Qsum qs) in *.
  assert (Hr : S / T * T == S) by (field; lra).
  set (r := S / T) in *.
  change (pow2 (-37)) with (1 # 137438953472) in He1.
  change (pow2 (-53)) with (1 # 9007199254740992) in Hqsum.
  change (pow2 (-31)) with (1 # 2147483648).
  assert (Hr0 : 0 <= r) by (unfold r; apply Qle_shift_div_l; lra).
  assert (Hr1 : r * (1 - e) <= 1).
  { assert (A : r * T * (1 - e) <= 1 * T) by (rewrite Hr; lra). nra. }
  assert (Hr2 : 1 <= r * (1 + 2 * e)).
  { assert (A : 1 * T <= r * T * (1 + 2 * e)) by (rewrite Hr; lra). nra. }
  assert (Hr3 : r <= 1 + 2 * e) by nra.
  assert (Hr4 : 1 - 2 * e <= r) by nra.
  assert (B1 : Q' <= 1 + 3 * e + (1 # 4503599627370496)) by nra.
  assert (B2 : 1 - 3 * e - (1 # 4503599627370496) <= Q') by nra.
  apply Qabs_Qle_condition. split; nra.
Qed.

(** C2 (as the code behaves): for an [n] by [n] matrix, [1 <= n <= 2^16],
    of numbers between [2^-200] and [2^200], the AHP engine returns [n]
    weights, none of them negative, whose computed sum is within 1e-9 of
    1. *)
Theorem AHP_weights_normalized (m : matrix) :
  moderate_matrix m = true ->
  let w := weights (computeAHPFromMatrix m) in
  length w = length m
  /\ forallb (fun x => le (Fin 0) x) w = true
  /\ le (Math_abs (sub (sum w) (Fin 1))) (dbl (1 # 1000000000)) = true.
Proof.
  intros Hm. cbv zeta. unfold computeAHPFromMatrix. cbn [weights].
  destruct (row_averages_between m Hm) as (Hbet & Hrep & Hlen).
  destruct (matrix_size m Hm) as [Hn1 Hn2].
  destruct (between_list_inv _ _ _ Hbet) as [E Hall].
  set (ws := map val (row_averages m)) in *.
  assert (Hwlen : length ws = length m) by (unfold ws; now rewrite length_map).
  destruct (normalized_sum ws) as (qs & s & Eqs & Hqlen & Hqs & Es & Hs).
  - intros Hnil. rewrite Hnil in Hwlen. cbn [length] in Hwlen. lia.
  - now rewrite Hwlen.
  - exact Hall.
  - unfold ws. apply Forall_forall. intros q Hq. apply in_map_iff in Hq.
    destruct Hq as (w & <- & Hw). rewrite Forall_forall in Hrep. now apply Hrep.
  - cbv zeta in Eqs. rewrite E, Eqs, Es.
    split; [rewrite length_map; lia|]. split.
    + apply forallb_forall. intros x Hx. apply in_map_iff in Hx.
      destruct Hx as (q & <- & Hq). rewrite Forall_forall in Hqs.
      apply le_Fin. now apply Hqs.
    + cbn [sub neg add].
      destruct (round64_bounded (s + - (1)) (pow2 (-31))) as (d & -> & Hd & _).
      * apply representable_pow2. lia.
      * apply pow2_lt. lia.
      * exact Hs.
      * cbn [Math_abs].
        assert (L : dbl (1 # 1000000000)
                    = Fin (4835703278458517 # 4835703278458516698824704)).
        { vm_compute. reflexivity. }
        rewrite L. apply le_Fin.
        apply Qle_trans with (pow2 (-31)); [exact Hd | qconst].
Qed.

Lemma AHP_weights_normalized_witness :
  let w := weights (computeAHPFromMatrix DEFAULT_PAIRWISE) in
  length w = 3%nat
  /\ forallb (fun x => le (Fin 0) x) w = true
  /\ le (Math_abs (sub (sum w) (Fin 1))) (dbl (1 # 1000000000)) = true.
Proof. apply (AHP_weights_normalized DEFAULT_PAIRWISE). vm_compute. reflexivity. Defined.

(** C2 (as stated) fails: when the column sums overflow, every normalized
    entry is 0, the total is replaced by 1 and the weights are all 0; and
    on the default matrix the computed sum of the weights is not exactly
    1. *)
Lemma AHP_weights_can_vanish :
  (let big := dbl (inject_Z (10 ^ 308)) in
   let m := [[big; big]; [big; big]] in
   pairwise_matrix m = true
   /\ weights (computeAHPFromMatrix m) = [Fin 0; Fin 0]
   /\ sum (weights (computeAHPFromMatrix m)) = Fin 0)
  /\ sum (weights (computeAHPFromMatrix DEFAULT_PAIRWISE))
     = Fin (4503599627370497 # 4503599627370496).
Proof. vm_compute. repeat split. Qed.
(** ** Aggressive against conservative *)

Lemma factor_aggressive (rank : number) : factor aggressive rank = Math_pow08 rank.
Proof. reflexivity. Qed.

Lemma factor_conservative (rank : number) : factor conservative rank = dbl (15 # 100).
Proof. reflexivity. Qed.

Lemma dot_snoc (cs xs : list number) (x : number) :
  dot cs (xs ++ [x]) = add (dot cs xs) (mul (get cs (length xs)) x).
Proof.
  unfold dot, reducei. generalize (Fin 0) as acc.
  change (length xs) with (0 + length xs)%nat. generalize 0%nat as k.
  induction xs as [|y xs IH]; intros k acc; cbn [app reducei_from length].
  - now rewrite Nat.add_0_r.
  - rewrite IH. now rewrite Nat.add_succ_r.
Qed.

(** From one half on, the power is a double between one half and 1. *)
Lemma pow08_half (r : Q) :
  1 # 2 <= r <= 1 -> exists p, Math_pow08 (Fin r) = Fin p /\ 1 # 2 <= p <= 1.
Proof.
  intros Hr. unfold Math_pow08.
  replace (Qlt_bool r 0) with false by (symmetry; apply Qlt_bool_false; lra).
  replace (Qeq_bool r 0) with false by (symmetry; apply Qeq_bool_false; lra).
  destruct (round64_between (pow08_fin r) (1 # 2) 1) as (p & -> & Hp & _);
    [repr 1%Z (-1)%Z | repr 1%Z 0%Z | qconst | qconst | |].
  - split; [apply pow08_fin_lower; lra | apply pow08_fin_unit; lra].
  - now exists p.
Qed.

(** The proposal grows with the share of the width. *)
Lemma target_mono (l u f1 f2 : Q) :
  Qabs l <= inject_Z (2 ^ 48) -> Qabs u <= inject_Z (2 ^ 48) -> l <= u ->
  0 <= f1 <= f2 -> f2 <= 1 ->
  exists t1 t2,
    add (Fin l) (mul (sub (Fin u) (Fin l)) (Fin f1)) = Fin t1
    /\ add (Fin l) (mul (sub (Fin u) (Fin l)) (Fin f2)) = Fin t2
    /\ t1 <= t2.
Proof.
  intros Hl Hu Hlu Hf Hf2. apply Qabs_Qle_condition in Hl, Hu.
  change (inject_Z (2 ^ 48)) with (281474976710656 # 1) in *.
  cbn [sub neg add].
  assert (R49 : representable (inject_Z (2 ^ 49))) by repr 1%Z 49%Z.
  assert (B49 : inject_Z (2 ^ 49) < pow2 1024) by qconst.
  assert (R50 : representable (inject_Z (2 ^ 50))) by repr 1%Z 50%Z.
  assert (B50 : inject_Z (2 ^ 50) < pow2 1024) by qconst.
  destruct (round64_bounded (u + - l) (inject_Z (2 ^ 49)) R49 B49) as (w & -> & Hw & Ew).
  { apply Qabs_Qle_condition. change (inject_Z (2 ^ 49)) with (562949953421312 # 1). lra. }
  assert (Hw0 : 0 <= w).
  { rewrite Ew. apply round_fin_nonneg. lra. }
  rewrite (Qabs_pos w Hw0) in Hw.
  change (inject_Z (2 ^ 49)) with (562949953421312 # 1) in Hw.
  cbn [mul].
  destruct (round64_bounded (w * f1) (inject_Z (2 ^ 49)) R49 B49) as (p1 & -> & Hp1 & E1).
  { rewrite Qabs_pos by nra. change (inject_Z (2 ^ 49)) with (562949953421312 # 1). nra. }
  destruct (round64_bounded (w * f2) (inject_Z (2 ^ 49)) R49 B49) as (p2 & -> & Hp2 & E2).
  { rewrite Qabs_pos by nra. change (inject_Z (2 ^ 49)) with (562949953421312 # 1). nra. }
  assert (Hp : p1 <= p2).
  { rewrite E1, E2. apply round_fin_mono. nra. }
  apply Qabs_Qle_condition in Hp1, Hp2.
  change (inject_Z (2 ^ 49)) with (562949953421312 # 1) in Hp1, Hp2.
  cbn [add].
  destruct (round64_bounded (l + p1) (inject_Z (2 ^ 50)) R50 B50) as (t1 & -> & _ & F1).
  { apply Qabs_Qle_condition. change (inject_Z (2 ^ 50)) with (1125899906842624 # 1). lra. }
  destruct (round64_bounded (l + p2) (inject_Z (2 ^ 50)) R50 B50) as (t2 & -> & _ & F2).
  { apply Qabs_Qle_condition. change (inject_Z (2 ^ 50)) with (1125899906842624 # 1). lra. }
  exists t1, t2. split; [reflexivity|]. split; [reflexivity|].
  rewrite F1, F2. apply round_fin_mono. lra.
Qed.

(** One step of the two objective values: products and sums stay finite
    and ordered. *)
Lemma dot_step_mono (d1 d2 c z1 z2 : Q) (k : Z) :
  (0 <= k <= 12)%Z ->
  Qabs d1 <= inject_Z k * pow2 96 -> Qabs d2 <= inject_Z k * pow2 96 ->
  0 <= c <= inject_Z (2 ^ 48) ->
  Qabs z1 <= inject_Z (2 ^ 48) -> Qabs z2 <= inject_Z (2 ^ 48) ->
  d1 <= d2 -> z1 <= z2 ->
  exists d1' d2',
    add (Fin d1) (mul (Fin c) (Fin z1)) = Fin d1'
    /\ add (Fin d2) (mul (Fin c) (Fin z2)) = Fin d2'
    /\ Qabs d1' <= inject_Z (k + 1) * pow2 96
    /\ Qabs d2' <= inject_Z (k + 1) * pow2 96
    /\ d1' <= d2'.
Proof.
  intros Hk Hd1 Hd2 Hc Hz1 Hz2 Hd Hz.
  assert (E96 : inject_Z (2 ^ 48) * inject_Z (2 ^ 48) == pow2 96) by reflexivity.
  assert (R96 : representable (pow2 96)) by (apply representable_pow2; lia).
  assert (B96 : pow2 96 < pow2 1024) by (apply pow2_lt; lia).
  assert (Hprod : forall z, Qabs z <= inject_Z (2 ^ 48) -> Qabs (c * z) <= pow2 96).
  { intros z Hz'. rewrite Qabs_Qmult, (Qabs_pos c) by lra.
    pose proof (Qabs_nonneg z). rewrite <- E96.
    set (B := inject_Z (2 ^ 48)) in *. nra. }
  cbn [mul].
  destruct (round64_bounded (c * z1) (pow2 96) R96 B96 (Hprod z1 Hz1)) as (p1 & -> & Hp1 & E1).
  destruct (round64_bounded (c * z2) (pow2 96) R96 B96 (Hprod z2 Hz2)) as (p2 & -> & Hp2 & E2).
  assert (Hp : p1 <= p2).
  { rewrite E1, E2. apply round_fin_mono. nra. }
  cbn [add].
  assert (RK : representable (inject_Z (k + 1) * pow2 96)).
  { apply representable_scaled; [|lia].
    assert (2 ^ 4 < 2 ^ 53)%Z by (apply Z.pow_lt_mono_r; lia).
    change (2 ^ 4)%Z with 16%Z in *. lia. }
  assert (BK : inject_Z (k + 1) * pow2 96 < pow2 1024).
  { apply scaled_below; [|lia]. change (2 ^ 16)%Z with 65536%Z. lia. }
  assert (EK : inject_Z (k + 1) * pow2 96 == inject_Z k * pow2 96 + pow2 96).
  { rewrite inject_Z_plus. change (inject_Z 1) with 1. ring. }
  apply Qabs_Qle_condition in Hd1, Hd2, Hp1, Hp2.
  destruct (round64_bounded (d1 + p1) _ RK BK) as (d1' & -> & H1 & F1).
  { apply Qabs_Qle_condition. rewrite EK. lra. }
  destruct (round64_bounded (d2 + p2) _ RK BK) as (d2' & -> & H2 & F2).
  { apply Qabs_Qle_condition. rewrite EK. lra. }
  exists d1', d2'. do 4 (split; [reflexivity || assumption|]).
  rewrite F1, F2. apply round_fin_mono. lra.
Qed.

Section TwoRuns.

Variables coeffs lower upper : list number.

Hypothesis coeffs_positive : forallb is_positive coeffs = true.
Hypothesis coeffs_moderate : moderate coeffs = true.
Hypothesis lower_moderate : moderate lower = true.
Hypothesis upper_moderate : moderate upper = true.
Hypothesis lower_length : length lower = length coeffs.
Hypothesis upper_length : length upper = length coeffs.
Hypothesis periods : (length coeffs <= 12)%nat.
Hypothesis ordered :
  forall i, (i < length coeffs)%nat -> le (get lower i) (get upper i) = true.
Hypothesis free :
  forall i, (i < length coeffs)%nat ->
            ceiling_hit coeffs lower upper aggressive i = false.

Lemma coeffs_finite : all_finite coeffs = true.
Proof using coeffs_moderate. now apply moderate_finite. Qed.

Lemma coeff_at (i : nat) :
  (i < length coeffs)%nat ->
  exists c, get coeffs i = Fin c /\ 0 < c <= inject_Z (2 ^ 48).
Proof using coeffs_positive coeffs_moderate.
  intros Hi.
  assert (Hg : is_positive (get coeffs i) = true).
  { rewrite forallb_forall in coeffs_positive.
    apply coeffs_positive. unfold get. now apply nth_In. }
  destruct (within_inv _ _ (moderate_get coeffs i coeffs_moderate Hi)) as [E Hb].
  rewrite E in Hg. cbn [is_positive] in Hg. qprop.
  exists (val (get coeffs i)). split; [exact E|]. split; [exact Hg|].
  apply Qabs_Qle_condition in Hb. tauto.
Qed.

(** The conservative proposal never exceeds the aggressive one. *)
Lemma target_conservative_le_aggressive (i : nat) :
  (i < length coeffs)%nat ->
  target_q coeffs lower upper conservative i
  <= target_q coeffs lower upper aggressive i.
Proof using All.
  intros Hi. unfold target_q, target_at. rewrite !target_factor.
  rewrite factor_aggressive, factor_conservative, literal_15.
  destruct (lower_at coeffs lower upper aggressive coeffs_finite lower_moderate
              upper_moderate lower_length upper_length periods i Hi) as [El Hl].
  destruct (upper_at coeffs lower upper aggressive coeffs_finite lower_moderate
              upper_moderate lower_length upper_length periods i Hi) as [Eu Hu].
  pose proof (ordered i Hi) as Hord. rewrite El, Eu in Hord |- *. apply le_Fin in Hord.
  destruct (rank_at_finite coeffs i coeffs_finite Hi) as (r & -> & Hr & Hhalf).
  destruct (coeff_at i Hi) as (c & Ec & Hc).
  assert (Hr2 : 1 # 2 <= r).
  { apply Hhalf. rewrite Ec. apply le_Fin. lra. }
  destruct (pow08_half r) as (p & -> & Hp); [lra|].
  destruct (target_mono (lower_q lower i) (upper_q upper i)
              (5404319552844595 # 36028797018963968) p Hl Hu Hord)
    as (t1 & t2 & -> & -> & Ht).
  - split; [qconst|].
    assert ((5404319552844595 # 36028797018963968) <= 1 # 2) by qconst. lra.
  - lra.
  - exact Ht.
Qed.

(** When the aggressive run never meets the ceiling, after every period
    its running total and its partial objective value are at least those
    of the conservative run. *)
Lemma runs_ordered (k : nat) :
  (k <= length coeffs)%nat ->
  exists aa ac da dc,
    sum (allocs coeffs lower upper aggressive k) = ofZ aa
    /\ sum (allocs coeffs lower upper conservative k) = ofZ ac
    /\ dot coeffs (allocs coeffs lower upper aggressive k) = Fin da
    /\ dot coeffs (allocs coeffs lower upper conservative k) = Fin dc
    /\ (Z.abs aa <= Z.of_nat k * 2 ^ 48)%Z
    /\ (Z.abs ac <= Z.of_nat k * 2 ^ 48)%Z
    /\ Qabs da <= inject_Z (Z.of_nat k) * pow2 96
    /\ Qabs dc <= inject_Z (Z.of_nat k) * pow2 96
    /\ (ac <= aa)%Z /\ dc <= da.
Proof using All.
  pose proof coeffs_finite as Hc.
  induction k as [|k IH]; intros Hk.
  - exists 0%Z, 0%Z, 0, 0. repeat split; try reflexivity; try lia; try lra;
      vm_compute; discriminate.
  - destruct IH as (aa & ac & da & dc & Haa & Hac & Hda & Hdc & Baa & Bac & Bda & Bdc
                    & Hcum & Hobj); [lia|].
    assert (Hi : (k < length coeffs)%nat) by lia.
    cbn [allocs]. rewrite !sum_snoc, !dot_snoc, !length_allocs, Haa, Hac, Hda, Hdc.
    rewrite !(alloc_value_Fin coeffs lower upper _ Hc lower_moderate upper_moderate
                lower_length upper_length periods) by lia.
    pose proof (target_conservative_le_aggressive k Hi) as Ht.
    pose proof (free k Hi) as Hfree. unfold ceiling_hit, running_total in Hfree.
    rewrite solution_allocs, firstn_allocs, Haa in Hfree by lia.
    destruct (target_at_Fin coeffs lower upper aggressive Hc lower_moderate
                upper_moderate lower_length upper_length periods k Hi) as [Eta Hta].
    destruct (target_at_Fin coeffs lower upper conservative Hc lower_moderate
                upper_moderate lower_length upper_length periods k Hi) as [Etc Htc].
    destruct (get_cumCapacity_lt k) as [Hcap Hcapb]; [lia|].
    rewrite Eta, Hcap, expected_Fin in Hfree by (assumption || lia).
    unfold ofZ in Hfree. cbn [gt lt] in Hfree. rewrite Qlt_bool_Qred in Hfree.
    apply Qlt_bool_false in Hfree.
    set (ta := target_q coeffs lower upper aggressive k) in *.
    set (tc := target_q coeffs lower upper conservative k) in *.
    assert (Hfree' : round_fin (inject_Z ac + tc) <= inject_Z (cap_z k)).
    { apply Qle_trans with (round_fin (inject_Z aa + ta)); [|exact Hfree].
      apply round_fin_mono. rewrite Zle_Qle in Hcum. lra. }
    rewrite !Qceil_clamp_free by assumption.
    pose proof (roundZ_mono _ _ (Qclamp_mono (lower_q lower k) (upper_q upper k) tc ta Ht))
      as Hz.
    destruct (lower_at coeffs lower upper aggressive Hc lower_moderate
                upper_moderate lower_length upper_length periods k Hi) as [_ Hl].
    destruct (upper_at coeffs lower upper aggressive Hc lower_moderate
                upper_moderate lower_length upper_length periods k Hi) as [_ Hu].
    pose proof (roundZ_within _ _ (Qclamp_within _ _ ta _ Hl Hu)) as Bza.
    pose proof (roundZ_within _ _ (Qclamp_within _ _ tc _ Hl Hu)) as Bzc.
    set (za := roundZ (Qclamp (lower_q lower k) (upper_q upper k) ta)) in *.
    set (zc := roundZ (Qclamp (lower_q lower k) (upper_q upper k) tc)) in *.
    destruct (coeff_at k Hi) as (c & -> & Hcpos).
    destruct (dot_step_mono dc da c (inject_Z zc) (inject_Z za) (Z.of_nat k))
      as (dc' & da' & Edc & Eda & Bdc' & Bda' & Hd'); try assumption.
    + lia.
    + split; lra.
    + rewrite Qabs_inject_Z, <- Zle_Qle. exact Bzc.
    + rewrite Qabs_inject_Z, <- Zle_Qle. exact Bza.
    + now rewrite <- Zle_Qle.
    + change (Fin (inject_Z za)) with (ofZ za) in Eda.
      change (Fin (inject_Z zc)) with (ofZ zc) in Edc.
      rewrite Eda, Edc, !add_ofZ by lia.
      exists (aa + za)%Z, (ac + zc)%Z, da', dc'.
      replace (Z.of_nat (S k)) with (Z.of_nat k + 1)%Z by lia.
      repeat split; try reflexivity; try assumption; lia.
Qed.

End TwoRuns.

(** C3 (as the code behaves): on twelve periods with strictly positive
    coefficients and bounds [lower_i <= upper_i], all of moderate size (at
    most [2^48] in absolute value), if no period of the aggressive run
    meets the cumulative ceiling, the objective value of [maximize] with
    the aggressive strategy is at least that of [maximize] with the
    conservative strategy. *)
Theorem aggressive_dominates_under_ceiling (coeffs lower upper : list number) :
  length coeffs = 12%nat -> length lower = 12%nat -> length upper = 12%nat ->
  forallb is_positive coeffs = true ->
  moderate coeffs = true -> moderate lower = true -> moderate upper = true ->
  (forall i, (i < 12)%nat -> le (get lower i) (get upper i) = true) ->
  (forall i, (i < 12)%nat -> ceiling_hit coeffs lower upper aggressive i = false) ->
  le (objective (solveLPHeuristic coeffs lower upper conservative))
     (objective (solveLPHeuristic coeffs lower upper aggressive)) = true.
Proof.
  intros Hn Hnl Hnu Hc Hcm Hl Hu Hord Hfree.
  rewrite !objective_allocs.
  destruct (runs_ordered coeffs lower upper Hc Hcm Hl Hu) with (k := length coeffs)
    as (aa & ac & da & dc & _ & _ & Hda & Hdc & _ & _ & _ & _ & _ & Hobj); try lia.
  - intros i Hi. apply Hord. lia.
  - intros i Hi. apply Hfree. lia.
  - rewrite Hda, Hdc. now apply le_Fin.
Qed.

Lemma aggressive_dominates_under_ceiling_witness :
  le (objective (solveLPHeuristic (turnover DEFAULT_DATA) (repeat (Fin 0) 12)
                   roomy_upper conservative))
     (objective (solveLPHeuristic (turnover DEFAULT_DATA) (repeat (Fin 0) 12)
                   roomy_upper aggressive)) = true.
Proof.
  apply aggressive_dominates_under_ceiling; try reflexivity.
  - intros i Hi. do 12 (destruct i as [|i]; [reflexivity|]). lia.
  - intros i Hi. do 12 (destruct i as [|i]; [vm_compute; reflexivity|]). lia.
Defined.

(** C3 (as stated) fails: the aggressive run spends the room under the
    ceiling on the cheap first period and is cut down by the ceiling in the
    valuable second one, where the conservative run still fits. *)
Lemma conservative_can_beat_aggressive :
  forallb is_positive greedy_coeffs = true
  /\ bounds_ordered greedy_lower greedy_upper = true
  /\ lt (objective (solveLPHeuristic greedy_coeffs greedy_lower greedy_upper aggressive))
        (objective (solveLPHeuristic greedy_coeffs greedy_lower greedy_upper conservative))
     = true
  /\ eqv (objective (solveLPHeuristic greedy_coeffs greedy_lower greedy_upper conservative))
         (ofZ 13905000).
Proof. vm_compute. repeat split. Qed.
(** * Further properties of the code *)

(** ** Edits of the data set *)

Lemma deepCopyData_id (d : Data) : deepCopyData d = d.
Proof. destruct d. unfold deepCopyData. cbn. now rewrite !map_id. Qed.

(** The five keys, one by one. *)
Lemma series_cases (d : Data) (category : string) (s : list number) :
  series d category = Some s ->
  (category = "turnover"%string /\ s = turnover d)
  \/ (category = "cost"%string /\ s = cost d)
  \/ (category = "productivity"%string /\ s = productivity d)
  \/ (category = "orders"%string /\ s = orders d)
  \/ (category = "capacity"%string /\ s = capacity d).
Proof.
  unfold series.
  destruct (String.eqb_spec category "turnover"); [intros [= <-]; auto|].
  destruct (String.eqb_spec category "cost"); [intros [= <-]; auto|].
  destruct (String.eqb_spec category "productivity"); [intros [= <-]; auto 6|].
  destruct (String.eqb_spec category "orders"); [intros [= <-]; auto 6|].
  destruct (String.eqb_spec category "capacity"); [intros [= <-]; auto 6|].
  discriminate.
Qed.

Lemma series_with_series (d : Data) (category : string) (s s' : list number) :
  series d category = Some s ->
  series (with_series d category s') category = Some s'
  /\ forall c, c <> category -> series (with_series d category s') c = series d c.
Proof.
  intros H.
  destruct (series_cases d category s H)
    as [[-> _]|[[-> _]|[[-> _]|[[-> _]|[-> _]]]]];
    (split; [reflexivity|]); intros c Hc; unfold series, with_series;
    cbn [String.eqb Ascii.eqb Bool.eqb andb turnover cost productivity orders capacity];
    repeat match goal with
      | |- context [String.eqb c ?k] =>
          destruct (String.eqb_spec c k) as [->|]; [congruence || reflexivity|]
      end;
    reflexivity.
Qed.

Lemma Math_max_floor (x : number) :
  is_nan x = false -> nonneg (Math_max (Fin 0) x) = true.
Proof.
  destruct x as [q| | |]; try discriminate; intros _; try reflexivity.
  cbn [Math_max lt]. destruct (Qlt_bool 0 q) eqn:E; unfold nonneg; apply le_Fin;
    qprop; lra.
Qed.

Lemma floored_nonneg (old delta : number) :
  nonneg old = true -> is_fin delta = true ->
  nonneg (Math_max (Fin 0) (add old delta)) = true.
Proof.
  intros Ho Hd. apply Math_max_floor.
  destruct old as [a| | |]; try discriminate;
    destruct delta as [b| | |]; try discriminate; cbn [add];
    [apply round64_not_nan | reflexivity].
Qed.

(** X1: [updateValue] raises exactly on a key that names neither one of
    the five series nor a property inherited from [Object.prototype]; on an
    inherited key it returns the data set as it was; on a series it
    replaces the one cell by [Math.max(0, old + delta)], which is not
    negative (it can be [+Infinity]) when [old] and [delta] are finite,
    keeps the length of the series when the index is in range, and leaves
    every other cell and every other series as they were. *)
Theorem updateValue_cell
  (d : Data) (category : string) (index : nat) (delta : number) :
  match series d category with
  | None =>
      updateValue d category index delta = (if inherited category then Some d else None)
  | Some s =>
      exists d' s',
        updateValue d category index delta = Some d'
        /\ series d' category = Some s'
        /\ get s' index = Math_max (Fin 0) (add (get s index) delta)
        /\ (forall i, i <> index -> get s' i = get s i)
        /\ ((index < length s)%nat -> length s' = length s)
        /\ (forall c, c <> category -> series d' c = series d c)
        /\ (is_fin (get s index) = true -> is_fin delta = true ->
            nonneg (get s' index) = true)
  end.
Proof.
  unfold updateValue. rewrite deepCopyData_id.
  destruct (series d category) as [s|] eqn:Hs; [|reflexivity].
  destruct (series_with_series d category s
              (set s index (Math_max (Fin 0) (add (get s index) delta))) Hs)
    as [Hsame Hother].
  eexists. eexists. split; [reflexivity|]. split; [exact Hsame|].
  split; [apply get_set_same|].
  split; [intros i Hi; apply get_set_other; congruence|].
  split; [apply length_set|]. split; [exact Hother|].
  intros Hold Hdelta. rewrite get_set_same. apply Math_max_floor.
  destruct (get s index) as [a| | |]; try discriminate.
  destruct delta as [b| | |]; try discriminate.
  apply round64_not_nan.
Qed.

Lemma updateValue_cell_witness :
  exists d', updateValue DEFAULT_DATA "cost" 11 (Fin (-30)) = Some d'
             /\ get (cost d') 11 = Fin 0
             /\ get (cost d') 10 = Fin 30.
Proof.
  pose proof (updateValue_cell DEFAULT_DATA "cost" 11 (Fin (-30))) as H.
  cbn [series String.eqb Ascii.eqb Bool.eqb andb] in H.
  destruct H as (d' & s' & Hd' & Hs' & Hv & Hframe & _).
  exists d'. split; [exact Hd'|].
  assert (Hc : cost d' = s').
  { unfold series in Hs'.
    cbn [String.eqb Ascii.eqb Bool.eqb andb] in Hs'. congruence. }
  rewrite Hc, Hv, (Hframe 10%nat) by discriminate.
  vm_compute. split; reflexivity.
Defined.

Lemma forallb_set (P : number -> bool) (s : list number) (i : nat) (v : number) :
  forallb P s = true -> (i < length s)%nat -> P v = true ->
  forallb P (set s i v) = true.
Proof.
  revert s. induction i as [|i IH]; intros [|h t] Hs Hi Hv;
    cbn [length] in Hi; try lia; cbn [set forallb] in *;
    apply andb_true_iff in Hs; destruct Hs as [Hh Ht].
  - now rewrite Hv, Ht.
  - rewrite Hh, IH; [reflexivity | exact Ht | lia | exact Hv].
Qed.

Lemma forallb_get (P : number -> bool) (s : list number) (i : nat) :
  forallb P s = true -> (i < length s)%nat -> P (get s i) = true.
Proof.
  intros Hs Hi. rewrite forallb_forall in Hs. apply Hs. unfold get. now apply nth_In.
Qed.

Lemma nonneg_series_update (s : list number) (index : nat) (delta : number) :
  nonneg_series s = true -> (index < 12)%nat -> is_fin delta = true ->
  nonneg_series (set s index (Math_max (Fin 0) (add (get s index) delta))) = true.
Proof.
  unfold nonneg_series. intros Hs Hi Hd.
  apply andb_true_iff in Hs. destruct Hs as [Hlen Hall].
  apply Nat.eqb_eq in Hlen.
  rewrite length_set by lia. rewrite Hlen, Nat.eqb_refl. cbn [andb].
  apply forallb_set; [exact Hall | lia |].
  apply floored_nonneg; [|exact Hd]. apply forallb_get; [exact Hall | lia].
Qed.

Lemma updateValue_keeps_nonneg (d : Data) (u : string * nat * number) :
  nonneg_data d = true -> update_ok u ->
  exists d', (let '(category, index, delta) := u in
              updateValue d category index delta) = Some d'
             /\ nonneg_data d' = true.
Proof.
  destruct u as [[category index] delta]. intros Hd ([s0 Hs0] & Hi & Hdelta).
  unfold nonneg_data in Hd. rewrite !andb_true_iff in Hd.
  destruct Hd as ((((Ht & Hc) & Hp) & Ho) & Hk).
  unfold updateValue. rewrite deepCopyData_id.
  destruct (series_cases _ _ _ Hs0)
    as [[-> _]|[[-> _]|[[-> _]|[[-> _]|[-> _]]]]];
    cbn [series with_series String.eqb Ascii.eqb Bool.eqb andb];
    eexists; (split; [reflexivity|]); unfold nonneg_data;
    cbn [turnover cost productivity orders capacity];
    rewrite ?Ht, ?Hc, ?Hp, ?Ho, ?Hk, nonneg_series_update by assumption;
    reflexivity.
Qed.

(** X2: the floor at zero is an invariant of the data set.  From twelve
    values per series, none negative and none [NaN], any sequence of edits
    of the five series at the twelve months by finite amounts runs without
    error and leaves twelve values per series, none negative and none
    [NaN] (a value can reach [+Infinity]). *)
Theorem updates_keep_data_nonneg
  (d : Data) (updates : list (string * nat * number)) :
  nonneg_data d = true -> Forall update_ok updates ->
  exists d', apply_updates d updates = Some d' /\ nonneg_data d' = true.
Proof.
  revert d. induction updates as [|[[category index] delta] rest IH];
    intros d Hd Hall.
  - exists d. now split.
  - inversion Hall as [|u l Hu Hrest]; subst.
    destruct (updateValue_keeps_nonneg d (category, index, delta) Hd Hu)
      as (d1 & Hd1 & Hn1).
    cbn [apply_updates]. rewrite Hd1. now apply IH.
Qed.

Lemma updates_keep_data_nonneg_witness :
  exists d', apply_updates DEFAULT_DATA example_updates = Some d'
             /\ nonneg_data d' = true.
Proof.
  apply updates_keep_data_nonneg; [reflexivity|].
  repeat constructor; eexists; reflexivity.
Defined.
(** ** More on the edits of the pairwise matrix *)

Lemma set_entry_none (m : matrix) (i j : nat) (v : number) :
  set_entry m i j v = None <-> (length m <= i)%nat.
Proof.
  revert i. induction m as [|row rest IH]; intros i; cbn [set_entry length].
  - split; [lia | reflexivity].
  - destruct i as [|i].
    + split; [discriminate | lia].
    + specialize (IH i). destruct (set_entry rest i j v); cbn [option_map].
      * split; [discriminate|]. intros H.
        assert (Hn : (length rest <= i)%nat) by lia.
        apply IH in Hn. discriminate.
      * split; [|reflexivity]. intros _.
        assert (Hn : (length rest <= i)%nat) by now apply IH. lia.
Qed.

Lemma set_entry_rows (m m' : matrix) (i j : nat) (v : number) :
  set_entry m i j v = Some m' ->
  (i < length m)%nat /\ length m' = length m
  /\ nth i m' [] = set (nth i m []) j v
  /\ forall a, a <> i -> nth a m' [] = nth a m [].
Proof.
  revert i m'. induction m as [|row rest IH]; intros i m' H;
    cbn [set_entry] in H; [discriminate|].
  destruct i as [|i].
  - injection H as <-. cbn [length nth]. repeat split; [lia|].
    intros a Ha. destruct a; [congruence | reflexivity].
  - destruct (set_entry rest i j v) as [r1|] eqn:E; [|discriminate].
    injection H as <-. destruct (IH i r1 E) as (Hi & Hlen & Hrow & Hother).
    cbn [length nth]. repeat split; [lia | lia | exact Hrow |].
    intros a Ha. destruct a; [reflexivity|]. apply Hother. congruence.
Qed.

(** X3: [updatePairwise] raises exactly when the row of the edited cell
    does not exist, or the cell is off the diagonal and the row of its
    mirror cell does not exist. *)
Theorem updatePairwise_raises (m : matrix) (i j : nat) (value : string) :
  updatePairwise m i j value = None
  <-> (length m <= i)%nat \/ (i <> j /\ (length m <= j)%nat).
Proof.
  unfold updatePairwise. rewrite map_id.
  destruct (set_entry m i j (or (parseFloat value) (Fin 1))) as [m1|] eqn:E1.
  - destruct (set_entry_rows _ _ _ _ _ E1) as (Hi & Hlen & _).
    destruct (Nat.eqb_spec i j) as [->|Hij]; cbn [negb].
    + split; [discriminate|]. intros [H|[H _]]; [lia | congruence].
    + rewrite set_entry_none, Hlen. split; [auto|]. intros [H|[_ H]]; [lia | exact H].
  - apply set_entry_none in E1. split; auto.
Qed.

(** A double of the normal range times its rounded reciprocal rounds to 1
    or to the double just below 1. *)
Lemma reciprocal_product (v : Q) :
  pow2 (-1022) <= Qabs v <= pow2 1022 ->
  exists p, mul (Fin v) (div (Fin 1) (Fin v)) = Fin p
            /\ 1 - pow2 (-53) <= p <= 1.
Proof.
  intros [Hlo Hhi]. pose proof (pow2_pos (-1022)) as P0.
  assert (Hv : ~ v == 0).
  { intros E. rewrite E in Hlo. cbn in Hlo. lra. }
  cbn [div]. replace (Qeq_bool v 0) with false by (symmetry; now apply Qeq_bool_false).
  set (x := 1 / v).
  assert (Hx : x * v == 1) by (unfold x; field; exact Hv).
  assert (E1 : pow2 (-1022) * pow2 1022 == 1) by (rewrite <- pow2_add; reflexivity).
  pose proof (pow2_pos 1022) as P1.
  assert (Hxa : pow2 (-1022) <= Qabs x <= pow2 1022).
  { assert (Hp : Qabs x * Qabs v == 1) by (rewrite <- Qabs_Qmult, Hx; reflexivity).
    pose proof (Qabs_nonneg x). split; nra. }
  destruct (round64_bounded x (pow2 1022)) as (r & -> & _ & Er);
    [apply representable_pow2; lia | apply pow2_lt; lia | tauto |].
  pose proof (round_fin_relative x (proj1 Hxa)) as Hrel. rewrite <- Er in Hrel.
  set (u := pow2 (-53)) in *. assert (Hu : 0 < u) by apply pow2_pos.
  assert (Hu1 : u <= 1 # 4) by (unfold u; qconst).
  assert (Hprod : 1 - u <= v * r <= 1 + u).
  { apply Qabs_Qle_condition in Hrel.
    destruct (Qlt_le_dec 0 v) as [Hpos|Hneg].
    - assert (Hx0 : 0 < x) by nra.
      rewrite (Qabs_pos x) in Hrel by lra. split; nra.
    - assert (Hv0 : v < 0).
      { destruct (Qeq_dec v 0) as [E|E]; [contradiction|].
        apply Qnot_le_lt. intros H. apply E. lra. }
      assert (Hx0 : x < 0) by nra.
      rewrite (Qabs_neg x) in Hrel by lra. split; nra. }
  cbn [mul].
  assert (R1 : representable (1 - u)).
  { exists (2 ^ 53 - 1)%Z, (-53)%Z. split; [vm_compute; reflexivity|]. split; lia. }
  destruct (round64_between (v * r) (1 - u) 2) as (p & -> & [Hp1 _] & Ep);
    [exact R1 | repr 2%Z 0%Z | unfold u; qconst | qconst | lra |].
  exists p. split; [reflexivity|]. split; [exact Hp1|].
  assert (Hm : round_fin (v * r) <= round_fin (1 + u)) by (apply round_fin_mono; lra).
  assert (Eone : round_fin (1 + u) == 1) by (vm_compute; reflexivity).
  lra.
Qed.

Lemma normal_range_inv (x : number) :
  normal_range x = true ->
  exists q, x = Fin q /\ pow2 (-1022) <= Qabs q <= pow2 1022.
Proof.
  destruct x as [q| | |]; try discriminate. cbn [normal_range].
  rewrite andb_true_iff. intros [H1 H2]. qprop. now exists q.
Qed.

(** X4: after an edit of an off-diagonal cell that stores a number of the
    normal range ([2^-1022 <= |v| <= 2^1022]), the product of the cell and
    its mirror cell is 1 or the double just below 1: it lies between
    [1 - 2^-53] and 1. *)
Theorem updatePairwise_reciprocal_pair (m : matrix) (i j : nat) (value : string) :
  (i < length m)%nat -> (j < length m)%nat -> i <> j ->
  normal_range (stored_value value) = true ->
  exists m', updatePairwise m i j value = Some m'
             /\ le (Fin (1 - pow2 (-53))) (mul (entry m' i j) (entry m' j i)) = true
             /\ le (mul (entry m' i j) (entry m' j i)) (Fin 1) = true.
Proof.
  intros Hi Hj Hij Hn.
  destruct (updatePairwise_off_diagonal m i j value Hi Hj Hij)
    as (m' & Hm' & _ & Hv & Hr & _).
  exists m'. split; [exact Hm'|]. rewrite Hv, Hr.
  destruct (normal_range_inv _ Hn) as (v & -> & Hb).
  destruct (reciprocal_product v Hb) as (p & -> & Hp).
  split; apply le_Fin; tauto.
Qed.

Lemma updatePairwise_reciprocal_pair_witness :
  exists m', updatePairwise DEFAULT_PAIRWISE 0 2 "49" = Some m'
             /\ le (Fin (1 - pow2 (-53))) (mul (entry m' 0 2) (entry m' 2 0)) = true
             /\ le (mul (entry m' 0 2) (entry m' 2 0)) (Fin 1) = true
             /\ mul (entry m' 0 2) (entry m' 2 0)
                = Fin (9007199254740991 # 9007199254740992).
Proof.
  destruct (updatePairwise_reciprocal_pair DEFAULT_PAIRWISE 0 2 "49")
    as (m' & Hm' & H1 & H2); [simpl; lia | simpl; lia | discriminate | |].
  - vm_compute. reflexivity.
  - exists m'. split; [exact Hm'|]. split; [exact H1|]. split; [exact H2|].
    vm_compute in Hm'. injection Hm' as <-. vm_compute. reflexivity.
Defined.

Lemma set_same (a : list number) (i : nat) (v : number) :
  (i < length a)%nat -> get a i = v -> set a i v = a.
Proof.
  unfold get. revert a. induction i as [|i IH]; intros [|h t] Hi Hv;
    cbn [length] in Hi; try lia; cbn [set nth] in *.
  - now subst.
  - now rewrite IH by (exact Hv || lia).
Qed.

Lemma length_set_gt (a : list number) (i : nat) (v : number) :
  (i < length (set a i v))%nat.
Proof.
  revert a. induction i as [|i IH]; intros [|h t]; cbn [set length]; try lia.
  - specialize (IH []). lia.
  - specialize (IH t). lia.
Qed.

Lemma set_entry_same (m : matrix) (i j : nat) (v : number) :
  (i < length m)%nat -> (j < length (nth i m []))%nat -> entry m i j = v ->
  set_entry m i j v = Some m.
Proof.
  unfold entry. revert i. induction m as [|row rest IH]; intros i Hi Hj Hv;
    cbn [length] in Hi; [lia|].
  destruct i as [|i]; cbn [set_entry nth] in *.
  - now rewrite set_same.
  - rewrite IH by (assumption || lia). reflexivity.
Qed.

(** X5: an edit is idempotent: entering the same value in the same cell a
    second time leaves the matrix as the first edit left it. *)
Theorem updatePairwise_idempotent (m m' : matrix) (i j : nat) (value : string) :
  updatePairwise m i j value = Some m' ->
  updatePairwise m' i j value = Some m'.
Proof.
  unfold updatePairwise. rewrite !map_id.
  set (v := or (parseFloat value) (Fin 1)).
  destruct (set_entry m i j v) as [m1|] eqn:E1; [|discriminate].
  destruct (set_entry_rows _ _ _ _ _ E1) as (Hi & Hlen1 & Hrow1 & Hother1).
  assert (Hij1 : (j < length (nth i m1 []))%nat)
    by (rewrite Hrow1; apply length_set_gt).
  assert (Hv1 : entry m1 i j = v)
    by (unfold entry; rewrite Hrow1; apply get_set_same).
  destruct (Nat.eqb_spec i j) as [->|Hij]; cbn [negb].
  - intros [= <-]. rewrite set_entry_same by (assumption || lia). reflexivity.
  - intros E2.
    destruct (set_entry_rows _ _ _ _ _ E2) as (Hj & Hlen2 & Hrow2 & Hother2).
    assert (Hrow_i : nth i m' [] = nth i m1 []) by (apply Hother2; congruence).
    rewrite set_entry_same; [| lia | now rewrite Hrow_i |].
    + apply set_entry_same; [lia | rewrite Hrow2; apply length_set_gt |].
      unfold entry. rewrite Hrow2. apply get_set_same.
    + unfold entry in *. now rewrite Hrow_i.
Qed.

Lemma updatePairwise_idempotent_witness :
  exists m', updatePairwise DEFAULT_PAIRWISE 1 2 "7" = Some m'
             /\ updatePairwise m' 1 2 "7" = Some m'.
Proof.
  eexists. split; [reflexivity|].
  apply (updatePairwise_idempotent DEFAULT_PAIRWISE). reflexivity.
Defined.
(** ** The AHP handler after edits *)

Lemma moderate_matrix_rows (m : matrix) :
  moderate_matrix m = true
  <-> (1 <= length m)%nat /\ (Z.of_nat (length m) <= 65536)%Z
      /\ forall a, (a < length m)%nat ->
                   length (nth a m []) = length m
                   /\ forallb (between_pow2 (-200) 200) (nth a m []) = true.
Proof.
  unfold moderate_matrix. rewrite !andb_true_iff, Nat.leb_le, Z.leb_le, forallb_forall.
  change (2 ^ 16)%Z with 65536%Z.
  split.
  - intros [[Hn Hz] H]. split; [exact Hn|]. split; [exact Hz|].
    intros a Ha. specialize (H (nth a m []) (nth_In _ _ Ha)).
    apply andb_true_iff in H. destruct H as [H1 H2].
    split; [now apply Nat.eqb_eq | exact H2].
  - intros (Hn & Hz & H). split; [now split|].
    intros row Hrow. destruct (In_nth _ _ [] Hrow) as (a & Ha & <-).
    destruct (H a Ha) as [H1 H2]. now rewrite H1, Nat.eqb_refl, H2.
Qed.

Lemma set_entry_keeps_moderate (m m' : matrix) (i j : nat) (v : number) :
  moderate_matrix m = true -> (j < length m)%nat ->
  between_pow2 (-200) 200 v = true ->
  set_entry m i j v = Some m' -> moderate_matrix m' = true.
Proof.
  intros Hm Hj Hv E. apply moderate_matrix_rows in Hm. destruct Hm as (Hn & Hz & Hrows).
  destruct (set_entry_rows _ _ _ _ _ E) as (Hi & Hlen & Hrow & Hother).
  apply moderate_matrix_rows. rewrite Hlen. split; [exact Hn|]. split; [exact Hz|].
  intros a Ha. destruct (Nat.eq_dec a i) as [->|Hne].
  - destruct (Hrows i Hi) as [H1 H2]. rewrite Hrow.
    split; [rewrite length_set; lia|].
    apply forallb_set; [exact H2 | lia | exact Hv].
  - rewrite Hother by exact Hne. now apply Hrows.
Qed.

(** The reciprocal of a number between [2^-200] and [2^200] is one. *)
Lemma reciprocal_between (v : number) :
  between_pow2 (-200) 200 v = true ->
  between_pow2 (-200) 200 (div (Fin 1) v) = true.
Proof.
  intros Hv.
  apply (div_between 0 0 (-200) 200 (Fin 1) v); [lia | lia | reflexivity | exact Hv].
Qed.

Lemma updatePairwise_keeps_moderate (m : matrix) (i j : nat) (value : string) :
  moderate_matrix m = true -> length m = 3%nat -> edit_moderate (i, j, value) ->
  exists m', updatePairwise m i j value = Some m'
             /\ moderate_matrix m' = true /\ length m' = 3%nat.
Proof.
  intros Hm Hlen (Hi & Hj & Hok).
  pose proof (reciprocal_between _ Hok) as Hr.
  unfold updatePairwise. rewrite map_id. fold (stored_value value).
  destruct (set_entry m i j (stored_value value)) as [m1|] eqn:E1;
    [|apply set_entry_none in E1; lia].
  destruct (set_entry_rows _ _ _ _ _ E1) as (_ & Hlen1 & _).
  assert (Hm1 : moderate_matrix m1 = true).
  { apply (set_entry_keeps_moderate m m1 i j (stored_value value));
      [exact Hm | lia | exact Hok | exact E1]. }
  destruct (negb (i =? j)%nat).
  - destruct (set_entry m1 j i (div (Fin 1) (stored_value value))) as [m2|] eqn:E2;
      [|apply set_entry_none in E2; lia].
    destruct (set_entry_rows _ _ _ _ _ E2) as (_ & Hlen2 & _).
    exists m2. split; [reflexivity|]. split; [|lia].
    apply (set_entry_keeps_moderate m1 m2 j i (div (Fin 1) (stored_value value)));
      [exact Hm1 | lia | exact Hr | exact E2].
  - exists m1. split; [reflexivity|]. split; [exact Hm1 | lia].
Qed.

Lemma apply_edits_keep_moderate (edits : list (nat * nat * string)) (m : matrix) :
  moderate_matrix m = true -> length m = 3%nat -> Forall edit_moderate edits ->
  exists m', apply_edits m edits = Some m'
             /\ moderate_matrix m' = true /\ length m' = 3%nat.
Proof.
  revert m. induction edits as [|[[i j] value] rest IH]; intros m Hm Hlen Hall.
  - exists m. auto.
  - inversion Hall as [|e l He Hrest]; subst.
    destruct (updatePairwise_keeps_moderate m i j value Hm Hlen He)
      as (m1 & Hm1 & Hp1 & Hl1).
    cbn [apply_edits]. rewrite Hm1. now apply IH.
Qed.

(** The sanitizing step changes nothing in a matrix without zeros. *)
Lemma sanitize_moderate (m : matrix) :
  moderate_matrix m = true -> sanitize m = m.
Proof.
  intros Hm. unfold sanitize. rewrite <- (map_id m) at 2.
  apply map_ext_in. intros row Hrow.
  destruct (matrix_row m Hm row Hrow) as [_ Hpos].
  rewrite <- (map_id row) at 2. apply map_ext_in. intros x Hx.
  apply (or_between (-200) 200). rewrite forallb_forall in Hpos. now apply Hpos.
Qed.

(** X7: edits and the AHP handler compose.  After any sequence of edits of
    the default matrix that store numbers between [2^-200] and [2^200], the
    matrix is 3 by 3 with entries in that range, the sanitizing step of
    [computeAHP] leaves it as it is, and [computeAHP] returns three
    weights, none negative, whose computed sum is within 1e-9 of 1. *)
Theorem computeAHP_after_edits (edits : list (nat * nat * string)) :
  Forall edit_moderate edits ->
  exists m,
    apply_edits DEFAULT_PAIRWISE edits = Some m
    /\ moderate_matrix m = true /\ length m = 3%nat
    /\ sanitize m = m
    /\ length (weights (computeAHP m)) = 3%nat
    /\ forallb (fun x => le (Fin 0) x) (weights (computeAHP m)) = true
    /\ le (Math_abs (sub (sum (weights (computeAHP m))) (Fin 1)))
          (dbl (1 # 1000000000)) = true.
Proof.
  intros Hall.
  destruct (apply_edits_keep_moderate edits DEFAULT_PAIRWISE) as (m & Hm & Hp & Hl);
    [vm_compute; reflexivity | reflexivity | exact Hall |].
  exists m. split; [exact Hm|]. split; [exact Hp|]. split; [exact Hl|].
  pose proof (sanitize_moderate m Hp) as Hs. split; [exact Hs|].
  unfold computeAHP. rewrite Hs.
  unfold computeAHPFromMatrix. cbn [weights].
  destruct (row_averages_between m Hp) as (Hbet & Hrep & Hlen).
  destruct (between_list_inv _ _ _ Hbet) as [E Hq].
  destruct (normalized_sum (map val (row_averages m))) as (qs & s & Eqs & Hqlen & Hqs & Es & Hsum).
  - intros Hnil. apply map_eq_nil in Hnil. rewrite Hnil in Hlen.
    cbn [length] in Hlen. lia.
  - rewrite length_map, Hlen, Hl. discriminate.
  - exact Hq.
  - apply Forall_forall. intros q Hin. apply in_map_iff in Hin.
    destruct Hin as (w & <- & Hw). rewrite Forall_forall in Hrep. now apply Hrep.
  - cbv zeta in Eqs. rewrite <- E in Eqs. rewrite Eqs, Es.
    split; [rewrite length_map, Hqlen, length_map; lia|]. split.
    + apply forallb_forall. intros x Hx. apply in_map_iff in Hx.
      destruct Hx as (q & <- & Hq'). rewrite Forall_forall in Hqs.
      apply le_Fin. now apply Hqs.
    + cbn [sub neg add].
      destruct (round64_bounded (s + - (1)) (pow2 (-31))) as (d & -> & Hd & _).
      * apply representable_pow2. lia.
      * apply pow2_lt. lia.
      * exact Hsum.
      * cbn [Math_abs].
        assert (L : dbl (1 # 1000000000)
                    = Fin (4835703278458517 # 4835703278458516698824704)).
        { vm_compute. reflexivity. }
        rewrite L. apply le_Fin.
        apply Qle_trans with (pow2 (-31)); [exact Hd | qconst].
Qed.

Lemma computeAHP_after_edits_witness :
  exists m,
    apply_edits DEFAULT_PAIRWISE example_edits = Some m
    /\ le (Math_abs (sub (sum (weights (computeAHP m))) (Fin 1)))
          (dbl (1 # 1000000000)) = true.
Proof.
  destruct (computeAHP_after_edits example_edits) as (m & Hm & _ & _ & _ & _ & _ & H).
  - repeat constructor; vm_compute; reflexivity.
  - exists m. split; assumption.
Defined.
(** ** More on the allocation *)

Section IntegerRun.

Variables coeffs lower upper : list number.
Variable options : Options.

Hypothesis coeffs_finite : all_finite coeffs = true.
Hypothesis lower_moderate : moderate lower = true.
Hypothesis upper_moderate : moderate upper = true.
Hypothesis lower_length : length lower = length coeffs.
Hypothesis upper_length : length upper = length coeffs.
Hypothesis periods : (length coeffs <= 12)%nat.

(** On data of moderate size every allocation is the image of an
    integer. *)
Lemma allocs_integers (k : nat) :
  (k <= length coeffs)%nat ->
  exists zs, allocs coeffs lower upper options k = map ofZ zs.
Proof using All.
  induction k as [|k IH]; intros Hk.
  - exists []. reflexivity.
  - destruct IH as (zs & Hzs); [lia|].
    destruct (cumulative_integer coeffs lower upper options coeffs_finite
                lower_moderate upper_moderate lower_length upper_length periods k)
      as (a & Ha & Hb); [lia|].
    cbn [allocs]. rewrite Ha.
    rewrite (alloc_value_Fin coeffs lower upper options coeffs_finite
               lower_moderate upper_moderate lower_length upper_length periods) by lia.
    rewrite Hzs. eexists (zs ++ [_]). now rewrite map_app.
Qed.

End IntegerRun.

Lemma is_integer_ofZ (z : Z) : is_integer (ofZ z) = true.
Proof.
  cbn [is_integer ofZ]. apply Qeq_bool_iff. now rewrite Qfloor_Z.
Qed.

(** X9: on at most twelve periods with finite coefficients and bounds of
    moderate size (at most [2^48] in absolute value, in any order) every
    allocation is an integer: there is one per coefficient, each finite and
    equal to its own floor. *)
Theorem allocations_are_integers
  (coeffs lower upper : list number) (options : Options) :
  all_finite coeffs = true -> moderate lower = true -> moderate upper = true ->
  length lower = length coeffs -> length upper = length coeffs ->
  (length coeffs <= 12)%nat ->
  length (solution (solveLPHeuristic coeffs lower upper options)) = length coeffs
  /\ forallb is_integer (solution (solveLPHeuristic coeffs lower upper options)) = true.
Proof.
  intros Hc Hl Hu Hll Hlu Hp. rewrite solution_allocs.
  split; [apply length_allocs|].
  destruct (allocs_integers coeffs lower upper options Hc Hl Hu Hll Hlu Hp
              (length coeffs)) as (zs & ->); [lia|].
  apply forallb_forall. intros x Hx. apply in_map_iff in Hx.
  destruct Hx as (z & <- & _). apply is_integer_ofZ.
Qed.

Lemma allocations_are_integers_witness :
  forallb is_integer
    (solution (solveLPHeuristic (productivity DEFAULT_DATA) (orders DEFAULT_DATA)
                 (capacity DEFAULT_DATA)
                 {| maximize := true; strategy := Some "balanced"%string |})) = true.
Proof.
  apply allocations_are_integers; reflexivity.
Defined.

(** X10: on twelve periods with finite coefficients and bounds of moderate
    size, when the bounds are ordered and every lower bound, rounded, fits
    between the ceiling of the month before and the ceiling of its own
    month, the running total stays under the ceiling in every month; this
    is so in particular when all lower bounds are zero. *)
Theorem ceiling_respected_when_lower_fits
  (coeffs lower upper : list number) (options : Options) :
  length coeffs = 12%nat -> length lower = 12%nat -> length upper = 12%nat ->
  all_finite coeffs = true -> moderate lower = true -> moderate upper = true ->
  (forall i, (i < 12)%nat -> le (get lower i) (get upper i) = true) ->
  (forall i, (i < 12)%nat ->
             le (add (ceiling_before i) (Math_round (get lower i)))
                (get cumCapacity i) = true) ->
  forall i, (i < 12)%nat ->
    le (running_total (solution (solveLPHeuristic coeffs lower upper options)) (S i))
       (get cumCapacity i) = true.
Proof.
  intros Hn Hnl Hnu Hc Hl Hu Hord Hfit.
  assert (Hll : length lower = length coeffs) by lia.
  assert (Hlu : length upper = length coeffs) by lia.
  assert (Hp : (length coeffs <= 12)%nat) by lia.
  rewrite solution_allocs. unfold running_total.
  assert (Hinv : forall k, (k <= 12)%nat ->
            exists a c, sum (allocs coeffs lower upper options k) = ofZ a
                        /\ (Z.abs a <= Z.of_nat k * 2 ^ 48)%Z
                        /\ ceiling_before k = ofZ c /\ (0 <= c <= 2 ^ 25)%Z
                        /\ (a <= c)%Z).
  { induction k as [|k IH]; intros Hk.
    - exists 0%Z, 0%Z. repeat split; try reflexivity; try lia; discriminate.
    - destruct IH as (a & c & Ha & Hab & Hcb & Hcr & Hac); [lia|].
      assert (Hk' : (k < 12)%nat) by lia.
      assert (Hk'' : (k < length coeffs)%nat) by lia.
      cbn [allocs]. rewrite sum_snoc, Ha.
      rewrite (alloc_value_Fin coeffs lower upper options Hc Hl Hu Hll Hlu Hp) by lia.
      destruct (lower_at coeffs lower upper options Hc Hl Hu Hll Hlu Hp k Hk'') as [Hfl Hbl].
      destruct (upper_at coeffs lower upper options Hc Hl Hu Hll Hlu Hp k Hk'') as [Hfu Hbu].
      assert (Hq : lower_q lower k <= upper_q upper k).
      { specialize (Hord k Hk'). rewrite Hfl, Hfu in Hord. now apply le_Fin. }
      destruct (period_guarantees coeffs lower upper options Hc Hl Hu Hll Hlu Hp k a Hk'' Hq)
        as [_ Hceil].
      pose proof (alloc_within coeffs lower upper options Hc Hl Hu Hll Hlu Hp k a Hk'') as Hz.
      set (z := roundZ (Qceil_clamp _ _ _ _ _)) in *.
      destruct (get_cumCapacity_lt k Hk') as [Hcap Hcapb].
      pose proof (roundZ_within _ _ Hbl) as Hrl.
      specialize (Hfit k Hk'). rewrite Hcb, Hcap in Hfit.
      rewrite Hfl, Math_round_Fin, add_ofZ in Hfit by lia.
      apply le_Fin in Hfit. rewrite <- Zle_Qle in Hfit.
      rewrite add_ofZ by lia.
      exists (a + z)%Z, (cap_z k). cbn [ceiling_before].
      repeat split; try assumption; try lia. }
  intros i Hi. rewrite firstn_allocs by lia.
  destruct (Hinv (S i)) as (a & c & Ha & _ & Hcb & _ & Hac); [lia|].
  cbn [ceiling_before] in Hcb. rewrite Ha, Hcb. apply le_Fin. now rewrite <- Zle_Qle.
Qed.

Lemma ceiling_respected_when_lower_fits_witness :
  le (running_total
        (solution (solveLPHeuristic (turnover DEFAULT_DATA) zero_lower
                     (capacity DEFAULT_DATA) aggressive)) 12)
     (get cumCapacity 11) = true.
Proof.
  apply (ceiling_respected_when_lower_fits (turnover DEFAULT_DATA) zero_lower
           (capacity DEFAULT_DATA) aggressive); try reflexivity.
  - intros i Hi. do 12 (destruct i as [|i]; [reflexivity|]). lia.
  - intros i Hi. do 12 (destruct i as [|i]; [reflexivity|]). lia.
  - lia.
Defined.

Lemma allocs_conservative (c1 c2 lower upper : list number) (k : nat) :
  allocs c1 lower upper conservative k = allocs c2 lower upper conservative k.
Proof.
  induction k as [|k IH]; [reflexivity|].
  cbn [allocs]. rewrite IH. unfold alloc_value, target_at.
  now rewrite !target_factor, !factor_conservative.
Qed.

(** X11: the conservative strategy never looks at the coefficients when
    maximizing: two coefficient vectors of the same length get the same
    allocation on the same bounds. *)
Theorem conservative_ignores_coefficients (c1 c2 lower upper : list number) :
  length c1 = length c2 ->
  solution (solveLPHeuristic c1 lower upper conservative)
  = solution (solveLPHeuristic c2 lower upper conservative).
Proof.
  intros Hlen. rewrite !solution_allocs, Hlen. apply allocs_conservative.
Qed.

Lemma conservative_ignores_coefficients_witness :
  solution (solveLPHeuristic (turnover DEFAULT_DATA) (orders DEFAULT_DATA)
              (capacity DEFAULT_DATA) conservative)
  = solution (solveLPHeuristic (cost DEFAULT_DATA) (orders DEFAULT_DATA)
                (capacity DEFAULT_DATA) conservative).
Proof. apply conservative_ignores_coefficients. reflexivity. Defined.
(** ** The evaluator *)

Lemma get_map_neg (cs : list number) (j : nat) :
  get (map neg cs) j = neg (get cs j).
Proof. unfold get. change NaN with (neg NaN) at 1. apply map_nth. Qed.

Lemma eqv_refl (x : number) : eqv x x.
Proof. destruct x; cbn [eqv]; [reflexivity | exact I..]. Qed.

Lemma sgn_neg (q : Q) :
  sgn (Fin (- q)) = match sgn (Fin q) with Some s => Some (negb s) | None => None end.
Proof.
  cbn [sgn]. destruct (Qlt_bool 0 q) eqn:E1; destruct (Qlt_bool q 0) eqn:E2;
    destruct (Qlt_bool 0 (- q)) eqn:E3; destruct (Qlt_bool (- q) 0) eqn:E4;
    qprop; try reflexivity; exfalso; lra.
Qed.

(** Rounding is symmetric: negating a factor negates the product. *)
Lemma mul_neg_l (c x : number) : mul (neg c) x = neg (mul c x).
Proof.
  destruct c as [a| | |], x as [b| | |]; try reflexivity.
  - cbn [neg mul]. rewrite <- round64_opp. apply round64_compat. ring.
  - cbn [neg]. unfold mul. rewrite sgn_neg.
    destruct (sgn (Fin a)) as [[|]|]; reflexivity.
  - cbn [neg]. unfold mul. rewrite sgn_neg.
    destruct (sgn (Fin a)) as [[|]|]; reflexivity.
  - cbn [neg mul sgn]. destruct (Qlt_bool 0 b); [reflexivity|].
    destruct (Qlt_bool b 0); reflexivity.
  - cbn [neg mul sgn]. destruct (Qlt_bool 0 b); [reflexivity|].
    destruct (Qlt_bool b 0); reflexivity.
Qed.

Lemma add_neg (a b : number) : add (neg a) (neg b) = neg (add a b).
Proof.
  destruct a as [p| | |], b as [q| | |]; try reflexivity.
  cbn [neg add]. rewrite <- round64_opp. apply round64_compat. ring.
Qed.

Lemma dot_from_neg (cs xs : list number) (k : nat) (acc : number) :
  reducei_from (fun s xi i => add s (mul (get (map neg cs) i) xi)) k xs (neg acc)
  = neg (reducei_from (fun s xi i => add s (mul (get cs i) xi)) k xs acc).
Proof.
  revert k acc. induction xs as [|x xs IH]; intros k acc; [reflexivity|].
  cbn [reducei_from]. rewrite get_map_neg, mul_neg_l, add_neg. apply IH.
Qed.

(** The evaluator on negated coefficients gives the negated value. *)
Lemma dot_neg (cs xs : list number) : dot (map neg cs) xs = neg (dot cs xs).
Proof. unfold dot, reducei. apply (dot_from_neg cs xs 0 (Fin 0)). Qed.

Lemma all_finite_map_neg (cs : list number) :
  all_finite cs = true -> all_finite (map neg cs) = true.
Proof.
  unfold all_finite. rewrite !forallb_forall. intros H x Hx.
  apply in_map_iff in Hx. destruct Hx as (c & <- & Hc).
  specialize (H c Hc). now destruct c.
Qed.

(** X13: in the cost mode the objective value of the heuristic, run on
    the negated costs, is the opposite of the reported cost, as the comment
    in the code says: on twelve periods of finite data
    [objective = - costVal]. *)
Theorem cost_mode_objective_is_minus_cost (data : Data) (ahp : option AHPResult) :
  length (cost data) = 12%nat -> length (orders data) = 12%nat ->
  length (capacity data) = 12%nat ->
  all_finite (cost data) = true -> all_finite (orders data) = true ->
  all_finite (capacity data) = true ->
  exists res,
    runOptimization data ahp "cost" = Some res
    /\ res_solution res
       = solution (solveLPHeuristic (map neg (cost data)) (orders data) (capacity data)
                     {| maximize := false; strategy := Some "conservative"%string |})
    /\ eqv (objective
              (solveLPHeuristic (map neg (cost data)) (orders data) (capacity data)
                 {| maximize := false; strategy := Some "conservative"%string |}))
           (neg (costVal res)).
Proof.
  intros Lc Lo Lk Hc Ho Hk. unfold runOptimization.
  change (String.eqb "cost" "turnover") with false.
  change (String.eqb "cost" "cost") with true. cbv iota zeta.
  eexists. split; [reflexivity|]. cbn [res_solution costVal].
  split; [reflexivity|].
  set (opts := {| maximize := false; strategy := Some "conservative"%string |}).
  rewrite objective_allocs, solution_allocs, length_map.
  rewrite dot_neg. apply eqv_refl.
Qed.

Lemma cost_mode_objective_is_minus_cost_witness :
  exists res,
    runOptimization DEFAULT_DATA None "cost" = Some res
    /\ eqv (objective
              (solveLPHeuristic (map neg (cost DEFAULT_DATA)) (orders DEFAULT_DATA)
                 (capacity DEFAULT_DATA)
                 {| maximize := false; strategy := Some "conservative"%string |}))
           (neg (costVal res)).
Proof.
  destruct (cost_mode_objective_is_minus_cost DEFAULT_DATA None)
    as (res & Hres & _ & H); try reflexivity.
  exists res. split; assumption.
Defined.
(** ** The Pareto view *)

Lemma le_trans_number (a b c : number) :
  le a b = true -> le b c = true -> le a c = true.
Proof.
  destruct a as [p| | |], b as [q| | |], c as [r| | |];
    cbn [le lt negb]; try discriminate; try reflexivity.
  rewrite !negb_true_iff. intros H1 H2. qprop. apply Qlt_bool_false. lra.
Qed.

Lemma representable_grid (p : Q) : representable p -> on_grid (-1074) p.
Proof.
  intros (m & e & Hp & _ & He). apply (on_grid_le e); [exact He|]. now exists m.
Qed.

(** The difference of two doubles does not round to zero unless it is
    zero: its sign is read off the rounded difference. *)
Lemma sub_sign (p q : Q) :
  representable p -> representable q ->
  lt (sub (Fin p) (Fin q)) (Fin 0) = Qlt_bool p q.
Proof.
  intros Hp Hq. cbn [sub neg add].
  pose proof pow2_1024_pos as P. pose proof (pow2_pos (-1074)) as Pg.
  assert (R0 : round_fin 0 == 0) by (now rewrite round_fin_0).
  destruct (Qlt_bool p q) eqn:E; qprop.
  - assert (Hneg : round_fin (p + - q) <= - pow2 (-1074)).
    { destruct (representable_grid p Hp) as (m1 & E1).
      destruct (representable_grid q Hq) as (m2 & E2).
      assert (Hm : (m1 - m2 <= -1)%Z).
      { destruct (Z_le_gt_dec (m1 - m2) (-1)) as [H|H]; [exact H|]. exfalso.
        assert (H' : inject_Z m2 <= inject_Z m1) by (rewrite <- Zle_Qle; lia). nra. }
      assert (Hd : p + - q <= - pow2 (-1074)).
      { assert (H' : inject_Z (m1 + - m2) <= inject_Z (-1)) by (rewrite <- Zle_Qle; lia).
        rewrite inject_Z_plus, inject_Z_opp in H'.
        change (inject_Z (-1)) with (- (1)) in H'.
        rewrite E1, E2. nra. }
      apply round_fin_mono in Hd. rewrite round_fin_opp in Hd.
      rewrite (round_fin_exact (pow2 (-1074))) in Hd by (apply representable_pow2; lia).
      exact Hd. }
    destruct (round64_cases (p + - q)) as [[A ->]|[[A ->]|[[A1 A2] ->]]].
    + exfalso. lra.
    + reflexivity.
    + cbn [lt]. apply Qlt_bool_true.
      pose proof (Qred_correct (round_fin (p + - q))). lra.
  - assert (Hpos : 0 <= round_fin (p + - q)) by (apply round_fin_nonneg; lra).
    destruct (round64_cases (p + - q)) as [[A ->]|[[A ->]|[[A1 A2] ->]]].
    + reflexivity.
    + exfalso. lra.
    + cbn [lt]. apply Qlt_bool_false.
      pose proof (Qred_correct (round_fin (p + - q))). lra.
Qed.

Lemma double_has_x (a : ParetoPoint.t) : double_x a -> has_x a = true.
Proof. unfold double_x, has_x. now destruct (ParetoPoint.x a). Qed.

(** On doubles the comparator is the strict order of the numbers. *)
Lemma before_lt (a b : ParetoPoint.t) :
  double_x a -> double_x b ->
  before a b = lt (ParetoPoint.x a) (ParetoPoint.x b).
Proof.
  unfold double_x, before.
  destruct (ParetoPoint.x a) as [p| | |], (ParetoPoint.x b) as [q| | |];
    try contradiction; intros Ha Hb; try reflexivity.
  now apply sub_sign.
Qed.

Lemma before_true_le (a b : ParetoPoint.t) :
  double_x a -> double_x b -> before a b = true -> x_le a b.
Proof.
  intros Ha Hb. rewrite before_lt by assumption. unfold x_le, double_x in *.
  destruct (ParetoPoint.x a) as [p| | |], (ParetoPoint.x b) as [q| | |];
    try contradiction; cbn [lt le negb]; try reflexivity; try discriminate.
  intros H. qprop. apply negb_true_iff, Qlt_bool_false. lra.
Qed.

Lemma before_false_le (a b : ParetoPoint.t) :
  double_x a -> double_x b -> before a b = false -> x_le b a.
Proof.
  intros Ha Hb. rewrite before_lt by assumption. unfold x_le, double_x in *.
  destruct (ParetoPoint.x a) as [p| | |], (ParetoPoint.x b) as [q| | |];
    try contradiction; cbn [lt le negb]; try reflexivity; try discriminate.
  intros H. now rewrite H.
Qed.

Lemma insert_point_perm (p : ParetoPoint.t) (l : list ParetoPoint.t) :
  Permutation (insert_point p l) (p :: l).
Proof.
  induction l as [|q l IH]; cbn [insert_point]; [reflexivity|].
  destruct (before p q); [reflexivity|].
  rewrite IH. apply perm_swap.
Qed.

Lemma insert_point_sorted (p : ParetoPoint.t) (l : list ParetoPoint.t) :
  double_x p -> Forall double_x l ->
  Sorted x_le l -> Sorted x_le (insert_point p l).
Proof.
  intros Hp. induction l as [|q l IH]; intros Hl Hs; cbn [insert_point].
  - repeat constructor.
  - inversion Hl as [|? ? Hq Hl']; subst.
    inversion Hs as [|? ? Hs' Hhd]; subst.
    destruct (before p q) eqn:E.
    + constructor; [exact Hs|]. constructor. now apply before_true_le.
    + constructor; [now apply IH|].
      destruct l as [|r l]; cbn [insert_point].
      * constructor. now apply before_false_le.
      * destruct (before p r); constructor.
        -- now apply before_false_le.
        -- now inversion Hhd.
Qed.

Lemma sort_points_from (ps acc : list ParetoPoint.t) :
  Forall double_x ps -> Forall double_x acc -> Sorted x_le acc ->
  Permutation (fold_left (fun sorted p => insert_point p sorted) ps acc) (ps ++ acc)
  /\ Sorted x_le (fold_left (fun sorted p => insert_point p sorted) ps acc).
Proof.
  revert acc. induction ps as [|p ps IH]; intros acc Hps Hacc Hs.
  - split; [reflexivity | exact Hs].
  - inversion Hps as [|? ? Hp Hps']; subst.
    cbn [fold_left]. destruct (IH (insert_point p acc)) as [H1 H2];
      [exact Hps' | | now apply insert_point_sorted |].
    + apply Forall_forall. intros q Hq.
      apply (Permutation_in _ (insert_point_perm p acc)) in Hq.
      destruct Hq as [<-|Hq]; [exact Hp|].
      rewrite Forall_forall in Hacc. now apply Hacc.
    + split; [|exact H2]. rewrite H1.
      rewrite (insert_point_perm p acc). cbn [app].
      symmetry. apply Permutation_middle.
Qed.

(** A quotient by a million is a double, an infinity or [NaN]. *)
Lemma div_million_double (t : number) :
  match div t million with Fin p => representable p | _ => True end.
Proof.
  destruct t as [q| | |]; try exact I. unfold million. cbn [div].
  change (Qeq_bool 1000000 0) with false. cbv iota.
  destruct (round64 (q / 1000000)) as [p| | |] eqn:E; try exact I.
  now apply round64_Fin in E.
Qed.

Lemma pareto_points_double (results : Results.t) :
  Forall double_x (filter has_x (pareto_points results)).
Proof.
  apply Forall_forall. intros d Hd. apply filter_In in Hd. destruct Hd as [Hin Hx].
  assert (Hq : exists t, ParetoPoint.x d = div t million).
  { unfold pareto_points in Hin. rewrite !in_app_iff in Hin.
    destruct Hin as [H|[H|[H|H]]];
      [destruct (Results.turnover results) | destruct (Results.cost results)
       | destruct (Results.productivity results)
       | destruct (Results.multiObjective results)];
      cbn [In] in H; try contradiction; destruct H as [<-|H]; try contradiction;
      eexists; reflexivity. }
  destruct Hq as (t & Ht). unfold double_x, has_x in *. rewrite Ht in *.
  pose proof (div_million_double t) as H.
  destruct (div t million); try exact I; [exact H | discriminate].
Qed.

(** X14: the Pareto view holds exactly the stored results whose turnover
    is not [NaN] (a permutation of them), no point without a turnover
    value, and the points are in ascending order of turnover: every point
    is at most every later point. *)
Theorem paretoData_sorted (results : Results.t) :
  Permutation (paretoData results) (filter has_x (pareto_points results))
  /\ forallb has_x (paretoData results) = true
  /\ StronglySorted x_le (paretoData results).
Proof.
  unfold paretoData, sort_points. fold has_x.
  pose proof (pareto_points_double results) as Hps.
  set (ps := filter has_x (pareto_points results)) in *.
  destruct (sort_points_from ps [] Hps (Forall_nil _)) as [Hperm Hsorted];
    [constructor|].
  rewrite app_nil_r in Hperm.
  split; [exact Hperm|]. split.
  - apply forallb_forall. intros p Hp.
    apply (Permutation_in _ Hperm) in Hp.
    rewrite Forall_forall in Hps. now apply double_has_x, Hps.
  - apply Sorted_StronglySorted; [|exact Hsorted].
    intros a b c. apply le_trans_number.
Qed.
(** ** The CSV import *)

Lemma skip_space_blank (s : string) : blank s = true -> skip_space s = EmptyString.
Proof.
  induction s as [|c t IH]; cbn [blank skip_space]; [reflexivity|].
  intros H. apply andb_true_iff in H. destruct H as [Hc Ht].
  rewrite Hc. now apply IH.
Qed.

Lemma trim_blank (s : string) : trim s = EmptyString <-> blank s = true.
Proof.
  unfold trim. split.
  - induction s as [|c t IH]; cbn [blank skip_space]; [reflexivity|].
    destruct (is_space c) eqn:Hc; [exact IH|].
    cbn [trim_end]. rewrite Hc. now destruct (trim_end t).
  - intros H. now rewrite skip_space_blank.
Qed.

Lemma split_on_blank (sep : ascii) (s : string) :
  is_space sep = true ->
  (forallb blank (split_on sep s) = true <-> blank s = true).
Proof.
  intros Hsep. induction s as [|c t IH]; cbn [split_on blank forallb]; [tauto|].
  destruct (Ascii.eqb_spec c sep) as [->|Hne].
  - cbn [forallb blank]. rewrite Hsep. cbn [andb]. exact IH.
  - destruct (split_on sep t) as [|h r]; cbn [forallb blank] in *.
    + destruct IH as [IH _]. rewrite (IH eq_refl).
      now destruct (is_space c).
    + destruct (is_space c), (blank h), (forallb blank r), (blank t);
        cbn [andb] in *; intuition discriminate.
Qed.

Lemma lines_of_nil (text : string) : lines_of text = [] <-> blank text = true.
Proof.
  unfold lines_of. rewrite <- (split_on_blank "010"%char text eq_refl).
  induction (split_on "010"%char text) as [|l ls IH]; cbn [map filter forallb];
    [tauto|].
  destruct (String.eqb_spec (trim l) EmptyString) as [E|E]; cbn [negb].
  - apply trim_blank in E. rewrite E. cbn [andb]. exact IH.
  - split; [discriminate|]. intros H. apply andb_true_iff in H.
    destruct H as [H _]. apply trim_blank in H. contradiction.
Qed.

(** X15: on a text of code units below 256, the import raises (the parse
    error of the alert, the data set staying as it is) exactly when the
    text of the file is white space only (tab, line feed, vertical tab,
    form feed, carriage return, space, no-break space); any other text is
    loaded, whatever it holds. *)
Theorem upload_raises_iff_blank (data : Data) (text : string) :
  handleFileUpload data text = None <-> blank text = true.
Proof.
  rewrite <- lines_of_nil. unfold handleFileUpload.
  destruct (lines_of text); split; (reflexivity || discriminate).
Qed.

Lemma cell_value_number (cells : list string) (hIdx : nat) :
  is_nan (cell_value cells hIdx) = false.
Proof.
  unfold cell_value, or.
  destruct (nth_error cells hIdx) as [c|]; [|reflexivity].
  destruct (parseFloat c) as [q| | |]; cbn [truthy]; try reflexivity.
  now destruct (negb (Qeq_bool q 0)).
Qed.

Lemma twelve_numbers_set (s : list number) (i : nat) (v : number) :
  twelve_numbers s = true -> (i < 12)%nat -> is_nan v = false ->
  twelve_numbers (set s i v) = true.
Proof.
  unfold twelve_numbers. intros H Hi Hv.
  apply andb_true_iff in H. destruct H as [Hlen Hall].
  apply Nat.eqb_eq in Hlen.
  rewrite length_set, Hlen by lia. cbn [Nat.eqb andb].
  apply forallb_set; [exact Hall | lia | now rewrite Hv].
Qed.

Lemma reducei_from_inv {A B : Type} (P : B -> Prop) (f : B -> A -> nat -> B)
  (n : nat) (xs : list A) (k : nat) (init : B) :
  (k + length xs <= n)%nat ->
  (forall acc x i, (i < n)%nat -> P acc -> P (f acc x i)) ->
  P init -> P (reducei_from f k xs init).
Proof.
  intros Hn Hf. revert k init Hn.
  induction xs as [|x xs IH]; intros k init Hn Hinit; cbn [reducei_from];
    [exact Hinit|].
  cbn [length] in Hn. apply IH; [lia|]. apply Hf; [lia | exact Hinit].
Qed.

Lemma store_cell_steps (d : Data) (rIdx : nat) (cells : list string)
  (head : string) (hIdx : nat) :
  store_cell d rIdx cells head hIdx
  = let v := cell_value cells hIdx in
    assign_if (includes "capacity" head || includes "cap" head) "capacity" rIdx v
      (assign_if (includes "order" head) "orders" rIdx v
         (assign_if (includes "product" head || includes "productivity" head)
            "productivity" rIdx v
            (assign_if (includes "cost" head) "cost" rIdx v
               (assign_if (includes "turnover" head || includes "sales" head)
                  "turnover" rIdx v d)))).
Proof. reflexivity. Qed.

Lemma complete_series (d : Data) (c : string) (s : list number) :
  complete_data d = true -> series d c = Some s -> twelve_numbers s = true.
Proof.
  unfold complete_data. rewrite !andb_true_iff.
  intros [[[[H1 H2] H3] H4] H5] H.
  now destruct (series_cases d c s H)
    as [[-> ->]|[[-> ->]|[[-> ->]|[[-> ->]|[-> ->]]]]].
Qed.

Lemma complete_with_series (d : Data) (c : string) (s : list number) :
  complete_data d = true -> twelve_numbers s = true ->
  complete_data (with_series d c s) = true.
Proof.
  unfold complete_data. rewrite !andb_true_iff.
  intros [[[[H1 H2] H3] H4] H5] Hs. unfold with_series.
  repeat match goal with
    | |- context [String.eqb c ?k] =>
        destruct (String.eqb c k);
        [cbn [turnover cost productivity orders capacity]; tauto|]
    end.
  tauto.
Qed.

Lemma assign_if_complete (test : bool) (c : string) (rIdx : nat) (v : number)
  (d : Data) :
  (rIdx < 12)%nat -> is_nan v = false -> complete_data d = true ->
  complete_data (assign_if test c rIdx v d) = true.
Proof.
  intros Hr Hv Hd. unfold assign_if. destruct test; [|exact Hd].
  destruct (series d c) as [s|] eqn:E; [|exact Hd].
  apply complete_with_series; [exact Hd|].
  apply twelve_numbers_set; [now apply (complete_series d c) | exact Hr | exact Hv].
Qed.

Lemma store_cell_complete (d : Data) (rIdx : nat) (cells : list string)
  (head : string) (hIdx : nat) :
  (rIdx < 12)%nat -> complete_data d = true ->
  complete_data (store_cell d rIdx cells head hIdx) = true.
Proof.
  intros Hr Hd. rewrite store_cell_steps. cbv zeta.
  pose proof (cell_value_number cells hIdx) as Hv.
  now repeat apply assign_if_complete.
Qed.

(** X16: the import keeps the data set complete: when each of the five
    series holds twelve values, none of them [NaN], so does each series of
    the data set that is loaded, whatever the text of the file (a cell that
    is missing or is no number is stored as 0, and at most twelve rows are
    read). *)
Theorem upload_keeps_data_complete (data d' : Data) (text : string) :
  complete_data data = true ->
  handleFileUpload data text = Some d' ->
  complete_data d' = true.
Proof.
  intros Hdata. unfold handleFileUpload.
  destruct (lines_of text) as [|header rest]; [discriminate|].
  intros [= <-]. rewrite deepCopyData_id. unfold reducei.
  apply (reducei_from_inv (fun d => complete_data d = true) _ 12).
  - apply (firstn_le_length 12).
  - intros acc line r Hr Hacc. unfold store_row, reducei.
    apply (reducei_from_inv (fun d => complete_data d = true) _
             (length (map (fun h => toLowerCase (trim h)) (split_on "," header))));
      [lia | | exact Hacc].
    intros acc' head h _ Hacc'. now apply store_cell_complete.
  - exact Hdata.
Qed.

Lemma upload_keeps_data_complete_witness :
  exists d', handleFileUpload DEFAULT_DATA example_csv = Some d'
             /\ complete_data d' = true.
Proof.
  destruct (handleFileUpload DEFAULT_DATA example_csv) as [d'|] eqn:E;
    [|vm_compute in E; discriminate E].
  exists d'. split; [reflexivity|].
  exact (upload_keeps_data_complete DEFAULT_DATA d' example_csv eq_refl E).
Defined.

Lemma set_set (s : list number) (i : nat) (v w : number) :
  set (set s i v) i w = set s i w.
Proof.
  revert s. induction i as [|i IH]; intros [|h t]; cbn [set]; try reflexivity;
    now rewrite IH.
Qed.

Lemma prefix_trans (a b s : string) :
  String.prefix a b = true -> String.prefix b s = true -> String.prefix a s = true.
Proof.
  revert b s. induction a as [|x a IH]; intros [|y b] [|z s]; cbn [String.prefix];
    try discriminate; try reflexivity.
  destruct (ascii_dec x y) as [->|]; [|discriminate].
  destruct (ascii_dec y z) as [->|]; [|discriminate].
  apply IH.
Qed.

(** A text that includes a word includes every prefix of the word. *)
Lemma includes_prefix (a b s : string) :
  String.prefix a b = true -> includes b s = true -> includes a s = true.
Proof.
  intros Hab. induction s as [|c t IH]; cbn [includes]; rewrite !orb_true_iff.
  - intros [H|H]; [left; now apply (prefix_trans a b) | discriminate].
  - intros [H|H]; [left; now apply (prefix_trans a b) | right; now apply IH].
Qed.

(** The tests on [productivity] and on [capacity] add nothing to the tests
    on [product] and on [cap]. *)
Lemma product_test (head : string) :
  (includes "product" head || includes "productivity" head)%bool = includes "product" head.
Proof.
  destruct (includes "product" head) eqn:E; [reflexivity|]. cbn [orb].
  destruct (includes "productivity" head) eqn:E'; [|reflexivity].
  rewrite (includes_prefix "product" "productivity" head eq_refl E') in E.
  discriminate.
Qed.

Lemma capacity_test (head : string) :
  (includes "capacity" head || includes "cap" head)%bool = includes "cap" head.
Proof.
  destruct (includes "cap" head) eqn:E; [apply orb_true_r|]. rewrite orb_false_r.
  destruct (includes "capacity" head) eqn:E'; [|reflexivity].
  rewrite (includes_prefix "cap" "capacity" head eq_refl E') in E.
  discriminate.
Qed.

Lemma series_assign_if (test : bool) (c : string) (rIdx : nat) (v : number)
  (d : Data) (c' : string) (s s0 : list number) :
  series d c = Some s0 ->
  series d c' = Some s ->
  series (assign_if test c rIdx v d) c'
  = Some (if (test && String.eqb c' c)%bool then set s rIdx v else s).
Proof.
  intros Hc Hs. unfold assign_if. destruct test; [|exact Hs]. rewrite Hc.
  destruct (series_with_series d c s0 (set s0 rIdx v) Hc) as [Hsame Hother].
  cbn [andb]. destruct (String.eqb_spec c' c) as [->|Hne].
  - rewrite Hsame. congruence.
  - now rewrite Hother.
Qed.

Lemma series_store_cell (d : Data) (rIdx : nat) (cells : list string)
  (head : string) (hIdx : nat) (c : string) (s : list number) :
  series d c = Some s ->
  series (store_cell d rIdx cells head hIdx) c
  = Some (if feeds c head then set s rIdx (cell_value cells hIdx) else s).
Proof.
  intros H. rewrite store_cell_steps, product_test, capacity_test. cbv zeta.
  set (v := cell_value cells hIdx).
  set (d1 := assign_if _ "turnover" rIdx v d).
  set (d2 := assign_if _ "cost" rIdx v d1).
  set (d3 := assign_if _ "productivity" rIdx v d2).
  set (d4 := assign_if _ "orders" rIdx v d3).
  pose proof (series_assign_if (includes "turnover" head || includes "sales" head)
                "turnover" rIdx v d c _ (turnover d) eq_refl H) as H1.
  fold d1 in H1.
  pose proof (series_assign_if (includes "cost" head)
                "cost" rIdx v d1 c _ (cost d1) eq_refl H1) as H2.
  fold d2 in H2.
  pose proof (series_assign_if (includes "product" head)
                "productivity" rIdx v d2 c _ (productivity d2) eq_refl H2) as H3.
  fold d3 in H3.
  pose proof (series_assign_if (includes "order" head)
                "orders" rIdx v d3 c _ (orders d3) eq_refl H3) as H4.
  fold d4 in H4.
  rewrite (series_assign_if (includes "cap" head)
             "capacity" rIdx v d4 c _ (capacity d4) eq_refl H4).
  clear H1 H2 H3 H4. clearbody v. clear d1 d2 d3 d4.
  destruct (series_cases d c s H)
    as [[-> _]|[[-> _]|[[-> _]|[[-> _]|[-> _]]]]];
    unfold feeds; cbn [String.eqb Ascii.eqb Bool.eqb andb];
    rewrite ?andb_false_r, ?andb_true_r; cbn [andb];
    repeat match goal with
      | |- context [if ?b then _ else _] => destruct b
      end;
    rewrite ?set_set; reflexivity.
Qed.

Lemma series_store_cells (c : string) (s : list number) (rIdx : nat)
  (cells : list string) (headers : list string) (k : nat) (d : Data)
  (found : option nat) :
  series d c = Some (row_value s rIdx cells found) ->
  series (reducei_from (fun d head hIdx => store_cell d rIdx cells head hIdx)
            k headers d) c
  = Some (row_value s rIdx cells (last_feed_from c k headers found)).
Proof.
  revert k d found. unfold last_feed_from.
  induction headers as [|head headers IH]; intros k d found Hd;
    cbn [reducei_from]; [exact Hd|].
  apply IH. rewrite (series_store_cell _ _ _ _ _ _ _ Hd).
  destruct (feeds c head); [|reflexivity].
  destruct found as [h|]; cbn [row_value]; [now rewrite set_set | reflexivity].
Qed.


Lemma get_fill_from (h : nat) (rows : list string) (k : nat) (s : list number)
  (r : nat) :
  get (fill_from h k rows s) r
  = if (k <=? r)%nat
    then match nth_error rows (r - k) with
         | Some line => cell_value (cells_of line) h
         | None => get s r
         end
    else get s r.
Proof.
  unfold fill_from. revert k s.
  induction rows as [|line rows IH]; intros k s; cbn [reducei_from].
  - destruct (k <=? r)%nat; [|reflexivity]. now destruct (r - k)%nat.
  - rewrite IH. destruct (Nat.leb_spec (S k) r) as [Hk|Hk].
    + replace (k <=? r)%nat with true by (symmetry; apply Nat.leb_le; lia).
      replace (r - k)%nat with (S (r - S k)) by lia. cbn [nth_error].
      destruct (nth_error rows (r - S k)); [reflexivity|].
      apply get_set_other. lia.
    + destruct (Nat.leb_spec k r) as [Hk'|Hk'].
      * assert (r = k) by lia. subst r. rewrite Nat.sub_diag. cbn [nth_error].
        apply get_set_same.
      * apply get_set_other. lia.
Qed.

Lemma series_store_rows (headers : list string) (c : string)
  (rows : list string) (k : nat) (d : Data) (s : list number) :
  series d c = Some s ->
  series (reducei_from (store_row headers) k rows d) c
  = Some (match last_feed c headers with
          | Some h => fill_from h k rows s
          | None => s
          end).
Proof.
  unfold fill_from. revert k d s.
  induction rows as [|line rows IH]; intros k d s Hd; cbn [reducei_from].
  - rewrite Hd. now destruct (last_feed c headers).
  - assert (Hrow : series (store_row headers d line k) c
                   = Some (row_value s k (cells_of line) (last_feed c headers))).
    { unfold store_row, reducei, last_feed.
      now apply (series_store_cells c s k (cells_of line) headers 0 d None). }
    rewrite (IH _ _ _ Hrow). unfold row_value.
    now destruct (last_feed c headers).
Qed.

(** X17: what the import stores in a series.  When no header feeds the
    series it is left as it was.  Otherwise the column of the last header
    that feeds it is the one that counts: month [r] takes the value
    [parseFloat(cell) || 0] of that column in data row [r], for each of the
    first twelve data rows, and the months with no data row keep their
    values. *)
Theorem upload_stores_last_matching_column
  (data d' : Data) (text category : string) (s : list number) :
  handleFileUpload data text = Some d' ->
  series data category = Some s ->
  exists s',
    series d' category = Some s'
    /\ match last_feed category (headers_of text) with
       | None => s' = s
       | Some h =>
           forall r,
             get s' r = match nth_error (rows_of text) r with
                        | Some line => cell_value (cells_of line) h
                        | None => get s r
                        end
       end.
Proof.
  unfold handleFileUpload, headers_of, rows_of.
  destruct (lines_of text) as [|header rest]; [discriminate|].
  intros [= <-] Hs. rewrite deepCopyData_id. unfold reducei. cbn [tl].
  rewrite (series_store_rows _ category _ 0 _ _ Hs).
  eexists. split; [reflexivity|].
  destruct (last_feed category _) as [h|]; [|reflexivity].
  intros r. rewrite get_fill_from. cbn [Nat.leb]. now rewrite Nat.sub_0_r.
Qed.

Lemma upload_stores_last_matching_column_witness :
  exists d' s',
    handleFileUpload DEFAULT_DATA example_csv = Some d'
    /\ series d' "cost" = Some s'
    /\ get s' 0 = Fin (165 # 2) /\ get s' 1 = Fin 0 /\ get s' 2 = Fin 70.
Proof.
  destruct (handleFileUpload DEFAULT_DATA example_csv) as [d'|] eqn:E;
    [|vm_compute in E; discriminate E].
  destruct (upload_stores_last_matching_column
              DEFAULT_DATA d' example_csv "cost" (cost DEFAULT_DATA) E eq_refl)
    as (s' & Hs' & H).
  exists d', s'. split; [reflexivity|]. split; [exact Hs'|].
  assert (Hh : last_feed "cost" (headers_of example_csv) = Some 2%nat)
    by (vm_compute; reflexivity).
  rewrite Hh in H.
  rewrite (H 0%nat), (H 1%nat), (H 2%nat).
  vm_compute. repeat split; reflexivity.
Defined.
(** ** The runs *)

Lemma known_mode_cases (mode : string) :
  known_mode mode = true ->
  mode = "turnover"%string \/ mode = "cost"%string
  \/ mode = "productivity"%string \/ mode = "multiObjective"%string.
Proof.
  unfold known_mode. rewrite !orb_true_iff, !String.eqb_eq. tauto.
Qed.

(** The objective value that the heuristic returns is the objective of
    the plan that it returns. *)
Lemma objective_of_solution (coeffs lower upper : list number) (options : Options) :
  objective (solveLPHeuristic coeffs lower upper options)
  = dot coeffs (solution (solveLPHeuristic coeffs lower upper options)).
Proof.
  unfold solveLPHeuristic.
  now destruct (for_loop _ _ _) as [sol total].
Qed.

(** X18: in each of the four modes the three totals of the result are the
    three objectives of the plan of the result, as [computeObjectives]
    gives them, the turnover in RON (times 1000): also in the modes that
    take a total from the objective value of the heuristic. *)
Theorem reported_totals_match_plan
  (data : Data) (ahp : option AHPResult) (mode : string) :
  known_mode mode = true ->
  exists res,
    runOptimization data ahp mode = Some res
    /\ let z := computeObjectives (turnover data) (cost data) (productivity data)
                  (res_solution res) in
       turnoverVal res = mul (Z1 z) (Fin 1000)
       /\ costVal res = Z2 z
       /\ productivityVal res = Z3 z.
Proof.
  intros Hmode.
  destruct (known_mode_cases mode Hmode) as [ -> | [ -> | [ -> | -> ] ] ];
    unfold runOptimization; cbn [String.eqb Ascii.eqb Bool.eqb andb];
    eexists; (split; [reflexivity|]);
    cbn [res_solution turnoverVal costVal productivityVal computeObjectives Z1 Z2 Z3];
    rewrite ?objective_of_solution; repeat split; reflexivity.
Qed.

Lemma reported_totals_match_plan_witness :
  exists res,
    runOptimization DEFAULT_DATA None "productivity" = Some res
    /\ productivityVal res = dot (productivity DEFAULT_DATA) (res_solution res).
Proof.
  destruct (reported_totals_match_plan DEFAULT_DATA None "productivity" eq_refl)
    as (res & Hres & _ & _ & H).
  exists res. split; [exact Hres | exact H].
Defined.

Lemma mapi_from_all {A : Type} (f : A -> nat -> number) (P : number -> bool)
  (k : nat) (xs : list A) :
  (forall x j, In x xs -> (k <= j < k + length xs)%nat -> P (f x j) = true) ->
  forallb P (mapi_from f k xs) = true.
Proof.
  revert k. induction xs as [|x xs IH]; intros k H; [reflexivity|].
  cbn [mapi_from forallb]. rewrite H, IH; [reflexivity | | now left | cbn [length]; lia].
  intros y j Hy Hj. apply H; [now right | cbn [length]; lia].
Qed.

Lemma length_mapi_from {A B : Type} (f : A -> nat -> B) (k : nat) (xs : list A) :
  length (mapi_from f k xs) = length xs.
Proof.
  revert k. induction xs as [|x xs IH]; intros k; [reflexivity|].
  cbn [mapi_from length]. now rewrite IH.
Qed.

(** Products and sums of numbers below powers of two are finite. *)
Lemma mul_bounded (a b : Q) (i j : Z) :
  Qabs a <= pow2 i -> Qabs b <= pow2 j -> (-1074 <= i + j < 1024)%Z ->
  exists r, mul (Fin a) (Fin b) = Fin r /\ Qabs r <= pow2 (i + j).
Proof.
  intros Ha Hb Hij. cbn [mul].
  destruct (round64_bounded (a * b) (pow2 (i + j))) as (r & E & Hr & _).
  - apply representable_pow2. lia.
  - apply pow2_lt. lia.
  - rewrite Qabs_Qmult, pow2_add.
    pose proof (Qabs_nonneg a). pose proof (Qabs_nonneg b).
    pose proof (pow2_pos i). pose proof (pow2_pos j). nra.
  - now exists r.
Qed.

Lemma add_bounded (a b : Q) (i : Z) :
  Qabs a <= pow2 i -> Qabs b <= pow2 i -> (-1074 <= i + 1 < 1024)%Z ->
  exists r, add (Fin a) (Fin b) = Fin r /\ Qabs r <= pow2 (i + 1).
Proof.
  intros Ha Hb Hi. cbn [add].
  destruct (round64_bounded (a + b) (pow2 (i + 1))) as (r & E & Hr & _).
  - apply representable_pow2. lia.
  - apply pow2_lt. lia.
  - rewrite pow2_add. change (pow2 1) with 2.
    apply Qabs_Qle_condition in Ha, Hb. apply Qabs_Qle_condition. lra.
  - now exists r.
Qed.

Lemma bounded_weaken (a : Q) (i j : Z) :
  (i <= j)%Z -> Qabs a <= pow2 i -> Qabs a <= pow2 j.
Proof. intros Hij Ha. pose proof (pow2_le i j Hij). lra. Qed.

Lemma within_pow2 (x : number) :
  within (2 ^ 48) x = true -> exists q, x = Fin q /\ Qabs q <= pow2 48.
Proof.
  intros H. destruct (within_inv _ _ H) as [E Hb].
  exists (val x). split; [exact E|]. now rewrite (pow2_Z 48) by lia.
Qed.

Section ModerateRun.

Variables coeffs lower upper : list number.
Variable options : Options.

Hypothesis coeffs_finite : all_finite coeffs = true.
Hypothesis lower_moderate : moderate lower = true.
Hypothesis upper_moderate : moderate upper = true.
Hypothesis lower_length : length lower = length coeffs.
Hypothesis upper_length : length upper = length coeffs.
Hypothesis periods : (length coeffs <= 12)%nat.

(** The allocations are integers of moderate size. *)
Lemma allocs_moderate (k : nat) :
  (k <= length coeffs)%nat ->
  exists zs, allocs coeffs lower upper options k = map ofZ zs
             /\ Forall (fun z => (Z.abs z <= 2 ^ 48)%Z) zs.
Proof using All.
  induction k as [|k IH]; intros Hk.
  - exists []. split; [reflexivity | constructor].
  - destruct IH as (zs & Hzs & Hall); [lia|].
    destruct (cumulative_integer coeffs lower upper options coeffs_finite
                lower_moderate upper_moderate lower_length upper_length periods k)
      as (a & Ha & Hb); [lia|].
    cbn [allocs]. rewrite Ha.
    rewrite (alloc_value_Fin coeffs lower upper options coeffs_finite
               lower_moderate upper_moderate lower_length upper_length periods) by lia.
    pose proof (alloc_within coeffs lower upper options coeffs_finite
                  lower_moderate upper_moderate lower_length upper_length periods
                  k a ltac:(lia)) as Hz.
    rewrite Hzs. eexists (zs ++ [_]). split; [now rewrite map_app|].
    apply Forall_app. split; [exact Hall | now constructor].
Qed.

End ModerateRun.

Lemma plan_integers (coeffs lower upper : list number) (options : Options) :
  length coeffs = 12%nat -> all_finite coeffs = true ->
  moderate_series lower = true -> moderate_series upper = true ->
  exists zs,
    solution (solveLPHeuristic coeffs lower upper options) = map ofZ zs
    /\ length zs = 12%nat
    /\ Forall (fun z => (Z.abs z <= 2 ^ 48)%Z) zs.
Proof.
  unfold moderate_series. rewrite !andb_true_iff, !Nat.eqb_eq.
  intros Hlc Hc [Hll Hl] [Hlu Hu].
  rewrite solution_allocs.
  destruct (allocs_moderate coeffs lower upper options Hc Hl Hu) with (k := length coeffs)
    as (zs & Hzs & Hall); try lia.
  exists zs. split; [exact Hzs|]. split; [|exact Hall].
  rewrite <- (length_map ofZ), <- Hzs, length_allocs. exact Hlc.
Qed.

(** The evaluator on coefficients and a plan of moderate size. *)
Lemma dot_moderate_fin (cs : list number) (zs : list Z) :
  moderate_series cs = true -> length zs = 12%nat ->
  Forall (fun z => (Z.abs z <= 2 ^ 48)%Z) zs ->
  exists d, dot cs (map ofZ zs) = Fin d /\ Qabs d <= pow2 110.
Proof.
  unfold moderate_series. rewrite andb_true_iff, Nat.eqb_eq. intros [Hlen Hcs] Hzs Hall.
  unfold dot, reducei.
  assert (G : forall (ys : list Z) (k : nat) (acc : Q) (e : Z),
             (k + length ys <= length cs)%nat ->
             Forall (fun z => (Z.abs z <= 2 ^ 48)%Z) ys ->
             Qabs acc <= pow2 e -> (96 <= e)%Z -> (e + Z.of_nat (length ys) <= 110)%Z ->
             exists d, reducei_from (fun s xi i => add s (mul (get cs i) xi)) k
                         (map ofZ ys) (Fin acc) = Fin d /\ Qabs d <= pow2 110).
  { induction ys as [|z ys IH]; intros k acc e Hl Ha Hacc He Hb.
    - exists acc. split; [reflexivity|]. apply (bounded_weaken acc e 110); [|exact Hacc].
      cbn [length] in Hb. lia.
    - inversion Ha as [|? ? Hz Ha']; subst. cbn [length] in Hl, Hb.
      cbn [map reducei_from].
      destruct (within_pow2 _ (moderate_get cs k Hcs ltac:(lia))) as (c & -> & Hc).
      assert (Hzq : Qabs (inject_Z z) <= pow2 48).
      { rewrite Qabs_inject_Z, (pow2_Z 48) by lia. now rewrite <- Zle_Qle. }
      change (ofZ z) with (Fin (inject_Z z)).
      destruct (mul_bounded c (inject_Z z) 48 48 Hc Hzq) as (p & -> & Hp); [lia|].
      destruct (add_bounded acc p e Hacc) as (r & -> & Hr);
        [apply (bounded_weaken p 96 e); [lia | exact Hp] | lia |].
      apply (IH (S k) r (e + 1)%Z); try assumption; lia. }
  apply (G zs 0%nat 0 96%Z); try assumption; try lia.
  cbn. pose proof (pow2_pos 96). lra.
Qed.

(** The coefficients of the multi-objective mode are finite. *)
Lemma combined_finite (data : Data) (ws : list number) :
  moderate_data data = true -> length ws = 3%nat -> moderate ws = true ->
  length
    (mapi (fun t i =>
             add (sub (mul (mul (get ws 0) t) (Fin 1000))
                      (mul (mul (get ws 1) (get (cost data) i)) (Fin 1000)))
                 (mul (get ws 2) (get (productivity data) i)))
          (turnover data)) = 12%nat
  /\ all_finite
    (mapi (fun t i =>
             add (sub (mul (mul (get ws 0) t) (Fin 1000))
                      (mul (mul (get ws 1) (get (cost data) i)) (Fin 1000)))
                 (mul (get ws 2) (get (productivity data) i)))
          (turnover data)) = true.
Proof.
  unfold moderate_data, moderate_series. rewrite !andb_true_iff, !Nat.eqb_eq.
  intros [[[[[Ht1 Ht2] [Hc1 Hc2]] [Hp1 Hp2]] _] _] Hw1 Hw2.
  unfold mapi. rewrite length_mapi_from. split; [exact Ht1|].
  apply mapi_from_all. intros t j Ht Hj.
  assert (Hft : within (2 ^ 48) t = true).
  { unfold moderate in Ht2. rewrite forallb_forall in Ht2. now apply Ht2. }
  destruct (within_pow2 _ Hft) as (tq & -> & Htq).
  destruct (within_pow2 _ (moderate_get ws 0 Hw2 ltac:(lia))) as (w0 & -> & H0).
  destruct (within_pow2 _ (moderate_get ws 1 Hw2 ltac:(lia))) as (w1 & -> & H1).
  destruct (within_pow2 _ (moderate_get ws 2 Hw2 ltac:(lia))) as (w2 & -> & H2).
  destruct (within_pow2 _ (moderate_get (cost data) j Hc2 ltac:(lia))) as (c & -> & Hc).
  destruct (within_pow2 _ (moderate_get (productivity data) j Hp2 ltac:(lia)))
    as (p & -> & Hp).
  assert (Hk : Qabs 1000 <= pow2 10) by qconst.
  destruct (mul_bounded w0 tq 48 48 H0 Htq) as (a1 & -> & A1); [lia|].
  destruct (mul_bounded a1 1000 96 10 A1 Hk) as (a2 & -> & A2); [lia|].
  destruct (mul_bounded w1 c 48 48 H1 Hc) as (b1 & -> & B1); [lia|].
  destruct (mul_bounded b1 1000 96 10 B1 Hk) as (b2 & -> & B2); [lia|].
  destruct (mul_bounded w2 p 48 48 H2 Hp) as (c1 & -> & C1); [lia|].
  unfold sub. cbn [neg].
  destruct (add_bounded a2 (- b2) 106 A2) as (d1 & -> & D1);
    [now rewrite Qabs_opp | lia |].
  destruct (add_bounded d1 c1 107 D1) as (d2 & -> & D2);
    [apply (bounded_weaken c1 96 107); [lia | exact C1] | lia |].
  reflexivity.
Qed.

Lemma weights_in_use (ahp : option AHPResult) :
  moderate_weights ahp = true ->
  let ws := match ahp with Some a => weights a | None => fallback_weights end in
  length ws = 3%nat /\ moderate ws = true.
Proof.
  destruct ahp as [a|]; cbn [moderate_weights].
  - rewrite andb_true_iff, Nat.eqb_eq. tauto.
  - intros _. split; [reflexivity | vm_compute; reflexivity].
Qed.

Lemma moderate_series_inv (s : list number) :
  moderate_series s = true ->
  length s = 12%nat /\ moderate s = true /\ all_finite s = true.
Proof.
  unfold moderate_series. rewrite andb_true_iff, Nat.eqb_eq. intros [H1 H2].
  split; [exact H1|]. split; [exact H2 | now apply moderate_finite].
Qed.

(** The coefficients and the options with which a mode calls the
    heuristic, and what it makes of the plan. *)
Lemma runOptimization_shape (data : Data) (ahp : option AHPResult) (mode : string) :
  moderate_data data = true -> moderate_weights ahp = true -> known_mode mode = true ->
  exists coeffs options res,
    length coeffs = 12%nat /\ all_finite coeffs = true
    /\ runOptimization data ahp mode = Some res
    /\ res_solution res
       = solution (solveLPHeuristic coeffs (orders data) (capacity data) options)
    /\ turnoverVal res = mul (dot (turnover data) (res_solution res)) (Fin 1000)
    /\ costVal res = dot (cost data) (res_solution res)
    /\ productivityVal res = dot (productivity data) (res_solution res).
Proof.
  intros Hdata Hw Hmode.
  pose proof (combined_finite data _ Hdata (proj1 (weights_in_use ahp Hw))
                (proj2 (weights_in_use ahp Hw))) as [Hcl Hcf].
  unfold moderate_data in Hdata. rewrite !andb_true_iff in Hdata.
  destruct Hdata as [[[[Ht Hc] Hp] Ho] Hcap].
  destruct (moderate_series_inv _ Ht) as (Lt & _ & Ft).
  destruct (moderate_series_inv _ Hc) as (Lc & _ & Fc).
  destruct (moderate_series_inv _ Hp) as (Lp & _ & Fp).
  destruct (known_mode_cases mode Hmode) as [ -> | [ -> | [ -> | -> ] ] ];
    unfold runOptimization; cbn [String.eqb Ascii.eqb Bool.eqb andb].
  - eexists _, _, _. split; [exact Lt|]. split; [exact Ft|]. split; [reflexivity|].
    cbn [res_solution turnoverVal costVal productivityVal].
    rewrite objective_of_solution. repeat split; reflexivity.
  - eexists _, _, _. split; [rewrite length_map; exact Lc|].
    split; [exact (all_finite_map_neg _ Fc)|].
    split; [reflexivity|]. repeat split; reflexivity.
  - eexists _, _, _. split; [exact Lp|]. split; [exact Fp|]. split; [reflexivity|].
    cbn [res_solution turnoverVal costVal productivityVal].
    rewrite objective_of_solution. repeat split; reflexivity.
  - eexists _, _, _. split; [exact Hcl|]. split; [exact Hcf|]. split; [reflexivity|].
    repeat split; reflexivity.
Qed.

(** A run on data of moderate size gives a result with a finite
    turnover. *)
Lemma run_result_finite
  (data : Data) (ahp : option AHPResult) (mode : string) :
  moderate_data data = true -> moderate_weights ahp = true -> known_mode mode = true ->
  exists res,
    runOptimization data ahp mode = Some res /\ is_fin (turnoverVal res) = true.
Proof.
  intros Hdata Hw Hmode.
  destruct (runOptimization_shape data ahp mode Hdata Hw Hmode)
    as (coeffs & options & res & Hcl & Hcoeffs & Hres & Hsol & Ht & Hc & Hp).
  unfold moderate_data in Hdata. rewrite !andb_true_iff in Hdata.
  destruct Hdata as [[[[Htd Hcd] Hpd] Ho] Hcap].
  destruct (plan_integers coeffs (orders data) (capacity data) options Hcl Hcoeffs Ho Hcap)
    as (zs & Hzs & Hlen & Hall).
  exists res. split; [exact Hres|]. rewrite Ht, Hsol, Hzs.
  destruct (dot_moderate_fin _ zs Htd Hlen Hall) as (d1 & -> & D1).
  destruct (mul_bounded d1 1000 110 10 D1) as (r & -> & _);
    [qconst | lia | reflexivity].
Qed.

(** X19: on a data set of five series of twelve values of moderate size
    (at most [2^48] in absolute value), with no AHP result yet or one of
    three weights of moderate size, each of the four modes gives a result:
    a plan of twelve integers, and three finite totals. *)
Theorem finite_data_finite_results
  (data : Data) (ahp : option AHPResult) (mode : string) :
  moderate_data data = true -> moderate_weights ahp = true -> known_mode mode = true ->
  exists res,
    runOptimization data ahp mode = Some res
    /\ length (res_solution res) = 12%nat
    /\ forallb is_integer (res_solution res) = true
    /\ is_fin (turnoverVal res) = true
    /\ is_fin (costVal res) = true
    /\ is_fin (productivityVal res) = true.
Proof.
  intros Hdata Hw Hmode.
  destruct (runOptimization_shape data ahp mode Hdata Hw Hmode)
    as (coeffs & options & res & Hcl & Hcoeffs & Hres & Hsol & Ht & Hc & Hp).
  unfold moderate_data in Hdata. rewrite !andb_true_iff in Hdata.
  destruct Hdata as [[[[Htd Hcd] Hpd] Ho] Hcap].
  destruct (plan_integers coeffs (orders data) (capacity data) options Hcl Hcoeffs Ho Hcap)
    as (zs & Hzs & Hlen & Hall).
  exists res. split; [exact Hres|].
  rewrite Ht, Hc, Hp, Hsol, Hzs.
  split; [now rewrite length_map|]. split.
  - apply forallb_forall. intros x Hx. apply in_map_iff in Hx.
    destruct Hx as (z & <- & _). apply is_integer_ofZ.
  - destruct (dot_moderate_fin _ zs Htd Hlen Hall) as (d1 & -> & D1).
    destruct (dot_moderate_fin _ zs Hcd Hlen Hall) as (d2 & -> & D2).
    destruct (dot_moderate_fin _ zs Hpd Hlen Hall) as (d3 & -> & D3).
    split; [|split; reflexivity].
    destruct (mul_bounded d1 1000 110 10 D1) as (r & -> & _);
      [qconst | lia | reflexivity].
Qed.

Lemma finite_data_finite_results_witness :
  exists res,
    runOptimization DEFAULT_DATA None "multiObjective" = Some res
    /\ length (res_solution res) = 12%nat
    /\ is_fin (turnoverVal res) = true.
Proof.
  destruct (finite_data_finite_results DEFAULT_DATA None "multiObjective"
              eq_refl eq_refl eq_refl)
    as (res & Hres & Hlen & _ & Ht & _).
  exists res. split; [exact Hres|]. split; [exact Hlen | exact Ht].
Defined.

Lemma in_paretoData (results : Results.t) (p : ParetoPoint.t) :
  In p (paretoData results) <-> In p (pareto_points results) /\ has_x p = true.
Proof.
  unfold paretoData, sort_points. fold has_x.
  pose proof (pareto_points_double results) as Hps.
  set (ps := filter has_x (pareto_points results)) in *.
  destruct (sort_points_from ps [] Hps (Forall_nil _)) as [Hperm _]; [constructor|].
  rewrite app_nil_r in Hperm. rewrite <- (filter_In has_x). fold ps. split.
  - apply (Permutation_in _ Hperm).
  - apply (Permutation_in _ (Permutation_sym Hperm)).
Qed.

(** The point that the Pareto view makes of the result of a mode. *)
Lemma point_of_slot (results : Results.t) (mode : string) (res : StrategyResult) :
  slot results mode = Some res ->
  exists p,
    In p (pareto_points results)
    /\ ParetoPoint.id p = point_id mode
    /\ ParetoPoint.x p = div (turnoverVal res) million
    /\ ParetoPoint.y p = div (costVal res) million
    /\ ParetoPoint.z p = div (productivityVal res) million.
Proof.
  unfold slot, pareto_points.
  destruct (String.eqb_spec mode "turnover") as [->|_].
  { intros ->. eexists. split; [apply in_or_app; left; left; reflexivity|].
    repeat split; reflexivity. }
  destruct (String.eqb_spec mode "cost") as [->|_].
  { intros ->. eexists.
    split; [apply in_or_app; right; apply in_or_app; left; left; reflexivity|].
    repeat split; reflexivity. }
  destruct (String.eqb_spec mode "productivity") as [->|_].
  { intros ->. eexists.
    split; [do 2 (apply in_or_app; right); apply in_or_app; left; left; reflexivity|].
    repeat split; reflexivity. }
  destruct (String.eqb_spec mode "multiObjective") as [->|_]; [|discriminate].
  intros ->. eexists.
  split; [do 3 (apply in_or_app; right); left; reflexivity|].
  repeat split; reflexivity.
Qed.

Lemma slot_store_result (prev : Results.t) (mode : string)
  (result : option StrategyResult) :
  known_mode mode = true -> slot (store_result prev mode result) mode = result.
Proof.
  intros H.
  now destruct (known_mode_cases mode H) as [ -> | [ -> | [ -> | -> ] ] ].
Qed.

(** X20: a run on data of moderate size shows in the Pareto view: after
    the run of one of the four modes on a data set of twelve values of at
    most [2^48] in absolute value per series (and three weights of moderate
    size, if an AHP result is there), the result is in the slot of the mode
    and the view holds its point, at the three totals in millions. *)
Theorem run_shows_in_pareto_view (s : Session.t) (mode : string) :
  moderate_data (Session.data s) = true ->
  moderate_weights (Session.ahp s) = true ->
  known_mode mode = true ->
  exists res p,
    slot (Session.results (run s mode)) mode = Some res
    /\ In p (paretoData (Session.results (run s mode)))
    /\ ParetoPoint.id p = point_id mode
    /\ ParetoPoint.x p = div (turnoverVal res) million
    /\ ParetoPoint.y p = div (costVal res) million
    /\ ParetoPoint.z p = div (productivityVal res) million.
Proof.
  intros Hdata Hw Hmode.
  destruct (run_result_finite (Session.data s) (Session.ahp s) mode
              Hdata Hw Hmode) as (res & Hres & Hfin).
  assert (Hslot : slot (Session.results (run s mode)) mode = Some res).
  { unfold run. cbn [Session.results]. now rewrite slot_store_result. }
  destruct (point_of_slot _ _ _ Hslot) as (p & Hin & Hid & Hx & Hy & Hz).
  exists res, p. split; [exact Hslot|].
  split; [|now repeat split].
  apply in_paretoData. split; [exact Hin|].
  unfold has_x. rewrite Hx.
  destruct (turnoverVal res) as [t| | |]; try discriminate.
  unfold million. cbn [div]. change (Qeq_bool 1000000 0) with false. cbv iota.
  now rewrite round64_not_nan.
Qed.

Lemma run_shows_in_pareto_view_witness :
  exists p,
    In p (paretoData (Session.results (run initial_state "cost")))
    /\ ParetoPoint.id p = "cost"%string.
Proof.
  destruct (run_shows_in_pareto_view initial_state "cost" eq_refl eq_refl eq_refl)
    as (res & p & _ & Hin & Hid & _).
  exists p. split; [exact Hin | exact Hid].
Defined.

Lemma runOptimization_after_run (data : Data) (s : Session.t) (m mode : string) :
  runOptimization data (Session.ahp (run s m)) mode
  = runOptimization data (Session.ahp s) mode.
Proof.
  unfold run. cbn [Session.ahp]. now destruct (Session.ahp s).
Qed.

Lemma store_result_twice (prev : Results.t) (mode : string)
  (r r' : option StrategyResult) :
  store_result (store_result prev mode r) mode r' = store_result prev mode r'.
Proof.
  unfold store_result.
  repeat match goal with
    | |- context [String.eqb mode ?k] =>
        destruct (String.eqb mode k); [reflexivity|]
    end.
  reflexivity.
Qed.

Lemma store_result_swap (prev : Results.t) (m1 m2 : string)
  (r1 r2 : option StrategyResult) :
  m1 <> m2 ->
  store_result (store_result prev m1 r1) m2 r2
  = store_result (store_result prev m2 r2) m1 r1.
Proof.
  intros Hne. unfold store_result.
  destruct (String.eqb_spec m1 "turnover") as [->|];
    [|destruct (String.eqb_spec m1 "cost") as [->|];
      [|destruct (String.eqb_spec m1 "productivity") as [->|];
        [|destruct (String.eqb_spec m1 "multiObjective") as [->|]]]];
  (destruct (String.eqb_spec m2 "turnover") as [->|];
    [|destruct (String.eqb_spec m2 "cost") as [->|];
      [|destruct (String.eqb_spec m2 "productivity") as [->|];
        [|destruct (String.eqb_spec m2 "multiObjective") as [->|]]]]);
  try congruence; reflexivity.
Qed.

(** X21: a run writes one slot: the data set and the pairwise matrix are
    as before, the slot of every other mode is as before, an AHP result
    that was there is kept, and when there was none the fallback weights
    0.132, 0.612, 0.256 are stored with zero consistency figures. *)
Theorem run_writes_one_slot (s : Session.t) (mode mode' : string) :
  mode' <> mode ->
  Session.data (run s mode) = Session.data s
  /\ Session.pairwise (run s mode) = Session.pairwise s
  /\ slot (Session.results (run s mode)) mode' = slot (Session.results s) mode'
  /\ Session.ahp (run s mode)
     = Some (match Session.ahp s with
             | Some a => a
             | None => {| weights := [dbl (132 # 1000); dbl (612 # 1000); dbl (256 # 1000)];
                          lambdaMax := Fin 0; CI := Fin 0; CR := Fin 0 |}
             end).
Proof.
  intros Hne. unfold run.
  cbn [Session.data Session.pairwise Session.results Session.ahp].
  split; [reflexivity|]. split; [reflexivity|]. split.
  - unfold store_result, slot.
    repeat match goal with
      | |- context [String.eqb mode ?k] =>
          destruct (String.eqb_spec mode k) as [->|];
          [repeat match goal with
             | |- context [String.eqb mode' ?k'] =>
                 destruct (String.eqb_spec mode' k') as [->|];
                 [congruence || reflexivity|]
             end; reflexivity|]
      end.
    reflexivity.
  - now destruct (Session.ahp s).
Qed.

Lemma run_writes_one_slot_witness :
  slot (Session.results (run initial_state "cost")) "turnover" = None
  /\ exists a, Session.ahp (run initial_state "cost") = Some a
               /\ weights a = fallback_weights.
Proof.
  destruct (run_writes_one_slot initial_state "cost" "turnover")
    as (_ & _ & Hslot & Hahp); [discriminate|].
  split; [exact Hslot|]. eexists. split; [exact Hahp | reflexivity].
Defined.

(** X22: running a mode twice gives the state of running it once: the
    second run reads the weights that the first one stored, and they are
    the weights that the first one used. *)
Theorem run_twice (s : Session.t) (mode : string) :
  run (run s mode) mode = run s mode.
Proof.
  unfold run at 1. rewrite runOptimization_after_run.
  unfold run. cbn [Session.data Session.pairwise Session.ahp Session.results].
  rewrite store_result_twice. now destruct (Session.ahp s).
Qed.

(** X23: the order of two runs does not matter: the state after two runs
    is the same in either order. *)
Theorem runs_commute (s : Session.t) (m1 m2 : string) :
  run (run s m1) m2 = run (run s m2) m1.
Proof.
  destruct (String.eqb_spec m1 m2) as [->|Hne]; [reflexivity|].
  unfold run at 1 3. rewrite !runOptimization_after_run.
  unfold run. cbn [Session.data Session.pairwise Session.ahp Session.results].
  rewrite (store_result_swap _ m1 m2) by exact Hne.
  now destruct (Session.ahp s).
Qed.
(** ** The balance score *)

Lemma truthy_or_zero (x : number) : truthy (or x (Fin 0)) = truthy x.
Proof. unfold or. now destruct (truthy x) eqn:E. Qed.

Lemma or_zero_fin (x : number) : is_fin x = true -> is_fin (or x (Fin 0)) = true.
Proof. intros H. unfold or. now destruct (truthy x). Qed.

(** [x || 1] on a finite number is a finite number that is not zero. *)
Lemma guard_fin (x : number) :
  is_fin x = true ->
  is_fin (or x (Fin 1)) = true /\ truthy (or x (Fin 1)) = true.
Proof.
  intros Hx. unfold or. destruct (truthy x) eqn:E; [now split | split; reflexivity].
Qed.

Lemma round64_nonneg_number (q : Q) : 0 <= q -> nonneg (round64 q) = true.
Proof.
  intros H. destruct (round64_nonneg q H) as [-> | (r & -> & Hr)]; [reflexivity|].
  unfold nonneg. now apply le_Fin.
Qed.

Lemma Math_abs_nonneg (x : number) : is_nan x = false -> nonneg (Math_abs x) = true.
Proof.
  destruct x as [q| | |]; try discriminate; intros _; try reflexivity.
  cbn [Math_abs]. unfold nonneg. apply le_Fin, Qabs_nonneg.
Qed.

Lemma nonneg_inv (x : number) :
  nonneg x = true -> x = PInf \/ exists q, x = Fin q /\ 0 <= q.
Proof.
  destruct x as [q| | |]; try discriminate; intros H; [right | now left].
  exists q. split; [reflexivity|]. now apply le_Fin.
Qed.

Lemma add_nonneg (x y : number) :
  nonneg x = true -> nonneg y = true ->
  nonneg (add x y) = true /\ (x = PInf \/ y = PInf -> add x y = PInf).
Proof.
  intros Hx Hy.
  destruct (nonneg_inv x Hx) as [-> | (a & -> & Ha)];
    destruct (nonneg_inv y Hy) as [-> | (b & -> & Hb)]; cbn [add];
    try (split; [reflexivity | intros _; reflexivity]).
  split; [apply round64_nonneg_number; lra|].
  intros [H|H]; discriminate.
Qed.

Lemma third_nonneg (x : number) :
  nonneg x = true ->
  nonneg (div x (ofNat 3)) = true /\ (x = PInf -> div x (ofNat 3) = PInf).
Proof.
  intros Hx. change (ofNat 3) with (Fin 3).
  destruct (nonneg_inv x Hx) as [-> | (a & -> & Ha)].
  - split; [reflexivity | intros _; reflexivity].
  - cbn [div]. change (Qeq_bool 3 0) with false. cbv iota.
    split; [|discriminate]. apply round64_nonneg_number.
    apply Qle_shift_div_l; lra.
Qed.

(** The mean of three scores that are not negative is not negative, and
    it is [+Infinity] when one of them is. *)
Lemma average_score (v1 v2 v3 : number) :
  nonneg v1 = true -> nonneg v2 = true -> nonneg v3 = true ->
  nonneg (div (fold_left add [v1; v2; v3] (Fin 0)) (ofNat 3)) = true
  /\ (v1 = PInf \/ v2 = PInf \/ v3 = PInf ->
      div (fold_left add [v1; v2; v3] (Fin 0)) (ofNat 3) = PInf).
Proof.
  intros H1 H2 H3. cbn [fold_left].
  destruct (add_nonneg (Fin 0) v1 eq_refl H1) as [A1 B1].
  destruct (add_nonneg _ v2 A1 H2) as [A2 B2].
  destruct (add_nonneg _ v3 A2 H3) as [A3 B3].
  destruct (third_nonneg _ A3) as [A4 B4].
  split; [exact A4|].
  intros [E|[E|E]]; apply B4, B3.
  - left. apply B2. left. apply B1. now right.
  - left. apply B2. now right.
  - now right.
Qed.

(** One term of a score is never [NaN] and never negative. *)
Lemma deviation_nonneg (v m : number) :
  is_fin v = true -> is_fin m = true -> truthy m = true ->
  nonneg (Math_abs (div (sub v m) (or m (Fin 1)))) = true.
Proof.
  intros Hv Hm Ht. unfold or. rewrite Ht. apply Math_abs_nonneg.
  destruct v as [a| | |], m as [b| | |]; try discriminate.
  cbn [truthy] in Ht. apply negb_true_iff in Ht.
  cbn [sub neg add].
  destruct (round64_cases (a + - b)) as [[_ ->]|[[_ ->]|[_ ->]]].
  - cbn [div sgn]. now destruct (Bool.eqb true (negb (Qlt_bool b 0))).
  - cbn [div sgn]. now destruct (Bool.eqb false (negb (Qlt_bool b 0))).
  - cbn [div]. rewrite Ht. apply round64_not_nan.
Qed.

Lemma imbalance_score (m0 m1 m2 s0 s1 s2 : number) :
  is_fin m0 = true -> is_fin m1 = true -> is_fin m2 = true ->
  truthy m0 = true -> truthy m1 = true -> truthy m2 = true ->
  is_fin s0 = true -> is_fin s1 = true -> is_fin s2 = true ->
  nonneg (imbalance [m0; m1; m2] [s0; s1; s2]) = true
  /\ ((truthy s0 || truthy s1 || truthy s2)%bool = false ->
      imbalance [m0; m1; m2] [s0; s1; s2] = PInf).
Proof.
  intros Fm0 Fm1 Fm2 Tm0 Tm1 Tm2 Fs0 Fs1 Fs2.
  unfold imbalance. cbn [get nth].
  replace (negb (truthy s0) && negb (truthy s1) && negb (truthy s2))%bool
    with (negb (truthy s0 || truthy s1 || truthy s2))
    by now rewrite !negb_orb.
  destruct (truthy s0 || truthy s1 || truthy s2)%bool;
    cbn [negb]; [|split; reflexivity].
  split; [|discriminate].
  cbn [mapi mapi_from get nth length].
  apply average_score; now apply deviation_nonneg.
Qed.

Lemma single_totals (r : option StrategyResult) :
  finite_totals r = true ->
  is_fin (total_or r turnoverVal (Fin 0)) = true
  /\ is_fin (total_or r costVal (Fin 0)) = true
  /\ is_fin (total_or r productivityVal (Fin 0)) = true
  /\ (truthy (total_or r turnoverVal (Fin 0)) || truthy (total_or r costVal (Fin 0))
      || truthy (total_or r productivityVal (Fin 0)))%bool = has_totals r.
Proof.
  unfold total_or. destruct r as [res|]; cbn [finite_totals has_totals].
  - rewrite !andb_true_iff. intros [[H1 H2] H3].
    rewrite !truthy_or_zero. repeat split; now apply or_zero_fin.
  - intros _. repeat split; reflexivity.
Qed.

(** X24: the balance score.  With no multi-objective result there is no
    score.  With one, and finite totals in every stored result, the score
    is never [NaN] and never negative (it can be [+Infinity], also by
    overflow), and it is [+Infinity] as soon as one of the three
    single-objective results is missing or has three zero totals. *)
Theorem multiBetterCheck_score (results : Results.t) :
  finite_totals (Results.turnover results) = true ->
  finite_totals (Results.cost results) = true ->
  finite_totals (Results.productivity results) = true ->
  finite_totals (Results.multiObjective results) = true ->
  match Results.multiObjective results with
  | None => multiBetterCheck results = None
  | Some _ =>
      exists v,
        multiBetterCheck results = Some v
        /\ nonneg v = true
        /\ ((has_totals (Results.turnover results)
             && has_totals (Results.cost results)
             && has_totals (Results.productivity results))%bool = false ->
            v = PInf)
  end.
Proof.
  intros Ht Hc Hp Hm. unfold multiBetterCheck.
  destruct (Results.multiObjective results) as [m|]; [|reflexivity].
  cbn [finite_totals] in Hm. rewrite !andb_true_iff in Hm.
  destruct Hm as [[Hm1 Hm2] Hm3].
  destruct (guard_fin _ Hm1) as [F1 T1].
  destruct (guard_fin _ Hm2) as [F2 T2].
  destruct (guard_fin _ Hm3) as [F3 T3].
  destruct (single_totals _ Ht) as (Ft1 & Ft2 & Ft3 & Et).
  destruct (single_totals _ Hc) as (Fc1 & Fc2 & Fc3 & Ec).
  destruct (single_totals _ Hp) as (Fp1 & Fp2 & Fp3 & Ep).
  eexists. split; [reflexivity|]. cbv zeta. cbn [map length].
  destruct (imbalance_score _ _ _ _ _ _ F1 F2 F3 T1 T2 T3 Ft1 Ft2 Ft3) as [N1 I1].
  destruct (imbalance_score _ _ _ _ _ _ F1 F2 F3 T1 T2 T3 Fc1 Fc2 Fc3) as [N2 I2].
  destruct (imbalance_score _ _ _ _ _ _ F1 F2 F3 T1 T2 T3 Fp1 Fp2 Fp3) as [N3 I3].
  rewrite Et in I1. rewrite Ec in I2. rewrite Ep in I3.
  destruct (average_score _ _ _ N1 N2 N3) as [A B].
  split; [exact A|].
  intros H. apply B. rewrite !andb_false_iff in H.
  destruct H as [[H|H]|H]; auto.
Qed.

Lemma multiBetterCheck_score_witness :
  exists v,
    multiBetterCheck
      {| Results.turnover := Some (example_result 300 90 40);
         Results.cost := None;
         Results.productivity := Some (example_result 200 60 50);
         Results.multiObjective := Some (example_result 200 60 40) |} = Some v
    /\ nonneg v = true /\ v = PInf.
Proof.
  pose proof (multiBetterCheck_score
                {| Results.turnover := Some (example_result 300 90 40);
                   Results.cost := None;
                   Results.productivity := Some (example_result 200 60 50);
                   Results.multiObjective := Some (example_result 200 60 40) |}
                eq_refl eq_refl eq_refl eq_refl) as H.
  cbn [Results.multiObjective] in H.
  destruct H as (v & Hv & Hn & Hinf).
  exists v. split; [exact Hv|]. split; [exact Hn | now apply Hinf].
Defined.
